(** * heap_2.c with block merging: a shallow embedding and its properties

    The program is [FreeRTOS/portable/MemMang/heap_2.c] of the STM32 lab: the
    FreeRTOS V10.2.1 [heap_2] allocator, extended so that
    [prvInsertBlockIntoFreeList] coalesces address-adjacent free blocks when
    [if_merge_mem == 1].

    Memory model.  The target is a 32-bit Cortex-M: [size_t] and pointers
    are 32-bit unsigned words, modelled as [Z] with the wrap-around written
    out ([wrap]).  The only memory the allocator reads or writes is the two
    fields of [BlockLink_t] headers (the two sentinels [xStart], [xEnd] and
    the in-place headers inside [ucHeap]), so memory is modelled one field
    at a time: a finite map from the address of a header to the value of its
    [pxNextFreeBlock] field, and another one for its [xBlockSize] field.
    In memory a header is 8 bytes, the link in the first word and the size
    in the second, so the two maps are the memory only while no two headers
    lie less than 8 bytes apart: otherwise the size word of one would be the
    link word of the other.  The functions are therefore given a second
    time, over a memory of words ([Words]), in which headers that overlap
    do share words.  The theorems about sequences of calls are stated for
    the configurations of [cfg_ok], where the alignment is at least the size
    of a header.  For these the last part of the file proves that the
    headers of every state the allocator reaches are the two sentinels and
    headers in the arena at multiples of 8 bytes, and that every call on
    the two maps computes what the call on words computes; with an
    alignment of 4 it does not ([small_alignment_shares_words]).  Reading a
    field that the allocator never wrote (in particular through a null
    pointer) has no defined result and is a fault ([None]).  Loops over the
    linked list take a fuel argument; running out of fuel is [None] too, and
    the theorems show that enough fuel always gives a result on the states
    the allocator reaches.

    Not modelled: the scheduler lock ([vTaskSuspendAll]/[xTaskResumeAll]),
    the trace macros, the malloc-failed hook and the messages built with
    [sprintf] (the line [pvPortMalloc] prints, the heading and the summary
    of [vPrintFreeList]), none of which touches the allocator's state.  Of
    the printing, the rows [vPrintFreeList] builds with [itoa], [strcat] and
    [vPadding] are modelled, with [itoa] as a parameter.

    The program comes first, then the vocabulary of its specification, the
    lemmas, the properties the specification states, each settled on the
    program, further properties of the code, and last the account of the
    two maps as the memory. *)

From stdpp Require Import gmap list sorting strings.
From Stdlib Require Import ZArith Lia.

Local Open Scope Z_scope.

(** A block is a start address and a size, header included. *)
Abbreviation blk := (Z * Z)%type.

(** ** Machine words *)

(** [size_t] arithmetic on the 32-bit target. *)
Definition wrap (x : Z) : Z := x mod 2 ^ 32.

(** A [uint16_t] conversion. *)
Definition wrap16 (x : Z) : Z := x mod 2 ^ 16.

(** The null pointer. *)
Definition NULL : Z := 0.

(** ** Configuration

    [FreeRTOSConfig.h], [portmacro.h] and the application file that defines
    [if_merge_mem] are not part of the sources; the constants they provide,
    and the addresses the linker gives to the three static objects, are
    parameters of the development. *)
Record Config := {
  configTOTAL_HEAP_SIZE : Z;
  portBYTE_ALIGNMENT : Z;
  portBYTE_ALIGNMENT_MASK : Z;
  if_merge_mem : Z;
  addr_ucHeap : Z;   (* &ucHeap[0] *)
  addr_xStart : Z;   (* &xStart *)
  addr_xEnd : Z      (* &xEnd *)
}.

(** The allocator's mutable state: the two header fields of every address
    that holds a header, the free-bytes counter and the function-static
    initialisation flag of [pvPortMalloc].  A [BlockLink_t] at address [a]
    has its [pxNextFreeBlock] in the word at [a] and its [xBlockSize] in the
    word at [a + 4]; the maps are keyed by [a]. *)
Record heap := {
  pxNextFreeBlock : gmap Z Z;
  xBlockSize : gmap Z Z;
  xFreeBytesRemaining : Z;
  xHeapHasBeenInitialised : bool
}.

(** [p->pxNextFreeBlock = v] and [p->xBlockSize = v].  Each writes one
    field and leaves every other field as it is, as the store to memory
    does when no other header lies less than 8 bytes from [p]. *)
Definition set_next (p v : Z) (s : heap) : heap :=
  {| pxNextFreeBlock := <[p := v]> (pxNextFreeBlock s);
     xBlockSize := xBlockSize s;
     xFreeBytesRemaining := xFreeBytesRemaining s;
     xHeapHasBeenInitialised := xHeapHasBeenInitialised s |}.

Definition set_size (p v : Z) (s : heap) : heap :=
  {| pxNextFreeBlock := pxNextFreeBlock s;
     xBlockSize := <[p := v]> (xBlockSize s);
     xFreeBytesRemaining := xFreeBytesRemaining s;
     xHeapHasBeenInitialised := xHeapHasBeenInitialised s |}.

Definition set_free (v : Z) (s : heap) : heap :=
  {| pxNextFreeBlock := pxNextFreeBlock s;
     xBlockSize := xBlockSize s;
     xFreeBytesRemaining := v;
     xHeapHasBeenInitialised := xHeapHasBeenInitialised s |}.

Definition set_init (v : bool) (s : heap) : heap :=
  {| pxNextFreeBlock := pxNextFreeBlock s;
     xBlockSize := xBlockSize s;
     xFreeBytesRemaining := xFreeBytesRemaining s;
     xHeapHasBeenInitialised := v |}.

Section Allocator.

Variable cfg : Config.

(** [sizeof( BlockLink_t )]: one pointer and one [size_t], 4 bytes each. *)
Definition sizeof_BlockLink_t : Z := 8.

(** [#define configADJUSTED_HEAP_SIZE ( configTOTAL_HEAP_SIZE - portBYTE_ALIGNMENT )] *)
Definition configADJUSTED_HEAP_SIZE : Z :=
  wrap (configTOTAL_HEAP_SIZE cfg - portBYTE_ALIGNMENT cfg).

(** [heapSTRUCT_SIZE = ( sizeof( BlockLink_t ) + ( portBYTE_ALIGNMENT - 1 ) ) & ~portBYTE_ALIGNMENT_MASK],
    stored in a [uint16_t]. *)
Definition heapSTRUCT_SIZE : Z :=
  wrap16 (Z.land (wrap (sizeof_BlockLink_t + (portBYTE_ALIGNMENT cfg - 1)))
                 (Z.lnot (portBYTE_ALIGNMENT_MASK cfg))).

(** [#define heapMINIMUM_BLOCK_SIZE ( ( size_t ) ( heapSTRUCT_SIZE * 2 ) )] *)
Definition heapMINIMUM_BLOCK_SIZE : Z := wrap (heapSTRUCT_SIZE * 2).

(** The aligned start of the arena computed by [prvHeapInit]:
    [&ucHeap[ portBYTE_ALIGNMENT ] & ~portBYTE_ALIGNMENT_MASK]. *)
Definition pucAlignedHeap : Z :=
  Z.land (wrap (addr_ucHeap cfg + portBYTE_ALIGNMENT cfg))
         (wrap (Z.lnot (portBYTE_ALIGNMENT_MASK cfg))).

(** The state before the first call: the statics are zero-initialised,
    [xFreeBytesRemaining] starts at [configADJUSTED_HEAP_SIZE]. *)
Definition initial_heap : heap :=
  {| pxNextFreeBlock := <[addr_xStart cfg := 0]> (<[addr_xEnd cfg := 0]> ∅);
     xBlockSize := <[addr_xStart cfg := 0]> (<[addr_xEnd cfg := 0]> ∅);
     xFreeBytesRemaining := configADJUSTED_HEAP_SIZE;
     xHeapHasBeenInitialised := false |}.

(** ** prvHeapInit *)
Definition prvHeapInit (s : heap) : heap :=
  let s := set_next (addr_xStart cfg) pucAlignedHeap s in
  let s := set_size (addr_xStart cfg) 0 s in
  let s := set_size (addr_xEnd cfg) configADJUSTED_HEAP_SIZE s in
  let s := set_next (addr_xEnd cfg) NULL s in
  let pxFirstFreeBlock := pucAlignedHeap in
  let s := set_size pxFirstFreeBlock configADJUSTED_HEAP_SIZE s in
  set_next pxFirstFreeBlock (addr_xEnd cfg) s.

(** ** prvInsertBlockIntoFreeList *)

(** The [while] loop of the merge pass (lines 117-142).  [xStartAddress],
    [xEndAddress] and [xBlockSize0] are the locals computed before the loop
    and never updated inside it; the loop returns the state and the final
    [pxBlockPtr]. *)
Fixpoint merge_loop (fuel : nat) (xStartAddress xEndAddress xBlockSize0 : Z)
    (s : heap) (pxBlockPtr pxPrevBlock pxCurBlock : Z) : option (heap * Z) :=
  match fuel with
  | O => None
  | S fuel =>
    if decide (pxCurBlock = addr_xEnd cfg) then Some (s, pxBlockPtr)
    else
      let xCurBlockStartAddr := pxCurBlock in
      xCurBlockSize ← xBlockSize s !! pxCurBlock;
      let xCurBlockEndAddr := wrap (xCurBlockStartAddr + xCurBlockSize) in
      if decide (xStartAddress ≠ xCurBlockEndAddr ∧ xEndAddress ≠ xCurBlockStartAddr)
      then
        nxt ← pxNextFreeBlock s !! pxCurBlock;
        merge_loop fuel xStartAddress xEndAddress xBlockSize0 s pxBlockPtr pxCurBlock nxt
      else
        r ← (if decide (xStartAddress = xCurBlockEndAddr) then
               (* pxBlockPtr = pxCurBlock; pxBlockPtr->xBlockSize += xBlockSize; *)
               Some (set_size pxCurBlock (wrap (xCurBlockSize + xBlockSize0)) s, pxCurBlock)
             else if decide (xEndAddress = xCurBlockStartAddr) then
               (* pxBlockPtr->xBlockSize += xCurBlockSize; *)
               sz ← xBlockSize s !! pxBlockPtr;
               Some (set_size pxBlockPtr (wrap (sz + xCurBlockSize)) s, pxBlockPtr)
             else Some (s, pxBlockPtr));
        let '(s1, pxBlockPtr1) := r in
        (* pxPrevBlock->pxNextFreeBlock = pxCurBlock->pxNextFreeBlock; *)
        nxt ← pxNextFreeBlock s1 !! pxCurBlock;
        let s2 := set_next pxPrevBlock nxt s1 in
        (* pxCurBlock = pxCurBlock->pxNextFreeBlock; *)
        nxt' ← pxNextFreeBlock s2 !! pxCurBlock;
        merge_loop fuel xStartAddress xEndAddress xBlockSize0 s2 pxBlockPtr1 pxPrevBlock nxt'
  end.

(** The [for] loop that finds the insertion point (lines 149-154); returns
    the final [pxIterator]. *)
Fixpoint insert_loop (fuel : nat) (xBlockSize0 : Z) (s : heap) (pxIterator : Z)
    : option Z :=
  match fuel with
  | O => None
  | S fuel =>
    nxt ← pxNextFreeBlock s !! pxIterator;
    sz ← xBlockSize s !! nxt;
    if decide (sz < xBlockSize0) then insert_loop fuel xBlockSize0 s nxt
    else Some pxIterator
  end.

Definition prvInsertBlockIntoFreeList (fuel : nat) (s : heap) (pxBlockToInsert : Z)
    : option heap :=
  let pxBlockPtr := pxBlockToInsert in
  xBlockSize0 ← xBlockSize s !! pxBlockPtr;
  r ← (if decide (if_merge_mem cfg = 1) then
         let xStartAddress := pxBlockPtr in
         let xEndAddress := wrap (xStartAddress + xBlockSize0) in
         let pxPrevBlock := addr_xStart cfg in
         pxCurBlock ← pxNextFreeBlock s !! addr_xStart cfg;
         r ← merge_loop fuel xStartAddress xEndAddress xBlockSize0 s
               pxBlockPtr pxPrevBlock pxCurBlock;
         let '(s1, pxBlockPtr1) := r in
         (* xBlockSize = pxBlockPtr->xBlockSize; *)
         sz ← xBlockSize s1 !! pxBlockPtr1;
         Some (s1, pxBlockPtr1, sz)
       else Some (s, pxBlockPtr, xBlockSize0));
  let '(s1, pxBlockPtr1, xBlockSize1) := r in
  pxIterator ← insert_loop fuel xBlockSize1 s1 (addr_xStart cfg);
  (* pxBlockPtr->pxNextFreeBlock = pxIterator->pxNextFreeBlock; *)
  nxt ← pxNextFreeBlock s1 !! pxIterator;
  let s2 := set_next pxBlockPtr1 nxt s1 in
  (* pxIterator->pxNextFreeBlock = pxBlockPtr; *)
  Some (set_next pxIterator pxBlockPtr1 s2).

(** ** pvPortMalloc *)

(** Lines 184-194: the header is added and the sum rounded up to the
    alignment, in [size_t] arithmetic. *)
Definition adjust_size (xWantedSize : Z) : Z :=
  if decide (xWantedSize > 0) then
    let xWantedSize := wrap (xWantedSize + heapSTRUCT_SIZE) in
    if decide (Z.land xWantedSize (portBYTE_ALIGNMENT_MASK cfg) ≠ 0) then
      wrap (xWantedSize
            + (portBYTE_ALIGNMENT cfg - Z.land xWantedSize (portBYTE_ALIGNMENT_MASK cfg)))
    else xWantedSize
  else xWantedSize.

(** The search loop (lines 202-206); returns [(pxPreviousBlock, pxBlock)].
    The second operand of [&&] is only read when the first one holds. *)
Fixpoint search_loop (fuel : nat) (xWantedSize : Z) (s : heap)
    (pxPreviousBlock pxBlock : Z) : option (Z * Z) :=
  match fuel with
  | O => None
  | S fuel =>
    sz ← xBlockSize s !! pxBlock;
    if decide (sz < xWantedSize) then
      nxt ← pxNextFreeBlock s !! pxBlock;
      if decide (nxt ≠ NULL) then search_loop fuel xWantedSize s pxBlock nxt
      else Some (pxPreviousBlock, pxBlock)
    else Some (pxPreviousBlock, pxBlock)
  end.

(** [pvPortMalloc] returns the new state and [pvReturn]. The argument is a
    [size_t], so it is taken modulo [2^32]. *)
Definition pvPortMalloc (fuel : nat) (s : heap) (xWantedSize : Z) : option (heap * Z) :=
  let xWantedSize := wrap xWantedSize in
  let pvReturn := NULL in
  let s := if xHeapHasBeenInitialised s then s
           else set_init true (prvHeapInit s) in
  let xWantedSize := adjust_size xWantedSize in
  if decide (xWantedSize > 0 ∧ xWantedSize < configADJUSTED_HEAP_SIZE) then
    pxBlock0 ← pxNextFreeBlock s !! addr_xStart cfg;
    r ← search_loop fuel xWantedSize s (addr_xStart cfg) pxBlock0;
    let '(pxPreviousBlock, pxBlock) := r in
    if decide (pxBlock ≠ addr_xEnd cfg) then
      p ← pxNextFreeBlock s !! pxPreviousBlock;
      let pvReturn := wrap (p + heapSTRUCT_SIZE) in
      nxt ← pxNextFreeBlock s !! pxBlock;
      let s := set_next pxPreviousBlock nxt s in
      sz ← xBlockSize s !! pxBlock;
      s ← (if decide (wrap (sz - xWantedSize) > heapMINIMUM_BLOCK_SIZE) then
             let pxNewBlockLink := wrap (pxBlock + xWantedSize) in
             let s := set_size pxNewBlockLink (wrap (sz - xWantedSize)) s in
             let s := set_size pxBlock xWantedSize s in
             prvInsertBlockIntoFreeList fuel s pxNewBlockLink
           else Some s);
      sz' ← xBlockSize s !! pxBlock;
      Some (set_free (wrap (xFreeBytesRemaining s - sz')) s, pvReturn)
    else Some (s, pvReturn)
  else Some (s, pvReturn).

(** ** vPortFree *)
Definition vPortFree (fuel : nat) (s : heap) (pv : Z) : option heap :=
  if decide (pv ≠ NULL) then
    let puc := wrap (pv - heapSTRUCT_SIZE) in
    let pxLink := puc in
    s ← prvInsertBlockIntoFreeList fuel s pxLink;
    sz ← xBlockSize s !! pxLink;
    Some (set_free (wrap (xFreeBytesRemaining s + sz)) s)
  else Some s.

(** ** xPortGetFreeHeapSize *)
Definition xPortGetFreeHeapSize (s : heap) : Z := xFreeBytesRemaining s.

(** ** The free list as a value

    The walk of [vPrintFreeList] (lines 339-377), returning the list of
    [(start address, block size)] instead of printing it. *)
Fixpoint free_list_from (fuel : nat) (s : heap) (curNode : Z) : option (list blk) :=
  match fuel with
  | O => None
  | S fuel =>
    if decide (curNode = addr_xEnd cfg) then Some []
    else
      sz ← xBlockSize s !! curNode;
      nxt ← pxNextFreeBlock s !! curNode;
      l ← free_list_from fuel s nxt;
      Some ((curNode, sz) :: l)
  end.

Definition vPrintFreeList (fuel : nat) (s : heap) : option (list blk) :=
  p ← pxNextFreeBlock s !! addr_xStart cfg;
  free_list_from fuel s p.

End Allocator.

(** The state [pvPortMalloc] works on once the lazy initialisation of lines
    176-180 is done. *)
Definition lazy_init (cfg : Config) (s : heap) : heap :=
  if xHeapHasBeenInitialised s then s else set_init true (prvHeapInit cfg s).

(** The pointer handed out for a block: line 213. *)
Definition payload (cfg : Config) (c : blk) : Z := c.1 + heapSTRUCT_SIZE cfg.

(** The size recorded in the hidden header of the block behind pointer [pv],
    found as [vPortFree] finds it (line 271). *)
Definition recorded_size (cfg : Config) (s : heap) (pv : Z) : option Z :=
  xBlockSize s !! wrap (pv - heapSTRUCT_SIZE cfg).

(** ** The rows [vPrintFreeList] prints

    C strings as [string]s: the characters before the terminating NUL.  A
    [char] array of [cap] bytes holds a string of fewer than [cap]
    characters; writing more is a fault ([None]). *)
Definition strcat (cap : nat) (dest src : string) : option string :=
  if decide (String.length dest + String.length src < cap)%nat
  then Some (dest +:+ src) else None.

(** The value of a [size_t] expression passed for an [int] parameter, as gcc
    converts it: modulo [2^32] into the range of [int]. *)
Definition to_int (x : Z) : Z :=
  if decide (wrap x < 2 ^ 31) then wrap x else wrap x - 2 ^ 32.

(** [vPadding]: the loop body runs [padNum] times, and not at all when
    [padNum] is 0 or negative.  [cap] is the size of the array behind
    [str]. *)
Fixpoint vPadding_loop (cap : nat) (count : nat) (str : string) : option string :=
  match count with
  | O => Some str
  | S count => str ← strcat cap str " "; vPadding_loop cap count str
  end.

Definition vPadding (cap : nat) (str : string) (padNum : Z) : option string :=
  vPadding_loop cap (Z.to_nat padNum) str.

(** The two characters that end a row: line feed, carriage return. *)
Definition newline : string :=
  String (Ascii.ascii_of_N 10) (String (Ascii.ascii_of_N 13) EmptyString).

Section Rows.

(** The library function [itoa( value, str, base )] is not part of the
    sources: [itoa value base] stands for the string it writes when it is
    called with [value], converted to [int], and [base]. *)
Variable itoa : Z → Z → string.
Variable cfg : Config.

(** A call of [itoa] on an array of [cap] bytes. *)
Definition itoa_into (cap : nat) (value base : Z) : option string :=
  let str := itoa value base in
  if decide (String.length str < cap)%nat then Some str else None.

(** The body of the loop of [vPrintFreeList] (lines 341-374); returns the
    message handed to [HAL_UART_Transmit]. *)
Definition print_node (s : heap) (curNode : Z) : option string :=
  let msg := EmptyString in
  startAddr ← itoa_into 20 curNode 16;
  msg ← strcat 100 msg "0x";
  msg ← strcat 100 msg startAddr;
  msg ← vPadding 100 msg 9;
  heapStructSize ← itoa_into 5 (wrap16 (heapSTRUCT_SIZE cfg)) 10;
  msg ← strcat 100 msg heapStructSize;
  msg ← vPadding 100 msg 10;
  sz ← xBlockSize s !! curNode;
  blockSize ← itoa_into 10 sz 10;
  let tmp := EmptyString in
  tmp ← vPadding 10 tmp (to_int (5 - Z.of_nat (String.length blockSize)));
  tmp ← strcat 10 tmp blockSize;
  msg ← strcat 100 msg tmp;
  msg ← vPadding 100 msg 5;
  endAddr ← itoa_into 20 (wrap (curNode + sz)) 16;
  msg ← strcat 100 msg "0x";
  msg ← strcat 100 msg endAddr;
  msg ← strcat 100 msg newline;
  Some msg.

(** The loop of [vPrintFreeList] (lines 340-377); returns the messages in
    the order they are transmitted. *)
Fixpoint print_nodes (fuel : nat) (s : heap) (curNode : Z) : option (list string) :=
  match fuel with
  | O => None
  | S fuel =>
    if decide (curNode = addr_xEnd cfg) then Some []
    else
      msg ← print_node s curNode;
      nxt ← pxNextFreeBlock s !! curNode;
      rest ← print_nodes fuel s nxt;
      Some (msg :: rest)
  end.

Definition vPrintFreeList_rows (fuel : nat) (s : heap) : option (list string) :=
  curNode ← pxNextFreeBlock s !! addr_xStart cfg;
  print_nodes fuel s curNode.

End Rows.

(** ** Running call sequences *)

(** A call of the public interface; [Free i] frees the pointer that the
    [i]-th [Malloc] of the sequence returned. *)
Inductive call : Type :=
  | Malloc (xWantedSize : Z)
  | Free (i : nat).

(** Runs the calls in order and collects the pointers returned by the
    [Malloc] calls. *)
Fixpoint run_calls (cfg : Config) (fuel : nat) (cs : list call) (s : heap)
    (ptrs : list Z) : option (heap * list Z) :=
  match cs with
  | [] => Some (s, ptrs)
  | Malloc n :: cs =>
    r ← pvPortMalloc cfg fuel s n;
    run_calls cfg fuel cs r.1 (ptrs ++ [r.2])
  | Free i :: cs =>
    p ← ptrs !! i;
    s' ← vPortFree cfg fuel s p;
    run_calls cfg fuel cs s' ptrs
  end.

(** ** A configuration of the lab board

    1 KiB usable arena, 8-byte alignment, RAM at [0x20000000]; the merge
    flag is left open. *)
Definition lab_cfg (merge : Z) : Config :=
  {| configTOTAL_HEAP_SIZE := 1032;
     portBYTE_ALIGNMENT := 8;
     portBYTE_ALIGNMENT_MASK := 7;
     if_merge_mem := merge;
     addr_ucHeap := 0x20000100;
     addr_xStart := 0x20000010;
     addr_xEnd := 0x20000018 |}.

(** The heap after the single call [pvPortMalloc( 16 )]: one block of 24
    bytes handed out at [0x20000110], one free block of 1000 bytes. *)
Definition lab_heap1 : heap :=
  default (initial_heap (lab_cfg 1))
    (fst <$> pvPortMalloc (lab_cfg 1) 4 (initial_heap (lab_cfg 1)) 16).

(** * The program on words

    The same functions once more, over the memory as the processor has it:
    a map from the addresses of words to their values, in which
    [p->pxNextFreeBlock] is the word at [p] and [p->xBlockSize] the word at
    [p + 4].  Headers that overlap share words here, as they do in the
    program.  The last part of the file shows that on the states the
    allocator reaches the functions of the first part compute what these
    compute. *)
Module Words.

(** The memory, the free-bytes counter and the initialisation flag. *)
Record heap := {
  word : gmap Z Z;
  xFreeBytesRemaining : Z;
  xHeapHasBeenInitialised : bool
}.

(** [p->pxNextFreeBlock], the first word of the header at [p], and
    [p->xBlockSize], the second one. *)
Definition pxNextFreeBlock (s : heap) (p : Z) : option Z := word s !! p.

Definition xBlockSize (s : heap) (p : Z) : option Z := word s !! (p + 4).

(** The store of one word, and the assignments to the two fields. *)
Definition store (a v : Z) (s : heap) : heap :=
  {| word := <[a := v]> (word s);
     xFreeBytesRemaining := xFreeBytesRemaining s;
     xHeapHasBeenInitialised := xHeapHasBeenInitialised s |}.

Definition set_next (p v : Z) (s : heap) : heap := store p v s.

Definition set_size (p v : Z) (s : heap) : heap := store (p + 4) v s.

Definition set_free (v : Z) (s : heap) : heap :=
  {| word := word s;
     xFreeBytesRemaining := v;
     xHeapHasBeenInitialised := xHeapHasBeenInitialised s |}.

Definition set_init (v : bool) (s : heap) : heap :=
  {| word := word s;
     xFreeBytesRemaining := xFreeBytesRemaining s;
     xHeapHasBeenInitialised := v |}.

Section Allocator.

Variable cfg : Config.

(** The state before the first call: the two sentinels are zero. *)
Definition initial_heap : heap :=
  {| word := <[addr_xStart cfg := 0]> (<[addr_xStart cfg + 4 := 0]>
               (<[addr_xEnd cfg := 0]> (<[addr_xEnd cfg + 4 := 0]> ∅)));
     xFreeBytesRemaining := configADJUSTED_HEAP_SIZE cfg;
     xHeapHasBeenInitialised := false |}.

(** Lines 301-323. *)
Definition prvHeapInit (s : heap) : heap :=
  let s := set_next (addr_xStart cfg) (pucAlignedHeap cfg) s in
  let s := set_size (addr_xStart cfg) 0 s in
  let s := set_size (addr_xEnd cfg) (configADJUSTED_HEAP_SIZE cfg) s in
  let s := set_next (addr_xEnd cfg) NULL s in
  let pxFirstFreeBlock := (pucAlignedHeap cfg) in
  let s := set_size pxFirstFreeBlock (configADJUSTED_HEAP_SIZE cfg) s in
  set_next pxFirstFreeBlock (addr_xEnd cfg) s.

(** Lines 117-142. *)
Fixpoint merge_loop (fuel : nat) (xStartAddress xEndAddress xBlockSize0 : Z)
    (s : heap) (pxBlockPtr pxPrevBlock pxCurBlock : Z) : option (heap * Z) :=
  match fuel with
  | O => None
  | S fuel =>
    if decide (pxCurBlock = addr_xEnd cfg) then Some (s, pxBlockPtr)
    else
      let xCurBlockStartAddr := pxCurBlock in
      xCurBlockSize ← xBlockSize s pxCurBlock;
      let xCurBlockEndAddr := wrap (xCurBlockStartAddr + xCurBlockSize) in
      if decide (xStartAddress ≠ xCurBlockEndAddr ∧ xEndAddress ≠ xCurBlockStartAddr)
      then
        nxt ← pxNextFreeBlock s pxCurBlock;
        merge_loop fuel xStartAddress xEndAddress xBlockSize0 s pxBlockPtr pxCurBlock nxt
      else
        r ← (if decide (xStartAddress = xCurBlockEndAddr) then
               (* pxBlockPtr = pxCurBlock; pxBlockPtr->xBlockSize += xBlockSize; *)
               Some (set_size pxCurBlock (wrap (xCurBlockSize + xBlockSize0)) s, pxCurBlock)
             else if decide (xEndAddress = xCurBlockStartAddr) then
               (* pxBlockPtr->xBlockSize += xCurBlockSize; *)
               sz ← xBlockSize s pxBlockPtr;
               Some (set_size pxBlockPtr (wrap (sz + xCurBlockSize)) s, pxBlockPtr)
             else Some (s, pxBlockPtr));
        let '(s1, pxBlockPtr1) := r in
        (* pxPrevBlock->pxNextFreeBlock = pxCurBlock->pxNextFreeBlock; *)
        nxt ← pxNextFreeBlock s1 pxCurBlock;
        let s2 := set_next pxPrevBlock nxt s1 in
        (* pxCurBlock = pxCurBlock->pxNextFreeBlock; *)
        nxt' ← pxNextFreeBlock s2 pxCurBlock;
        merge_loop fuel xStartAddress xEndAddress xBlockSize0 s2 pxBlockPtr1 pxPrevBlock nxt'
  end.

(** Lines 149-154. *)
Fixpoint insert_loop (fuel : nat) (xBlockSize0 : Z) (s : heap) (pxIterator : Z)
    : option Z :=
  match fuel with
  | O => None
  | S fuel =>
    nxt ← pxNextFreeBlock s pxIterator;
    sz ← xBlockSize s nxt;
    if decide (sz < xBlockSize0) then insert_loop fuel xBlockSize0 s nxt
    else Some pxIterator
  end.

(** Lines 102-159. *)
Definition prvInsertBlockIntoFreeList (fuel : nat) (s : heap) (pxBlockToInsert : Z)
    : option heap :=
  let pxBlockPtr := pxBlockToInsert in
  xBlockSize0 ← xBlockSize s pxBlockPtr;
  r ← (if decide (if_merge_mem cfg = 1) then
         let xStartAddress := pxBlockPtr in
         let xEndAddress := wrap (xStartAddress + xBlockSize0) in
         let pxPrevBlock := addr_xStart cfg in
         pxCurBlock ← pxNextFreeBlock s (addr_xStart cfg);
         r ← merge_loop fuel xStartAddress xEndAddress xBlockSize0 s
               pxBlockPtr pxPrevBlock pxCurBlock;
         let '(s1, pxBlockPtr1) := r in
         (* xBlockSize = pxBlockPtr->xBlockSize; *)
         sz ← xBlockSize s1 pxBlockPtr1;
         Some (s1, pxBlockPtr1, sz)
       else Some (s, pxBlockPtr, xBlockSize0));
  let '(s1, pxBlockPtr1, xBlockSize1) := r in
  pxIterator ← insert_loop fuel xBlockSize1 s1 (addr_xStart cfg);
  (* pxBlockPtr->pxNextFreeBlock = pxIterator->pxNextFreeBlock; *)
  nxt ← pxNextFreeBlock s1 pxIterator;
  let s2 := set_next pxBlockPtr1 nxt s1 in
  (* pxIterator->pxNextFreeBlock = pxBlockPtr; *)
  Some (set_next pxIterator pxBlockPtr1 s2).

(** Lines 202-206. *)
Fixpoint search_loop (fuel : nat) (xWantedSize : Z) (s : heap)
    (pxPreviousBlock pxBlock : Z) : option (Z * Z) :=
  match fuel with
  | O => None
  | S fuel =>
    sz ← xBlockSize s pxBlock;
    if decide (sz < xWantedSize) then
      nxt ← pxNextFreeBlock s pxBlock;
      if decide (nxt ≠ NULL) then search_loop fuel xWantedSize s pxBlock nxt
      else Some (pxPreviousBlock, pxBlock)
    else Some (pxPreviousBlock, pxBlock)
  end.

(** Lines 163-259. *)
Definition pvPortMalloc (fuel : nat) (s : heap) (xWantedSize : Z) : option (heap * Z) :=
  let xWantedSize := wrap xWantedSize in
  let pvReturn := NULL in
  let s := if xHeapHasBeenInitialised s then s
           else set_init true (prvHeapInit s) in
  let xWantedSize := adjust_size cfg xWantedSize in
  if decide (xWantedSize > 0 ∧ xWantedSize < (configADJUSTED_HEAP_SIZE cfg)) then
    pxBlock0 ← pxNextFreeBlock s (addr_xStart cfg);
    r ← search_loop fuel xWantedSize s (addr_xStart cfg) pxBlock0;
    let '(pxPreviousBlock, pxBlock) := r in
    if decide (pxBlock ≠ addr_xEnd cfg) then
      p ← pxNextFreeBlock s pxPreviousBlock;
      let pvReturn := wrap (p + (heapSTRUCT_SIZE cfg)) in
      nxt ← pxNextFreeBlock s pxBlock;
      let s := set_next pxPreviousBlock nxt s in
      sz ← xBlockSize s pxBlock;
      s ← (if decide (wrap (sz - xWantedSize) > (heapMINIMUM_BLOCK_SIZE cfg)) then
             let pxNewBlockLink := wrap (pxBlock + xWantedSize) in
             let s := set_size pxNewBlockLink (wrap (sz - xWantedSize)) s in
             let s := set_size pxBlock xWantedSize s in
             prvInsertBlockIntoFreeList fuel s pxNewBlockLink
           else Some s);
      sz' ← xBlockSize s pxBlock;
      Some (set_free (wrap (xFreeBytesRemaining s - sz')) s, pvReturn)
    else Some (s, pvReturn)
  else Some (s, pvReturn).

(** Lines 262-286. *)
Definition vPortFree (fuel : nat) (s : heap) (pv : Z) : option heap :=
  if decide (pv ≠ NULL) then
    let puc := wrap (pv - (heapSTRUCT_SIZE cfg)) in
    let pxLink := puc in
    s ← prvInsertBlockIntoFreeList fuel s pxLink;
    sz ← xBlockSize s pxLink;
    Some (set_free (wrap (xFreeBytesRemaining s + sz)) s)
  else Some s.

(** Lines 339-377. *)
Fixpoint free_list_from (fuel : nat) (s : heap) (curNode : Z) : option (list blk) :=
  match fuel with
  | O => None
  | S fuel =>
    if decide (curNode = addr_xEnd cfg) then Some []
    else
      sz ← xBlockSize s curNode;
      nxt ← pxNextFreeBlock s curNode;
      l ← free_list_from fuel s nxt;
      Some ((curNode, sz) :: l)
  end.

Definition vPrintFreeList (fuel : nat) (s : heap) : option (list blk) :=
  p ← pxNextFreeBlock s (addr_xStart cfg);
  free_list_from fuel s p.

End Allocator.

(** Runs the calls in order and collects the pointers returned. *)
Fixpoint run_calls (cfg : Config) (fuel : nat) (cs : list call) (s : heap)
    (ptrs : list Z) : option (heap * list Z) :=
  match cs with
  | [] => Some (s, ptrs)
  | Malloc n :: cs =>
    r ← pvPortMalloc cfg fuel s n;
    run_calls cfg fuel cs r.1 (ptrs ++ [r.2])
  | Free i :: cs =>
    p ← ptrs !! i;
    s' ← vPortFree cfg fuel s p;
    run_calls cfg fuel cs s' ptrs
  end.

End Words.

(** Configurations with an alignment of 4, less than the size of a header:
    usable arena of 1024 bytes at [base + 0x104]. *)
Definition small_cfg (base : Z) : Config :=
  {| configTOTAL_HEAP_SIZE := 1028;
     portBYTE_ALIGNMENT := 4;
     portBYTE_ALIGNMENT_MASK := 3;
     if_merge_mem := 0;
     addr_ucHeap := base + 0x100;
     addr_xStart := base + 0x10;
     addr_xEnd := base + 0x18 |}.

(** * The vocabulary of the specification *)

(** ** Well-formed configurations

    What the development assumes of the constants.  The aligned arena
    [pucAlignedHeap, pucAlignedHeap + configADJUSTED_HEAP_SIZE) is not empty,
    lies in the address space with room for one header above it, does not
    start at the null address, headers are not empty, and the two sentinels
    are distinct non-null objects outside of the arena.

    [portBYTE_ALIGNMENT] is a power of two (the values [portable.h] accepts)
    and not less than [sizeof( BlockLink_t )], as in the Cortex-M ports,
    where it is 8, and [portBYTE_ALIGNMENT_MASK] is one less.  Every adjusted
    size is then a multiple of the size of a header, also when the request
    wraps, and no block is shorter than its header.  With a smaller
    alignment a request that wraps can make a block of 4 bytes, whose
    [xBlockSize] word is the [pxNextFreeBlock] word of the header that
    follows; the two maps, which keep the fields apart, are not the memory
    there ([small_alignment_shares_words]).  The arena holds at least one
    header, and each sentinel is an object of the size of a header that
    overlaps neither the other one nor the arena. *)
Definition cfg_ok (cfg : Config) : bool :=
  bool_decide (0 < pucAlignedHeap cfg
    ∧ 0 < configADJUSTED_HEAP_SIZE cfg
    ∧ 0 < heapSTRUCT_SIZE cfg
    ∧ pucAlignedHeap cfg + configADJUSTED_HEAP_SIZE cfg + heapSTRUCT_SIZE cfg ≤ 2 ^ 32
    ∧ addr_xStart cfg ≠ addr_xEnd cfg
    ∧ addr_xStart cfg ≠ NULL ∧ addr_xEnd cfg ≠ NULL
    ∧ ¬ (pucAlignedHeap cfg ≤ addr_xStart cfg
          < pucAlignedHeap cfg + configADJUSTED_HEAP_SIZE cfg)
    ∧ ¬ (pucAlignedHeap cfg ≤ addr_xEnd cfg
          < pucAlignedHeap cfg + configADJUSTED_HEAP_SIZE cfg)
    ∧ sizeof_BlockLink_t ≤ portBYTE_ALIGNMENT cfg
    ∧ portBYTE_ALIGNMENT cfg = 2 ^ Z.log2 (portBYTE_ALIGNMENT cfg)
    ∧ portBYTE_ALIGNMENT_MASK cfg = portBYTE_ALIGNMENT cfg - 1
    ∧ sizeof_BlockLink_t ≤ configADJUSTED_HEAP_SIZE cfg
    ∧ (addr_xStart cfg + sizeof_BlockLink_t ≤ addr_xEnd cfg
       ∨ addr_xEnd cfg + sizeof_BlockLink_t ≤ addr_xStart cfg)
    ∧ (addr_xStart cfg + sizeof_BlockLink_t ≤ pucAlignedHeap cfg
       ∨ pucAlignedHeap cfg + configADJUSTED_HEAP_SIZE cfg ≤ addr_xStart cfg)
    ∧ (addr_xEnd cfg + sizeof_BlockLink_t ≤ pucAlignedHeap cfg
       ∨ pucAlignedHeap cfg + configADJUSTED_HEAP_SIZE cfg ≤ addr_xEnd cfg)).

(** ** The free list as a predicate *)

(** [chain cfg s p l]: following [pxNextFreeBlock] from [p] visits exactly
    the headers [l] (address and recorded size of each) and then [&xEnd]. *)
Fixpoint chain (cfg : Config) (s : heap) (p : Z) (l : list blk) : Prop :=
  match l with
  | [] => p = addr_xEnd cfg
  | c :: l' =>
    p = c.1 ∧ c.1 ≠ addr_xEnd cfg ∧ xBlockSize s !! c.1 = Some c.2
    ∧ ∃ q, pxNextFreeBlock s !! c.1 = Some q ∧ chain cfg s q l'
  end.

(** [free_list cfg s l]: the free list of [s], read from [xStart] to [xEnd],
    is [l]. *)
Definition free_list (cfg : Config) (s : heap) (l : list blk) : Prop :=
  ∃ p, pxNextFreeBlock s !! addr_xStart cfg = Some p ∧ chain cfg s p l.

(** ** The merge pass on lists

    What the [while] loop of [prvInsertBlockIntoFreeList] does to the free
    list, read off the loop body: the nodes it leaves linked, and the block
    [pxBlockPtr] ends up pointing to with its recorded size. *)
Section MergeList.

Variables xStartAddress xEndAddress xBlockSize0 : Z.

(** The test of line 123: the node is adjacent to neither end. *)
Definition not_adjacent (c : blk) : Prop :=
  xStartAddress ≠ wrap (c.1 + c.2) ∧ xEndAddress ≠ c.1.

#[global] Instance not_adjacent_dec c : Decision (not_adjacent c).
Proof. unfold not_adjacent. apply _. Defined.

Definition merge_keep (l : list blk) : list blk := filter not_adjacent l.

Fixpoint merge_block (ptr : blk) (l : list blk) : blk :=
  match l with
  | [] => ptr
  | c :: l' =>
    if decide (not_adjacent c) then merge_block ptr l'
    else if decide (xStartAddress = wrap (c.1 + c.2))
    then merge_block (c.1, wrap (c.2 + xBlockSize0)) l'
    else merge_block (ptr.1, wrap (ptr.2 + c.2)) l'
  end.

(** The size recorded in the header [pxBlockPtr] pointed to when the loop
    was entered: it absorbs the right neighbour only while [pxBlockPtr] has
    not moved to a left neighbour. *)
Fixpoint merge_own (osz : Z) (l : list blk) : Z :=
  match l with
  | [] => osz
  | c :: l' =>
    if decide (not_adjacent c) then merge_own osz l'
    else if decide (xStartAddress = wrap (c.1 + c.2)) then osz
    else merge_own (wrap (osz + c.2)) l'
  end.

End MergeList.

(** The sorted insertion of lines 149-158 on lists. *)
Fixpoint insert_block (b : blk) (l : list blk) : list blk :=
  match l with
  | [] => [b]
  | c :: l' => if decide (c.2 < b.2) then c :: insert_block b l' else b :: c :: l'
  end.

(** ** The insertion engine on lists

    The free list [prvInsertBlockIntoFreeList] leaves when it is given the
    block [b] and the free list is [l]: with merging, the merge pass picks
    the final block and unlinks the absorbed nodes; then the block is put at
    its place by size. *)
Section EngineList.

Variable cfg : Config.

Definition merged (b : blk) (l : list blk) : blk :=
  if decide (if_merge_mem cfg = 1)
  then merge_block b.1 (wrap (b.1 + b.2)) b.2 b l else b.

Definition kept (b : blk) (l : list blk) : list blk :=
  if decide (if_merge_mem cfg = 1)
  then merge_keep b.1 (wrap (b.1 + b.2)) l else l.

(** The size left in the header at [b.1], which [vPortFree] reads back. *)
Definition own (b : blk) (l : list blk) : Z :=
  if decide (if_merge_mem cfg = 1)
  then merge_own b.1 (wrap (b.1 + b.2)) b.2 l else b.2.

Definition insert_merge (b : blk) (l : list blk) : list blk :=
  insert_block (merged b l) (kept b l).

End EngineList.

(** ** Sortedness *)

Definition size_le (c d : blk) : Prop := c.2 ≤ d.2.

(** The free list is non-decreasing by block size. *)
Definition sorted_by_size (l : list blk) : Prop := StronglySorted size_le l.

(** ** Layout of blocks in the arena *)

(** [R] holds between any two blocks of the list. *)
Fixpoint pairwise (R : blk → blk → Prop) (l : list blk) : Prop :=
  match l with
  | [] => True
  | c :: l' => Forall (R c) l' ∧ pairwise R l'
  end.

(** The block lies in the arena and is not empty. *)
Definition inside (cfg : Config) (c : blk) : Prop :=
  pucAlignedHeap cfg ≤ c.1 ∧ 0 < c.2
  ∧ c.1 + c.2 ≤ pucAlignedHeap cfg + configADJUSTED_HEAP_SIZE cfg.

(** The two blocks do not overlap. *)
Definition apart (c d : blk) : Prop := c.1 + c.2 ≤ d.1 ∨ d.1 + d.2 ≤ c.1.

(** The blocks of [l] lie in the arena and are pairwise disjoint. *)
Definition layout (cfg : Config) (l : list blk) : Prop :=
  Forall (inside cfg) l ∧ pairwise apart l.

(** One block ends where the other starts. *)
Definition touching (c d : blk) : Prop := c.1 + c.2 = d.1 ∨ d.1 + d.2 = c.1.

(** No two blocks of the list are adjacent. *)
Definition no_touch (l : list blk) : Prop := pairwise (λ c d, ¬ touching c d) l.

(** The sum of the sizes of the blocks of a list. *)
Definition bytes (l : list blk) : Z := foldr (λ c n, c.2 + n) 0 l.

(** ** The invariant of initialised heaps

    [l] is the free list and [A] the blocks handed out and not yet freed,
    each with the size recorded in its header.  The free list is sorted by
    size, its blocks and those of [A] lie in the arena without overlapping,
    and the tail sentinel holds the arena size. *)
Definition heap_inv (cfg : Config) (s : heap) (l A : list blk) : Prop :=
  xHeapHasBeenInitialised s = true
  ∧ xBlockSize s !! addr_xEnd cfg = Some (configADJUSTED_HEAP_SIZE cfg)
  ∧ free_list cfg s l
  ∧ sorted_by_size l
  ∧ layout cfg (l ++ A)
  ∧ Forall (λ c : blk, xBlockSize s !! c.1 = Some c.2) A.

(** What a call of [pvPortMalloc] with adjusted size [W] does to a heap with
    free list [l] and outstanding blocks [A]: it fails and changes nothing,
    or it hands out the first block [b] of the list that is large enough,
    split or whole. *)
Definition malloc_post (cfg : Config) (s : heap) (l A : list blk) (W : Z)
    (s' : heap) (p : Z) : Prop :=
  (p = NULL ∧ s' = s
   ∧ (¬ (0 < W < configADJUSTED_HEAP_SIZE cfg) ∨ Forall (λ c : blk, c.2 < W) l))
  ∨ (0 < W < configADJUSTED_HEAP_SIZE cfg
     ∧ ∃ l1 b l2, l = l1 ++ b :: l2 ∧ Forall (λ c : blk, c.2 < W) l1 ∧ W ≤ b.2
       ∧ p = b.1 + heapSTRUCT_SIZE cfg
       ∧ ((heapMINIMUM_BLOCK_SIZE cfg < b.2 - W
           ∧ heap_inv cfg s' (insert_merge cfg (b.1 + W, b.2 - W) (l1 ++ l2)) ((b.1, W) :: A)
           ∧ xFreeBytesRemaining s' = wrap (xFreeBytesRemaining s - W))
          ∨ (b.2 - W ≤ heapMINIMUM_BLOCK_SIZE cfg
             ∧ heap_inv cfg s' (l1 ++ l2) (b :: A)
             ∧ xFreeBytesRemaining s' = wrap (xFreeBytesRemaining s - b.2)))).

(** ** Sequences of calls

    [reachable cfg s L]: some sequence of [pvPortMalloc] and [vPortFree]
    calls, each of which returned, leads from the initial state to [s], with
    [L] the pointers handed out and not freed since.  A call of [vPortFree]
    is given the null pointer or one of these pointers, which is the
    precondition of the function.  The calls are those on the two maps; for
    the configurations of [cfg_ok] they compute what the calls on words
    compute, so the states are those of the program. *)
Inductive reachable (cfg : Config) : heap → list Z → Prop :=
  | reach_init : reachable cfg (initial_heap cfg) []
  | reach_malloc s L fuel n s' p :
      reachable cfg s L →
      pvPortMalloc cfg fuel s n = Some (s', p) →
      reachable cfg s' (if decide (p = NULL) then L else p :: L)
  | reach_free s L1 p L2 fuel s' :
      reachable cfg s (L1 ++ p :: L2) →
      vPortFree cfg fuel s p = Some s' →
      reachable cfg s' (L1 ++ L2)
  | reach_free_null s L fuel s' :
      reachable cfg s L →
      vPortFree cfg fuel s NULL = Some s' →
      reachable cfg s' L.

(** ** Where the headers are

    [header_at s a]: the state holds a field of a header at address [a],
    that is, the allocator wrote a header there (or [a] is a sentinel). *)
Definition header_at (s : heap) (a : Z) : Prop :=
  is_Some (pxNextFreeBlock s !! a) ∨ is_Some (xBlockSize s !! a).

(** The places for a header: the two sentinels, and the addresses of the
    arena that are a multiple of the size of a header and leave room for
    one. *)
Definition header_slot (cfg : Config) (a : Z) : Prop :=
  a = addr_xStart cfg ∨ a = addr_xEnd cfg
  ∨ (a mod sizeof_BlockLink_t = 0
     ∧ pucAlignedHeap cfg ≤ a
     ∧ a + sizeof_BlockLink_t ≤ pucAlignedHeap cfg + configADJUSTED_HEAP_SIZE cfg).

(** The size word of a header lies 4 bytes above its address. *)
#[global] Instance size_word_inj : Inj (=) (=) (λ a : Z, a + 4).
Proof. intros a b. lia. Qed.

(** The memory as the program has it, word by word: the link of a header
    at [a] is the word at [a], its size the word at [a + 4]. *)
Definition words (s : heap) : gmap Z Z :=
  pxNextFreeBlock s ∪ kmap (λ a : Z, a + 4) (xBlockSize s).

(** No two headers of the state share a word. *)
Definition headers_apart (s : heap) : Prop :=
  ∀ a b, header_at s a → header_at s b →
    a = b ∨ a + sizeof_BlockLink_t ≤ b ∨ b + sizeof_BlockLink_t ≤ a.

(** ** The state in words

    The memory a state of the first part stands for, with the counter and
    the flag. *)
Definition to_words (s : heap) : Words.heap :=
  {| Words.word := words s;
     Words.xFreeBytesRemaining := xFreeBytesRemaining s;
     Words.xHeapHasBeenInitialised := xHeapHasBeenInitialised s |}.

(** The headers of the state are at addresses of [P]. *)
Definition headers_in (P : Z → Prop) (s : heap) : Prop := ∀ a, header_at s a → P a.

(** ** The blocks handed out

    The block behind a pointer [pv] that [pvPortMalloc] returned, found as
    [vPortFree] finds it: the header lies [heapSTRUCT_SIZE] bytes below the
    pointer and holds the size. *)
Definition block_of (cfg : Config) (s : heap) (pv : Z) : option blk :=
  sz ← recorded_size cfg s pv;
  Some (wrap (pv - heapSTRUCT_SIZE cfg), sz).

Definition live_blocks (cfg : Config) (s : heap) (L : list Z) : option (list blk) :=
  mapM (block_of cfg s) L.

(** ** Call sequences that respect the interface

    [run_calls] with the pointers handed out and not yet freed: a [Free] of a
    non-null pointer that is not one of them stops the run. *)
Fixpoint run_live (cfg : Config) (fuel : nat) (cs : list call) (s : heap)
    (ptrs L : list Z) : option (heap * list Z * list Z) :=
  match cs with
  | [] => Some (s, ptrs, L)
  | Malloc n :: cs =>
    r ← pvPortMalloc cfg fuel s n;
    run_live cfg fuel cs r.1 (ptrs ++ [r.2]) (if decide (r.2 = NULL) then L else r.2 :: L)
  | Free i :: cs =>
    p ← ptrs !! i;
    if decide (p = NULL) then
      s' ← vPortFree cfg fuel s p;
      run_live cfg fuel cs s' ptrs L
    else
      j ← fst <$> list_find (λ q, q = p) L;
      s' ← vPortFree cfg fuel s p;
      run_live cfg fuel cs s' ptrs (delete j L)
  end.

(** The state of the lab configuration after the calls [cs], with the
    pointers returned and the pointers still live. *)
Definition lab_state (merge : Z) (cs : list call) : heap * list Z * list Z :=
  default (initial_heap (lab_cfg merge), [], [])
    (run_live (lab_cfg merge) 8 cs (initial_heap (lab_cfg merge)) [] []).

(** Lab states: two blocks handed out (24 bytes at offset 0, 112 bytes at
    offset 24); the same with a third block of 40 bytes and the first one
    freed; a live block of 112 bytes between two free blocks, the right one
    first in the list, then the left one first. *)
Definition lab_two (merge : Z) : heap :=
  (lab_state merge [Malloc 16; Malloc 100]).1.1.

Definition lab_gap : heap :=
  (lab_state 1 [Malloc 16; Malloc 100; Malloc 30; Free 0]).1.1.

Definition lab_right_first : heap :=
  (lab_state 1 [Malloc 200; Malloc 100; Malloc 50; Malloc 10; Free 0; Free 2]).1.1.

Definition lab_left_first : heap :=
  (lab_state 1 [Malloc 50; Malloc 100; Malloc 200; Malloc 10; Free 0; Free 2]).1.1.

(** ** The rows of [vPrintFreeList] as they should read *)
Section RowsExpected.

Variable itoa : Z → Z → string.
Variable cfg : Config.

(** [n] spaces. *)
Fixpoint spaces (n : nat) : string :=
  match n with
  | O => EmptyString
  | S n => " " +:+ spaces n
  end.

(** The row of a free block as it should read: start address, header size,
    block size right-aligned in five columns, end address. *)
Definition row_of (c : blk) : string :=
  "0x" +:+ itoa c.1 16 +:+ spaces 9
  +:+ itoa (heapSTRUCT_SIZE cfg) 10 +:+ spaces 10
  +:+ spaces (5 - String.length (itoa c.2 10)) +:+ itoa c.2 10 +:+ spaces 5
  +:+ "0x" +:+ itoa (wrap (c.1 + c.2)) 16 +:+ newline.

(** The digits [itoa] writes for the block fit the arrays they go to. *)
Definition digits_fit (c : blk) : Prop :=
  (String.length (itoa c.1 16) < 20)%nat
  ∧ (String.length (itoa c.2 10) < 10)%nat
  ∧ (String.length (itoa (wrap (c.1 + c.2)) 16) < 20)%nat.

End RowsExpected.

(** The digits of a non-negative [value] in [base], most significant first,
    with letters in lower case: what [itoa] writes for the values of the
    examples. *)
Definition digit_char (d : Z) : Ascii.ascii :=
  Ascii.ascii_of_N (Z.to_N (if decide (d < 10) then 48 + d else 87 + d)).

Fixpoint digits_from (fuel : nat) (value base : Z) (acc : string) : string :=
  match fuel with
  | O => acc
  | S fuel =>
    let acc := String (digit_char (value mod base)) acc in
    if decide (value / base = 0) then acc else digits_from fuel (value / base) base acc
  end.

Definition itoa_digits (value base : Z) : string := digits_from 32 value base EmptyString.

(** * Lemmas

    The three loops against their list counterparts, the layout and the
    invariant, and what every reachable state satisfies. *)

(** Reading a field back after the updates above. *)
Ltac fields :=
  cbn [pxNextFreeBlock xBlockSize xFreeBytesRemaining xHeapHasBeenInitialised
       set_next set_size set_free set_init];
  repeat first [ rewrite lookup_insert_eq
               | rewrite lookup_insert_ne by (done || congruence) ].

(** ** Chains *)
Section Chain.

Variable cfg : Config.

Lemma chain_not_end s p l : chain cfg s p l → addr_xEnd cfg ∉ l.*1.
Proof.
  revert p; induction l as [|c l IH]; simpl; intros p Hc.
  - apply not_elem_of_nil.
  - destruct Hc as (-> & Hne & _ & q & _ & Hq).
    apply not_elem_of_cons; split; [congruence | eauto].
Qed.

(** A chain only depends on the fields of its own nodes. *)
Lemma chain_ext s s' p l :
  (∀ a, a ∈ l.*1 → pxNextFreeBlock s' !! a = pxNextFreeBlock s !! a
                   ∧ xBlockSize s' !! a = xBlockSize s !! a) →
  chain cfg s p l → chain cfg s' p l.
Proof.
  revert p; induction l as [|c l IH]; simpl; intros p Hagree Hc; [done|].
  destruct Hc as (-> & Hne & Hsz & q & Hq & Hl).
  destruct (Hagree c.1) as [Hn Hs]; [apply elem_of_cons; by left|].
  repeat split; [done | by rewrite Hs |].
  exists q; split; [by rewrite Hn|].
  apply IH; [|done]. intros a Ha. apply Hagree, elem_of_cons; by right.
Qed.

Lemma chain_det s p l1 l2 : chain cfg s p l1 → chain cfg s p l2 → l1 = l2.
Proof.
  revert p l2; induction l1 as [|c l1 IH]; intros p [|d l2]; simpl; try done.
  - intros -> (-> & Hne & _); done.
  - intros (-> & Hne & _) Heq; congruence.
  - intros (-> & _ & Hs1 & q1 & Hq1 & H1) (Hd & _ & Hs2 & q2 & Hq2 & H2).
    rewrite Hd in Hs1, Hq1. simplify_eq.
    f_equal; [destruct c, d; simpl in *; congruence | eauto].
Qed.

(** The free list does not depend on the counter or the flag. *)
Lemma free_list_same_fields s s' l :
  pxNextFreeBlock s' = pxNextFreeBlock s → xBlockSize s' = xBlockSize s →
  free_list cfg s l → free_list cfg s' l.
Proof.
  intros Hn Hs (p & Hp & Hc). exists p. rewrite Hn. split; [done|].
  eapply chain_ext; [|exact Hc]. intros a _. by rewrite Hn, Hs.
Qed.

(** A chain that reaches [&xEnd] visits no node twice. *)
Lemma chain_suffix s l : ∀ p a,
  chain cfg s p l → a ∈ l.*1 → ∃ l', chain cfg s a l' ∧ (length l' ≤ length l)%nat.
Proof.
  induction l as [|d l IH]; simpl; intros p a Hc Ha; [by apply elem_of_nil in Ha|].
  destruct Hc as (-> & Hne & Hsz & q & Hq & Hl).
  apply elem_of_cons in Ha as [->|Ha].
  - exists (d :: l). simpl. split; [eauto 10 | lia].
  - destruct (IH q a Hl Ha) as (l' & Hl' & Hlen). exists l'. split; [done|lia].
Qed.

Lemma chain_NoDup s l : ∀ p, chain cfg s p l → NoDup l.*1.
Proof.
  induction l as [|c l IH]; simpl; intros p Hc; [apply NoDup_nil_2|].
  destruct Hc as (-> & Hne & Hsz & q & Hq & Hl).
  apply NoDup_cons. split; [|eauto].
  intros Hin. destruct (chain_suffix s l q c.1 Hl Hin) as (l' & Hl' & Hlen).
  destruct l' as [|d l']; simpl in Hl'; [done|].
  destruct Hl' as (Hd & _ & _ & q' & Hq' & Hl').
  rewrite <- Hd, Hq in Hq'. simplify_eq.
  pose proof (chain_det s q' l l' Hl Hl'). subst l. simpl in Hlen. lia.
Qed.

(** The executable walk computes the chain. *)
Lemma free_list_from_chain s l : ∀ p fuel,
  chain cfg s p l → (length l < fuel)%nat → free_list_from cfg fuel s p = Some l.
Proof.
  induction l as [|c l IH]; simpl; intros p fuel Hc Hf.
  - destruct fuel; [lia|]. simpl. by rewrite decide_True.
  - destruct Hc as (-> & Hne & Hsz & q & Hq & Hl).
    destruct fuel; [lia|]. simpl. rewrite decide_False by done.
    rewrite Hsz, Hq. simpl. rewrite (IH q fuel) by (done || lia).
    simpl. by destruct c.
Qed.

Lemma chain_free_list_from s : ∀ fuel p l,
  free_list_from cfg fuel s p = Some l → chain cfg s p l.
Proof.
  induction fuel as [|fuel IH]; simpl; intros p l H; [done|].
  destruct (decide (p = addr_xEnd cfg)) as [->|Hne]; [by simplify_eq|].
  destruct (xBlockSize s !! p) as [sz|] eqn:Hsz; [|done]. simpl in H.
  destruct (pxNextFreeBlock s !! p) as [q|] eqn:Hq; [|done]. simpl in H.
  destruct (free_list_from cfg fuel s q) as [l'|] eqn:Hl; [|done]. simpl in H.
  simplify_eq. simpl. eauto 10.
Qed.

End Chain.

(** ** The loops and their list counterparts *)
Section Engine.

Variable cfg : Config.

(** The merge pass: the nodes left linked are [merge_keep], the final
    [pxBlockPtr] and its recorded size are [merge_block], and the header the
    pass started from holds [merge_own]. *)
Lemma merge_loop_spec xs xe bsz l : ∀ fuel s ptr psz prev cur,
  (length l < fuel)%nat →
  chain cfg s cur l → NoDup l.*1 → prev ∉ l.*1 → ptr ∉ l.*1 →
  pxNextFreeBlock s !! prev = Some cur →
  xBlockSize s !! ptr = Some psz →
  let p := merge_block xs xe bsz (ptr, psz) l in
  ∃ s', merge_loop cfg fuel xs xe bsz s ptr prev cur = Some (s', p.1)
    ∧ (∃ q, pxNextFreeBlock s' !! prev = Some q ∧ chain cfg s' q (merge_keep xs xe l))
    ∧ xBlockSize s' !! p.1 = Some p.2
    ∧ xBlockSize s' !! ptr = Some (merge_own xs xe psz l)
    ∧ (∀ a, a ≠ prev → a ∉ l.*1 → pxNextFreeBlock s' !! a = pxNextFreeBlock s !! a)
    ∧ (∀ a, a ≠ ptr → a ∉ l.*1 → xBlockSize s' !! a = xBlockSize s !! a)
    ∧ xFreeBytesRemaining s' = xFreeBytesRemaining s
    ∧ xHeapHasBeenInitialised s' = xHeapHasBeenInitialised s.
Proof.
  induction l as [|c l IH]; intros fuel s ptr psz prev cur Hf Hc Hnd Hprev Hptr Hpn Hps;
    (destruct fuel as [|fuel]; [simpl in Hf; lia|]); simpl in Hc, Hf; simpl.
  - subst cur. rewrite decide_True by done.
    exists s. split_and!; eauto.
  - destruct Hc as (-> & Hne & Hsz & q & Hq & Hl).
    rewrite fmap_cons in Hnd, Hprev, Hptr.
    apply NoDup_cons in Hnd as [Hcl Hnd].
    apply not_elem_of_cons in Hprev as [Hpc Hprev].
    apply not_elem_of_cons in Hptr as [Htc Hptr].
    rewrite decide_False by done. rewrite Hsz. simpl.
    unfold merge_keep. rewrite filter_cons.
    destruct (decide (not_adjacent xs xe c)) as [Hk|Hk].
    + rewrite decide_True by exact Hk. rewrite Hq. simpl.
      destruct (IH fuel s ptr psz c.1 q)
        as (s' & Hrun & (q' & Hq' & Hch) & Hfin & Hown & Hfn & Hfs & Hfree & Hinit);
        [lia|done..|].
      exists s'. split_and!; [done| |done|done| | |done|done].
      * exists c.1. split; [rewrite Hfn; done|]. simpl.
        split_and!; [done | done | rewrite Hfs; done |]. eauto.
      * intros a Ha [? ?]%not_elem_of_cons. by apply Hfn.
      * intros a Ha [? ?]%not_elem_of_cons. by apply Hfs.
    + rewrite decide_False by exact Hk.
      destruct (decide (xs = wrap (c.1 + c.2))) as [Hleft|Hleft].
      * simpl. rewrite Hq. simpl. rewrite lookup_insert_ne by done. rewrite Hq. simpl.
        set (s2 := set_next prev q (set_size c.1 (wrap (c.2 + bsz)) s)).
        destruct (IH fuel s2 c.1 (wrap (c.2 + bsz)) prev q)
          as (s' & Hrun & (q' & Hq' & Hch) & Hfin & Hown & Hfn & Hfs & Hfree & Hinit);
          [lia| |done|done|done| | |].
        { eapply chain_ext; [|exact Hl]. intros a Ha. simpl.
          rewrite !lookup_insert_ne by (intros ?; subst a; done). done. }
        { simpl. by rewrite lookup_insert_eq. }
        { simpl. by rewrite lookup_insert_eq. }
        exists s'. split_and!; [done|eauto|done| | | |done|done].
        -- rewrite Hfs by done. simpl. by rewrite lookup_insert_ne.
        -- intros a Ha [? ?]%not_elem_of_cons.
           rewrite Hfn by done. simpl. by rewrite lookup_insert_ne.
        -- intros a Ha [? ?]%not_elem_of_cons.
           rewrite Hfs by done. simpl. by rewrite lookup_insert_ne.
      * assert (xe = c.1) as Hright.
        { unfold not_adjacent in Hk. destruct (decide (xe = c.1)); [done|]. tauto. }
        rewrite decide_True by done. rewrite Hps. simpl.
        rewrite Hq. simpl. rewrite lookup_insert_ne by done. rewrite Hq. simpl.
        set (s2 := set_next prev q (set_size ptr (wrap (psz + c.2)) s)).
        destruct (IH fuel s2 ptr (wrap (psz + c.2)) prev q)
          as (s' & Hrun & (q' & Hq' & Hch) & Hfin & Hown & Hfn & Hfs & Hfree & Hinit);
          [lia| |done|done|done| | |].
        { eapply chain_ext; [|exact Hl]. intros a Ha. simpl.
          rewrite !lookup_insert_ne by (intros ?; subst a; done). done. }
        { simpl. by rewrite lookup_insert_eq. }
        { simpl. by rewrite lookup_insert_eq. }
        exists s'. split_and!; [done|eauto|done|done| | |done|done].
        -- intros a Ha [? ?]%not_elem_of_cons.
           rewrite Hfn by done. simpl. by rewrite lookup_insert_ne.
        -- intros a Ha [? ?]%not_elem_of_cons.
           rewrite Hfs by done. simpl. by rewrite lookup_insert_ne.
Qed.

Lemma insert_loop_spec b U l : ∀ fuel s it q,
  (length l < fuel)%nat →
  chain cfg s q l → pxNextFreeBlock s !! it = Some q →
  xBlockSize s !! addr_xEnd cfg = Some U → b.2 ≤ U →
  it ∉ l.*1 → b.1 ∉ l.*1 → b.1 ≠ it → b.1 ≠ addr_xEnd cfg →
  xBlockSize s !! b.1 = Some b.2 →
  ∃ it' nx, insert_loop fuel b.2 s it = Some it'
    ∧ pxNextFreeBlock s !! it' = Some nx
    ∧ (it' = it ∨ it' ∈ l.*1)
    ∧ ∃ q', pxNextFreeBlock (set_next it' b.1 (set_next b.1 nx s)) !! it = Some q'
          ∧ chain cfg (set_next it' b.1 (set_next b.1 nx s)) q' (insert_block b l).
Proof.
  induction l as [|c l IH]; intros fuel s it q Hf Hc Hit HU Hle Hitl Hbl Hbit Hbe Hbs;
    (destruct fuel as [|fuel]; [simpl in Hf; lia|]); simpl in Hc, Hf; simpl.
  - subst q. rewrite Hit. simpl. rewrite HU. simpl.
    rewrite decide_False by lia.
    exists it, (addr_xEnd cfg). repeat split; [done | by left |].
    exists b.1. rewrite lookup_insert_eq. split; [done|].
    repeat split; [done | done |].
    exists (addr_xEnd cfg). rewrite lookup_insert_ne by done.
    by rewrite lookup_insert_eq.
  - destruct Hc as (-> & Hne & Hsz & q2 & Hq & Hl).
    rewrite fmap_cons in Hitl, Hbl.
    apply not_elem_of_cons in Hitl as [Hic Hitl].
    apply not_elem_of_cons in Hbl as [Hbc Hbl].
    rewrite Hit. simpl. rewrite Hsz. simpl.
    destruct (decide (c.2 < b.2)) as [Hlt|Hge].
    + assert (c.1 ∉ l.*1) as Hnin.
      { pose proof (chain_NoDup cfg s (c :: l) c.1) as Hnd. simpl in Hnd.
        eapply NoDup_cons_1_1, Hnd. eauto 10. }
      destruct (IH fuel s c.1 q2) as (it' & nx & Hrun & Hnx & Hwhere & q' & Hq' & Hch);
          [lia|done..|].
        exists it', nx. repeat split; [done | done | |].
        { right. simpl. apply elem_of_cons.
          destruct Hwhere as [->|?]; [by left | by right]. }
        exists c.1. simpl. split.
        { rewrite !lookup_insert_ne; [done | congruence |].
          destruct Hwhere as [->|?]; [congruence | intros ->; done]. }
        repeat split; [done | done |]. eauto.
    + exists it, c.1. repeat split; [done | by left |].
      exists b.1. rewrite lookup_insert_eq. split; [done|].
      repeat split; [done | done |].
      exists c.1. fields.
      split; [done|]. simpl. repeat split; [done | done |].
      exists q2. fields. split; [done|].
      eapply chain_ext; [|exact Hl]. intros a Ha. simpl.
      rewrite !lookup_insert_ne by (intros ?; subst a; done). done.
Qed.

(** The search of [pvPortMalloc]: either every free block is too small and
    the loop stops on [xEnd], or it stops on the first block that is large
    enough, with [pxPreviousBlock] its predecessor, so that the assignment of
    line 217 unlinks it. *)
Lemma search_loop_spec W U l : ∀ fuel s prev q,
  (length l < fuel)%nat →
  chain cfg s q l → pxNextFreeBlock s !! prev = Some q →
  xBlockSize s !! addr_xEnd cfg = Some U → W ≤ U →
  Forall (λ c : blk, c.1 ≠ NULL) l → addr_xEnd cfg ≠ NULL → prev ∉ l.*1 →
  (Forall (λ c : blk, c.2 < W) l
   ∧ ∃ prev', search_loop fuel W s prev q = Some (prev', addr_xEnd cfg))
  ∨ (∃ l1 b l2 prev' nx,
       l = l1 ++ b :: l2 ∧ Forall (λ c : blk, c.2 < W) l1 ∧ W ≤ b.2
       ∧ search_loop fuel W s prev q = Some (prev', b.1)
       ∧ pxNextFreeBlock s !! prev' = Some b.1
       ∧ pxNextFreeBlock s !! b.1 = Some nx
       ∧ (prev' = prev ∨ prev' ∈ l1.*1)
       ∧ ∃ q', pxNextFreeBlock (set_next prev' nx s) !! prev = Some q'
             ∧ chain cfg (set_next prev' nx s) q' (l1 ++ l2)).
Proof.
  induction l as [|c l IH]; intros fuel s prev q Hf Hc Hprev HU HW Hnn Hen Hpl;
    (destruct fuel as [|fuel]; [simpl in Hf; lia|]); simpl in Hc, Hf; simpl.
  - subst q. left. split; [done|]. rewrite HU. simpl.
    rewrite decide_False by lia. eauto.
  - destruct Hc as (-> & Hne & Hsz & q2 & Hq & Hl).
    pose proof (chain_NoDup cfg s (c :: l) c.1) as Hnd. simpl in Hnd.
    assert (c.1 ∉ l.*1) as Hcl by (eapply NoDup_cons_1_1, Hnd; eauto 10).
    rewrite fmap_cons in Hpl. apply not_elem_of_cons in Hpl as [Hpc Hpl].
    apply Forall_cons in Hnn as [Hcn Hnn].
    rewrite Hsz. simpl.
    destruct (decide (c.2 < W)) as [Hlt|Hge].
    + rewrite Hq. simpl.
      assert (q2 ≠ NULL) as Hq2.
      { destruct l as [|d l]; simpl in Hl; [congruence|].
        destruct Hl as (-> & _). by apply Forall_cons in Hnn as [? _]. }
      rewrite decide_True by done.
      destruct (IH fuel s c.1 q2) as [[Hall [prev' Hrun]]|Hfound]; [lia|done..| |].
      * left. split; [by apply Forall_cons|eauto].
      * destruct Hfound as (l1 & b & l2 & prev' & nx & -> & Hl1 & Hb & Hrun & Hp' & Hnx & Hwhere & q' & Hq' & Hch).
        right. exists (c :: l1), b, l2, prev', nx.
        split_and!; [done | by apply Forall_cons | done | done | done | done | |].
        { right. simpl. apply elem_of_cons. destruct Hwhere as [->|?]; [by left|by right]. }
        exists c.1. split.
        { fields. rewrite lookup_insert_ne; [done|].
          destruct Hwhere as [->|Hin]; [congruence|]. intros ->.
          apply Hpl. rewrite fmap_app. apply elem_of_app. by left. }
        simpl. split_and!; [done..|]. eauto.
    + right. exists [], c, l, prev, q2.
      split_and!; [done | done | lia | done | done | done | by left |].
      exists q2. fields. split; [done|].
      eapply chain_ext; [|exact Hl]. intros a Ha. fields.
      rewrite lookup_insert_ne by (intros ?; subst a; done). done.
Qed.

(** More fuel never changes a result. *)
Lemma merge_loop_mono xs xe bsz : ∀ fuel fuel' s ptr prev cur r,
  (fuel ≤ fuel')%nat →
  merge_loop cfg fuel xs xe bsz s ptr prev cur = Some r →
  merge_loop cfg fuel' xs xe bsz s ptr prev cur = Some r.
Proof.
  induction fuel as [|fuel IH]; intros fuel' s ptr prev cur r Hle H; [done|].
  destruct fuel' as [|fuel']; [lia|]. simpl in *.
  repeat case_decide; simplify_option_eq; eauto with lia.
Qed.

Lemma insert_loop_mono x s : ∀ fuel fuel' it r,
  (fuel ≤ fuel')%nat →
  insert_loop fuel x s it = Some r → insert_loop fuel' x s it = Some r.
Proof.
  induction fuel as [|fuel IH]; intros fuel' it r Hle H; [done|].
  destruct fuel' as [|fuel']; [lia|]. simpl in *.
  repeat case_decide; simplify_option_eq; eauto with lia.
Qed.

Lemma search_loop_mono W s : ∀ fuel fuel' prev blk r,
  (fuel ≤ fuel')%nat →
  search_loop fuel W s prev blk = Some r → search_loop fuel' W s prev blk = Some r.
Proof.
  induction fuel as [|fuel IH]; intros fuel' prev blk r Hle H; [done|].
  destruct fuel' as [|fuel']; [lia|]. simpl in *.
  repeat case_decide; simplify_option_eq; eauto with lia.
Qed.

Ltac more_fuel Hle :=
  repeat first
    [ progress simplify_option_eq
    | case_decide
    | match goal with
      | x : (_ * _)%type |- _ => destruct x
      | H : merge_loop _ _ _ _ _ _ _ _ _ = Some _ |- _ =>
          rewrite (merge_loop_mono _ _ _ _ _ _ _ _ _ _ Hle H); clear H; simpl
      | H : insert_loop _ _ _ _ = Some _ |- _ =>
          rewrite (insert_loop_mono _ _ _ _ _ _ Hle H); clear H; simpl
      | H : search_loop _ _ _ _ _ = Some _ |- _ =>
          rewrite (search_loop_mono _ _ _ _ _ _ _ Hle H); clear H; simpl
      end ].

Lemma prvInsertBlockIntoFreeList_mono fuel fuel' s p r :
  (fuel ≤ fuel')%nat →
  prvInsertBlockIntoFreeList cfg fuel s p = Some r →
  prvInsertBlockIntoFreeList cfg fuel' s p = Some r.
Proof.
  intros Hle H. unfold prvInsertBlockIntoFreeList in *. by more_fuel Hle.
Qed.

Lemma pvPortMalloc_mono fuel fuel' s n r :
  (fuel ≤ fuel')%nat →
  pvPortMalloc cfg fuel s n = Some r → pvPortMalloc cfg fuel' s n = Some r.
Proof.
  intros Hle H. unfold pvPortMalloc in *.
  repeat first
    [ progress simplify_option_eq
    | case_decide
    | match goal with
      | x : (_ * _)%type |- _ => destruct x
      | H : search_loop _ _ _ _ _ = Some _ |- _ =>
          rewrite (search_loop_mono _ _ _ _ _ _ _ Hle H); clear H; simpl
      | H : prvInsertBlockIntoFreeList _ _ _ _ = Some _ |- _ =>
          rewrite (prvInsertBlockIntoFreeList_mono _ _ _ _ _ Hle H); clear H; simpl
      end ]; done.
Qed.

Lemma vPortFree_mono fuel fuel' s p r :
  (fuel ≤ fuel')%nat →
  vPortFree cfg fuel s p = Some r → vPortFree cfg fuel' s p = Some r.
Proof.
  intros Hle H. unfold vPortFree in *.
  repeat first
    [ progress simplify_option_eq
    | case_decide
    | match goal with
      | H : prvInsertBlockIntoFreeList _ _ _ _ = Some _ |- _ =>
          rewrite (prvInsertBlockIntoFreeList_mono _ _ _ _ _ Hle H); clear H; simpl
      end ]; done.
Qed.

End Engine.

(** ** Insertion in order of size *)
Lemma elem_of_insert_block b l x : x ∈ insert_block b l ↔ x = b ∨ x ∈ l.
Proof.
  induction l as [|c l IH]; simpl.
  - rewrite list_elem_of_singleton, elem_of_nil. tauto.
  - case_decide; rewrite !elem_of_cons; [rewrite IH|]; tauto.
Qed.

Lemma insert_block_perm b l : insert_block b l ≡ₚ b :: l.
Proof.
  induction l as [|c l IH]; simpl; [done|].
  case_decide; [|done]. rewrite IH. apply Permutation_swap.
Qed.

Lemma sorted_insert_block b l : sorted_by_size l → sorted_by_size (insert_block b l).
Proof.
  unfold sorted_by_size. induction l as [|c l IH]; simpl; intros Hs.
  - apply StronglySorted_cons. split; [apply Forall_nil_2 | constructor].
  - apply StronglySorted_cons in Hs as [Hc Hs]. case_decide.
    + apply StronglySorted_cons. split; [|auto].
      rewrite Forall_forall in Hc |- *. intros x Hx.
      apply elem_of_insert_block in Hx as [->|Hx]; [unfold size_le; lia | auto].
    + apply StronglySorted_cons. split.
      * apply Forall_cons. split; [unfold size_le; lia|].
        eapply Forall_impl; [exact Hc|]. unfold size_le; simpl. intros; lia.
      * apply StronglySorted_cons. done.
Qed.

Lemma sorted_filter (P : blk → Prop) `{!∀ c, Decision (P c)} l :
  sorted_by_size l → sorted_by_size (filter P l).
Proof.
  unfold sorted_by_size. induction l as [|c l IH]; [done|].
  intros [Hc Hs]%StronglySorted_cons. rewrite filter_cons.
  case_decide; [|auto]. apply StronglySorted_cons. split; [|auto].
  rewrite Forall_forall in Hc |- *. intros x [_ Hx]%list_elem_of_filter. auto.
Qed.

Lemma sorted_remove l1 b l2 :
  sorted_by_size (l1 ++ b :: l2) → sorted_by_size (l1 ++ l2).
Proof.
  unfold sorted_by_size. rewrite !StronglySorted_app, StronglySorted_cons.
  intros (H12 & H1 & _ & H2). split_and!; [|done..].
  intros x1 x2 Hx1 Hx2. apply H12; [done|]. by apply elem_of_cons; right.
Qed.

(** ** Relations that hold between any two blocks of a list *)
Section Pairwise.

Variable R : blk → blk → Prop.

Lemma pairwise_app l1 l2 :
  pairwise R (l1 ++ l2) ↔
  pairwise R l1 ∧ pairwise R l2 ∧ ∀ c d, c ∈ l1 → d ∈ l2 → R c d.
Proof.
  induction l1 as [|x l1 IH]; simpl.
  - split; [intros; split_and!; [done..|] | tauto].
    intros c d Hc. by apply elem_of_nil in Hc.
  - rewrite IH, Forall_app, !Forall_forall. split.
    + intros ((Hx1 & Hx2) & H1 & H2 & H12). split_and!; [done..|].
      intros c d [->|Hc]%elem_of_cons Hd; auto.
    + intros ((Hx1 & H1) & H2 & H12). split_and!; [done| |done..|].
      * intros d Hd. apply H12; [apply elem_of_cons; by left | done].
      * intros c d Hc Hd. apply H12; [apply elem_of_cons; by right | done].
Qed.

Lemma pairwise_filter (P : blk → Prop) `{!∀ c, Decision (P c)} l :
  pairwise R l → pairwise R (filter P l).
Proof.
  induction l as [|c l IH]; [done|]. simpl. rewrite filter_cons.
  intros (Hcl & Hl). case_decide; [|auto]. simpl. split; [|auto].
  rewrite Forall_forall in Hcl |- *. intros x [_ Hx]%list_elem_of_filter. auto.
Qed.

Hypothesis Rsym : ∀ c d, R c d → R d c.

Lemma pairwise_perm l l' : l ≡ₚ l' → pairwise R l → pairwise R l'.
Proof.
  induction 1 as [|x l l' Hp IH|x y l|l l' l'' _ IH1 _ IH2]; simpl; [done| | |tauto].
  - intros [Hx Hl]. split; [by rewrite <- Hp | auto].
  - intros ([Hyx Hy]%Forall_cons & Hx & Hl). split_and!; [|done..].
    apply Forall_cons. split; [by apply Rsym | done].
Qed.

Lemma pairwise_elem l c d : pairwise R l → c ∈ l → d ∈ l → c ≠ d → R c d.
Proof.
  induction l as [|x l IH]; intros Hl Hc Hd Hne; [by apply elem_of_nil in Hc|].
  destruct Hl as [Hxl Hl]. rewrite Forall_forall in Hxl.
  apply elem_of_cons in Hc as [->|Hc]; apply elem_of_cons in Hd as [->|Hd]; auto.
  done.
Qed.

End Pairwise.

(** ** Layout of blocks in the arena *)
Section Layout.

Variable cfg : Config.
Hypothesis Hok : cfg_ok cfg = true.

Lemma wrap_small x : 0 ≤ x < 2 ^ 32 → wrap x = x.
Proof. intros. unfold wrap. by apply Z.mod_small. Qed.

Lemma wrap_range x : 0 ≤ wrap x < 2 ^ 32.
Proof. unfold wrap. apply Z.mod_pos_bound. lia. Qed.

Lemma cfg_facts :
  0 < pucAlignedHeap cfg
  ∧ 0 < configADJUSTED_HEAP_SIZE cfg < 2 ^ 32
  ∧ 0 < heapSTRUCT_SIZE cfg
  ∧ pucAlignedHeap cfg + configADJUSTED_HEAP_SIZE cfg + heapSTRUCT_SIZE cfg ≤ 2 ^ 32
  ∧ addr_xStart cfg ≠ addr_xEnd cfg
  ∧ addr_xStart cfg ≠ NULL ∧ addr_xEnd cfg ≠ NULL
  ∧ ¬ (pucAlignedHeap cfg ≤ addr_xStart cfg
        < pucAlignedHeap cfg + configADJUSTED_HEAP_SIZE cfg)
  ∧ ¬ (pucAlignedHeap cfg ≤ addr_xEnd cfg
        < pucAlignedHeap cfg + configADJUSTED_HEAP_SIZE cfg).
Proof.
  pose proof Hok as H. unfold cfg_ok in H. apply bool_decide_eq_true in H.
  pose proof (wrap_range (configTOTAL_HEAP_SIZE cfg - portBYTE_ALIGNMENT cfg)).
  unfold configADJUSTED_HEAP_SIZE at 2. tauto.
Qed.

(** The alignment is not less than a header and a power of two, the arena
    holds a header, and the sentinels are objects of their own. *)
Lemma cfg_headers :
  sizeof_BlockLink_t ≤ portBYTE_ALIGNMENT cfg
  ∧ portBYTE_ALIGNMENT cfg = 2 ^ Z.log2 (portBYTE_ALIGNMENT cfg)
  ∧ portBYTE_ALIGNMENT_MASK cfg = portBYTE_ALIGNMENT cfg - 1
  ∧ sizeof_BlockLink_t ≤ configADJUSTED_HEAP_SIZE cfg
  ∧ (addr_xStart cfg + sizeof_BlockLink_t ≤ addr_xEnd cfg
     ∨ addr_xEnd cfg + sizeof_BlockLink_t ≤ addr_xStart cfg)
  ∧ (addr_xStart cfg + sizeof_BlockLink_t ≤ pucAlignedHeap cfg
     ∨ pucAlignedHeap cfg + configADJUSTED_HEAP_SIZE cfg ≤ addr_xStart cfg)
  ∧ (addr_xEnd cfg + sizeof_BlockLink_t ≤ pucAlignedHeap cfg
     ∨ pucAlignedHeap cfg + configADJUSTED_HEAP_SIZE cfg ≤ addr_xEnd cfg).
Proof.
  pose proof Hok as H. unfold cfg_ok in H. apply bool_decide_eq_true in H. tauto.
Qed.

(** The alignment is positive and the mask one less. *)
Lemma cfg_alignment :
  portBYTE_ALIGNMENT_MASK cfg = portBYTE_ALIGNMENT cfg - 1 ∧ 0 < portBYTE_ALIGNMENT cfg.
Proof.
  destruct cfg_headers as (H8 & _ & Hmask & _). unfold sizeof_BlockLink_t in H8.
  split; [done | lia].
Qed.

Lemma apart_sym c d : apart c d → apart d c.
Proof. unfold apart. lia. Qed.

Lemma layout_perm l l' : l ≡ₚ l' → layout cfg l → layout cfg l'.
Proof.
  intros Hp [Hin Hpw]. split; [by rewrite <- Hp|].
  eapply pairwise_perm; [apply apart_sym | exact Hp | exact Hpw].
Qed.

Lemma layout_cons c l : layout cfg (c :: l) ↔ inside cfg c ∧ Forall (apart c) l ∧ layout cfg l.
Proof. unfold layout. simpl. rewrite Forall_cons. tauto. Qed.

Lemma layout_app l1 l2 :
  layout cfg (l1 ++ l2) ↔ layout cfg l1 ∧ layout cfg l2 ∧ ∀ c d, c ∈ l1 → d ∈ l2 → apart c d.
Proof. unfold layout. rewrite Forall_app, (pairwise_app apart). tauto. Qed.

Lemma layout_filter (P : blk → Prop) `{!∀ c, Decision (P c)} l :
  layout cfg l → layout cfg (filter P l).
Proof.
  induction l as [|c l IH]; [done|]. rewrite layout_cons, filter_cons.
  intros (Hc & Hcl & Hl). case_decide; [|auto].
  apply layout_cons. split_and!; [done| |auto].
  rewrite Forall_forall in Hcl |- *. intros x [_ Hx]%list_elem_of_filter. auto.
Qed.

(** Distinct blocks of a layout start at distinct addresses. *)
Lemma layout_addr_notin c l : layout cfg (c :: l) → c.1 ∉ l.*1.
Proof.
  rewrite layout_cons. intros (Hc & Hcl & [Hl _]) Hin.
  apply list_elem_of_fmap in Hin as (d & Heq & Hd).
  rewrite Forall_forall in Hcl, Hl.
  specialize (Hcl d Hd). specialize (Hl d Hd).
  unfold apart, inside in *. lia.
Qed.

Lemma layout_inside c l : layout cfg l → c ∈ l → inside cfg c.
Proof. intros [Hl _]. rewrite Forall_forall in Hl. auto. Qed.

(** Sentinels are not blocks of the arena. *)
Lemma inside_not_sentinel c :
  inside cfg c → c.1 ≠ addr_xStart cfg ∧ c.1 ≠ addr_xEnd cfg ∧ c.1 ≠ NULL.
Proof.
  pose proof cfg_facts. unfold inside, NULL in *. intros. split_and!; intros Heq; rewrite Heq in *; lia.
Qed.

Lemma layout_not_sentinel l :
  layout cfg l →
  (addr_xStart cfg ∉ l.*1) ∧ (addr_xEnd cfg ∉ l.*1) ∧ Forall (λ c : blk, c.1 ≠ NULL) l.
Proof.
  intros [Hl _]. rewrite Forall_forall in Hl. split_and!.
  - intros (d & Heq & Hd)%list_elem_of_fmap.
    destruct (inside_not_sentinel d); auto.
  - intros (d & Heq & Hd)%list_elem_of_fmap.
    destruct (inside_not_sentinel d) as (? & ? & ?); auto.
  - apply Forall_forall. intros d Hd. by apply inside_not_sentinel, Hl.
Qed.

(** The merge pass keeps the layout.  The block under construction stays
    inside the arena and away from every block [Q] that is away from the
    inserted block and from the nodes the pass unlinks. *)
Lemma merge_block_safe (b : blk) (Q : blk → Prop) :
  inside cfg b →
  (∀ c, Q c → inside cfg c ∧ apart c b) →
  ∀ l ptr,
    Forall (inside cfg) l → NoDup l.*1 →
    (∀ d, d ∈ l → ¬ not_adjacent b.1 (b.1 + b.2) d → ∀ c, Q c → apart c d) →
    inside cfg ptr → (∀ c, Q c → apart c ptr) →
    (ptr.1 + ptr.2 = b.1 + b.2 ∨ (b.1 + b.2) ∉ l.*1) →
    inside cfg (merge_block b.1 (b.1 + b.2) b.2 ptr l)
    ∧ ∀ c, Q c → apart c (merge_block b.1 (b.1 + b.2) b.2 ptr l).
Proof.
  intros Hb HQ. pose proof cfg_facts as (HH & HU & Hh & Htop & _).
  induction l as [|d l IH]; intros ptr Hl Hnd Hrem Hptr Hpa Hend; simpl; [done|].
  apply Forall_cons in Hl as [Hd Hl]. rewrite fmap_cons in Hnd, Hend.
  apply NoDup_cons in Hnd as [Hdl Hnd].
  assert (∀ d', d' ∈ l → ¬ not_adjacent b.1 (b.1 + b.2) d' → ∀ c, Q c → apart c d') as Hrem'.
  { intros d' Hd'. apply Hrem, elem_of_cons. by right. }
  assert (wrap (d.1 + d.2) = d.1 + d.2) as Hwd.
  { unfold inside in Hd. apply wrap_small. lia. }
  destruct (decide (not_adjacent b.1 (b.1 + b.2) d)) as [Hk|Hk].
  - apply IH; [done..|]. destruct Hend as [?|Hend]; [by left|right].
    apply not_elem_of_cons in Hend. tauto.
  - assert (∀ c, Q c → apart c d) as Hcd.
    { apply Hrem; [apply elem_of_cons; by left | done]. }
    rewrite Hwd. destruct (decide (b.1 = d.1 + d.2)) as [Hleft|Hleft].
    + assert (wrap (d.2 + b.2) = d.2 + b.2) as ->.
      { unfold inside in Hb, Hd. apply wrap_small. lia. }
      apply IH; [done..| | |].
      * unfold inside in *. simpl. lia.
      * intros c Hc. destruct (HQ c Hc) as [Hci Hcb]. specialize (Hcd c Hc).
        unfold apart, inside in *. simpl. lia.
      * left. simpl. lia.
    + assert (b.1 + b.2 = d.1) as Hright.
      { unfold not_adjacent in Hk. rewrite Hwd in Hk.
        destruct (decide (b.1 + b.2 = d.1)); [done|]. tauto. }
      destruct Hend as [Hend|Hend]; [|exfalso; apply Hend, elem_of_cons; by left].
      assert (wrap (ptr.2 + d.2) = ptr.2 + d.2) as ->.
      { unfold inside in Hptr, Hd. apply wrap_small. lia. }
      apply IH; [done..| | |].
      * unfold inside in *. simpl. lia.
      * intros c Hc. destruct (HQ c Hc) as [Hci Hcb]. specialize (Hcd c Hc).
        specialize (Hpa c Hc). unfold apart, inside in *. simpl. lia.
      * right. by rewrite Hright.
Qed.

Lemma layout_NoDup l : layout cfg l → NoDup l.*1.
Proof.
  induction l as [|c l IH]; intros Hl; [apply NoDup_nil_2|].
  rewrite fmap_cons. apply NoDup_cons. split; [by apply layout_addr_notin|].
  apply IH. apply layout_cons in Hl. tauto.
Qed.

Lemma layout_elem_apart l c d : layout cfg l → c ∈ l → d ∈ l → c ≠ d → apart c d.
Proof. intros [_ Hl]. by apply pairwise_elem. Qed.

Lemma merge_layout b l O :
  layout cfg (b :: l ++ O) →
  layout cfg (merge_block b.1 (b.1 + b.2) b.2 b l :: merge_keep b.1 (b.1 + b.2) l ++ O).
Proof.
  intros Hall. pose proof Hall as (Hb & Hbl & Hlo)%layout_cons.
  pose proof Hlo as (Hl & HO & HlO)%layout_app.
  rewrite Forall_forall in Hbl.
  destruct (merge_block_safe b (λ c, c ∈ merge_keep b.1 (b.1 + b.2) l ++ O) Hb) with (l := l) (ptr := b)
    as [Hin Hap].
  - intros c [[_ Hc]%list_elem_of_filter|Hc]%elem_of_app.
    + split; [by apply (layout_inside c l) | apply apart_sym, Hbl, elem_of_app; by left].
    + split; [by apply (layout_inside c O) | apply apart_sym, Hbl, elem_of_app; by right].
  - by destruct Hl.
  - by apply layout_NoDup.
  - intros d Hd Hnk c [[Hkc Hc]%list_elem_of_filter|Hc]%elem_of_app.
    + eapply layout_elem_apart; [exact Hl|done..|]. intros ->. done.
    + apply apart_sym. auto.
  - done.
  - intros c [[_ Hc]%list_elem_of_filter|Hc]%elem_of_app.
    + apply apart_sym, Hbl, elem_of_app; by left.
    + apply apart_sym, Hbl, elem_of_app; by right.
  - by left.
  - apply layout_cons. split_and!; [done| |].
    + apply Forall_forall. intros c Hc. apply apart_sym. auto.
    + apply layout_app. split_and!; [by apply layout_filter | done |].
      intros c d [_ Hc]%list_elem_of_filter Hd. auto.
Qed.

End Layout.

(** ** The functions on heaps that satisfy the invariant *)
Section Invariant.

Variable cfg : Config.
Hypothesis Hok : cfg_ok cfg = true.

Lemma chain_size s l : ∀ p c,
  chain cfg s p l → c ∈ l → xBlockSize s !! c.1 = Some c.2.
Proof.
  induction l as [|d l IH]; simpl; intros p c Hc Hin; [by apply elem_of_nil in Hin|].
  destruct Hc as (-> & _ & Hsz & q & _ & Hl).
  apply elem_of_cons in Hin as [->|Hin]; eauto.
Qed.

Lemma kept_sublist b l : kept cfg b l `sublist_of` l.
Proof. unfold kept, merge_keep. case_decide; [apply sublist_filter | done]. Qed.

Lemma prvInsertBlockIntoFreeList_spec fuel s b l O :
  free_list cfg s l →
  xBlockSize s !! addr_xEnd cfg = Some (configADJUSTED_HEAP_SIZE cfg) →
  xBlockSize s !! b.1 = Some b.2 →
  layout cfg (b :: l ++ O) →
  (length l < fuel)%nat →
  ∃ s', prvInsertBlockIntoFreeList cfg fuel s b.1 = Some s'
    ∧ free_list cfg s' (insert_merge cfg b l)
    ∧ layout cfg (merged cfg b l :: kept cfg b l ++ O)
    ∧ xBlockSize s' !! b.1 = Some (own cfg b l)
    ∧ (∀ a, a ≠ b.1 → a ∉ l.*1 → xBlockSize s' !! a = xBlockSize s !! a)
    ∧ (if_merge_mem cfg ≠ 1 → xBlockSize s' = xBlockSize s)
    ∧ xFreeBytesRemaining s' = xFreeBytesRemaining s
    ∧ xHeapHasBeenInitialised s' = xHeapHasBeenInitialised s.
Proof.
  intros (p0 & Hp0 & Hch) HU Hb Hlay Hf.
  pose proof (cfg_facts cfg Hok) as (HH & HUr & Hh & Htop & Hse & Hsn & Hen & Hsout & Heout).
  pose proof Hlay as (Hbi & Hbl & Hlo)%layout_cons.
  pose proof Hlo as (Hl & HO & HlO)%layout_app.
  pose proof (layout_not_sentinel cfg Hok l Hl) as (Hsl & Hel & _).
  pose proof (inside_not_sentinel cfg Hok b Hbi) as (Hbs & Hbe & _).
  assert (b.1 ∉ l.*1) as Hbnl.
  { apply (layout_addr_notin cfg b l). apply layout_cons. split_and!; [done| |done].
    by apply Forall_app in Hbl as [? _]. }
  assert (wrap (b.1 + b.2) = b.1 + b.2) as Hwb.
  { unfold inside in Hbi. apply wrap_small. lia. }
  unfold prvInsertBlockIntoFreeList, insert_merge, merged, kept, own.
  rewrite Hb. simpl.
  destruct (decide (if_merge_mem cfg = 1)) as [Hm|Hm].
  - rewrite Hp0. simpl.
    destruct (merge_loop_spec cfg b.1 (wrap (b.1 + b.2)) b.2 l fuel s b.1 b.2 (addr_xStart cfg) p0)
      as (s1 & Hrun & (q & Hq & Hch1) & Hfin & Hown & Hfn & Hfs & Hfree & Hinit);
      [done | done | by apply layout_NoDup with cfg | done | done | done | done |].
    replace (b.1, b.2) with b in * by (by destruct b).
    rewrite Hrun. simpl. rewrite Hfin. simpl.
    set (p := merge_block b.1 (wrap (b.1 + b.2)) b.2 b l) in *.
    set (r := merge_keep b.1 (wrap (b.1 + b.2)) l) in *.
    assert (layout cfg (p :: r ++ O)) as Hlay1.
    { subst p r. rewrite Hwb. by apply merge_layout. }
    pose proof Hlay1 as (Hpi & Hpl & Hro)%layout_cons.
    pose proof Hro as (Hr & _ & _)%layout_app.
    pose proof (layout_not_sentinel cfg Hok r Hr) as (Hsr & Her & _).
    pose proof (inside_not_sentinel cfg Hok p Hpi) as (Hps & Hpe & _).
    assert (length r ≤ length l)%nat as Hlen by apply length_filter.
    destruct (insert_loop_spec cfg p (configADJUSTED_HEAP_SIZE cfg) r fuel s1 (addr_xStart cfg) q)
      as (it & nx & Hrun2 & Hnx & Hwhere & q' & Hq' & Hch2);
      [lia | done | done | rewrite Hfs; done | unfold inside in Hpi; lia | done | | done | done | done |].
    { apply (layout_addr_notin cfg p r). apply layout_cons. split_and!; [done| |done].
      by apply Forall_app in Hpl as [? _]. }
    rewrite Hrun2. simpl. rewrite Hnx. simpl.
    eexists. split; [done|].
    split_and!; [by exists q' | done | done | | done | done | done].
    intros a Ha Hal. fields. by apply Hfs.
  - assert (layout cfg (b :: l)) as Hbl'.
    { apply layout_cons. split_and!; [done| |done]. by apply Forall_app in Hbl as [? _]. }
    destruct (insert_loop_spec cfg b (configADJUSTED_HEAP_SIZE cfg) l fuel s (addr_xStart cfg) p0)
      as (it & nx & Hrun2 & Hnx & Hwhere & q' & Hq' & Hch2);
      [done | done | done | done | unfold inside in Hbi; lia | done | done | done | done | done |].
    simpl. rewrite Hrun2. simpl. rewrite Hnx. simpl.
    eexists. split; [done|].
    split_and!; [by exists q' | done | done | done | done | done | done].
Qed.

(** Cutting a block in two keeps the layout. *)
Lemma layout_split b W X :
  layout cfg (b :: X) → 0 < W < b.2 →
  layout cfg ((b.1 + W, b.2 - W) :: (b.1, W) :: X).
Proof.
  rewrite !layout_cons. intros (Hb & HbX & HX) HW.
  unfold inside in Hb. split_and!; [unfold inside; simpl; lia | | unfold inside; simpl; lia | | done].
  - apply Forall_cons. split; [unfold apart; simpl; lia|].
    eapply Forall_impl; [exact HbX|]. unfold apart; simpl. intros; lia.
  - eapply Forall_impl; [exact HbX|]. unfold apart; simpl. intros; lia.
Qed.

Lemma pvPortMalloc_spec fuel s n l A :
  heap_inv cfg s l A → (length l < fuel)%nat →
  ∃ s' p, pvPortMalloc cfg fuel s n = Some (s', p)
          ∧ malloc_post cfg s l A (adjust_size cfg (wrap n)) s' p.
Proof.
  intros (Hinit & HU & (p0 & Hp0 & Hch) & Hsorted & Hlay & HA) Hf.
  pose proof (cfg_facts cfg Hok) as (HH & HUr & Hh & Htop & Hse & Hsn & Hen & Hsout & Heout).
  unfold pvPortMalloc. rewrite Hinit.
  set (W := adjust_size cfg (wrap n)).
  destruct (decide (W > 0 ∧ W < configADJUSTED_HEAP_SIZE cfg)) as [HW|HW]; cycle 1.
  { eexists _, _. split; [done|]. left. split_and!; [done..|]. left. lia. }
  rewrite Hp0. simpl.
  pose proof Hlay as (Hl & HlA & HlAp)%layout_app.
  pose proof (layout_not_sentinel cfg Hok l Hl) as (Hsl & Hel & Hnl).
  destruct (search_loop_spec cfg W (configADJUSTED_HEAP_SIZE cfg) l fuel s (addr_xStart cfg) p0)
    as [[Hall [prev' Hrun]]
       |(l1 & b & l2 & prev' & nx & -> & Hl1 & Hb & Hrun & Hp' & Hnx & Hwhere & q' & Hq' & Hch')];
    [done | done | done | done | lia | done | done | done | |].
  { rewrite Hrun. simpl. rewrite decide_False by tauto.
    eexists _, _. split; [done|]. left. split_and!; [done..|]. by right. }
  assert (b ∈ l1 ++ b :: l2) as Hbin by (apply elem_of_app; right; apply elem_of_cons; by left).
  pose proof (layout_inside cfg b _ Hl Hbin) as Hbi.
  pose proof (inside_not_sentinel cfg Hok b Hbi) as (Hbs & Hbe & Hbn).
  pose proof (chain_size s _ _ _ Hch Hbin) as Hbsz.
  assert (layout cfg (b :: (l1 ++ l2) ++ A)) as Hlay'.
  { eapply layout_perm; [|exact Hlay]. rewrite <- !app_assoc. simpl.
    symmetry. apply Permutation_middle. }
  pose proof Hlay' as (_ & HbX & HX)%layout_cons.
  assert (b.1 ∉ ((l1 ++ l2) ++ A).*1) as Hbnot by (by apply (layout_addr_notin cfg b)).
  rewrite fmap_app in Hbnot. apply not_elem_of_app in Hbnot as [Hbl HbA].
  pose proof HX as (Hl12 & _ & _)%layout_app.
  pose proof (layout_not_sentinel cfg Hok _ Hl12) as (Hsl' & Hel' & _).
  assert (wrap (b.1 + heapSTRUCT_SIZE cfg) = b.1 + heapSTRUCT_SIZE cfg) as Hret.
  { unfold inside in Hbi. apply wrap_small. lia. }
  assert (wrap (b.2 - W) = b.2 - W) as Hrem.
  { unfold inside in Hbi. apply wrap_small. lia. }
  rewrite Hrun. simpl. rewrite decide_True by done.
  rewrite Hp'. simpl. rewrite Hnx. simpl. rewrite Hbsz. simpl.
  rewrite Hret, Hrem.
  set (s1 := set_next prev' nx s) in *.
  assert (sorted_by_size (l1 ++ l2)) as Hsorted' by (by eapply sorted_remove).
  destruct (decide (b.2 - W > heapMINIMUM_BLOCK_SIZE cfg)) as [Hsplit|Hsplit].
  - assert (wrap (b.1 + W) = b.1 + W) as Hnew.
    { unfold inside in Hbi. apply wrap_small. lia. }
    rewrite Hnew.
    assert (0 ≤ heapMINIMUM_BLOCK_SIZE cfg) as Hmin by apply wrap_range.
    set (nb := (b.1 + W, b.2 - W)).
    set (s2 := set_size b.1 W (set_size (b.1 + W) (b.2 - W) s1)).
    assert (layout cfg (nb :: (b.1, W) :: (l1 ++ l2) ++ A)) as Hlay2.
    { apply layout_split; [done|lia]. }
    assert (layout cfg (nb :: (l1 ++ l2) ++ (b.1, W) :: A)) as Hlay3.
    { eapply layout_perm; [|exact Hlay2].
      rewrite (Permutation_middle (l1 ++ l2) A). done. }
    pose proof Hlay2 as (Hnbi & Hnbl & _)%layout_cons.
    pose proof (layout_addr_notin cfg _ _ Hlay2) as Hnbnot.
    rewrite fmap_cons, fmap_app in Hnbnot. simpl in Hnbnot.
    apply not_elem_of_cons in Hnbnot as [Hnbb Hnbnot].
    apply not_elem_of_app in Hnbnot as [Hnbl12 HnbA].
    pose proof (inside_not_sentinel cfg Hok nb Hnbi) as (Hnbs & Hnbe & _). simpl in Hnbs, Hnbe.
    destruct (prvInsertBlockIntoFreeList_spec fuel s2 nb (l1 ++ l2) ((b.1, W) :: A))
      as (s3 & Hrun3 & Hfl3 & Hlay4 & Hown3 & Hfs3 & _ & Hfree3 & Hinit3).
    { exists q'. split; [done|]. eapply chain_ext; [|exact Hch']. intros a Ha.
      subst s2. fields. split; [done|].
      rewrite ?lookup_insert_ne by (intros ?; subst a; done). done. }
    { subst s2. fields. done. }
    { subst s2 nb. fields. done. }
    { done. }
    { rewrite length_app in *. simpl in Hf. lia. }
    simpl in Hrun3. rewrite Hrun3. simpl.
    assert (xBlockSize s3 !! b.1 = Some W) as Hb3.
    { rewrite Hfs3; [subst s2; fields; done | simpl; congruence | done]. }
    rewrite Hb3. simpl.
    eexists _, _. split; [done|]. right. split; [lia|].
    exists l1, b, l2. split_and!; [done | done | done | done |].
    left. split_and!; [lia | | fields; by rewrite Hfree3].
    unfold heap_inv. fields. split_and!.
    + by rewrite Hinit3.
    + rewrite Hfs3; [subst s2; fields; done | simpl; congruence | done].
    + by apply (free_list_same_fields cfg s3).
    + unfold insert_merge. apply sorted_insert_block.
      unfold kept. case_decide; [by apply sorted_filter | done].
    + eapply layout_perm; [|exact Hlay4]. unfold insert_merge.
      by rewrite insert_block_perm.
    + apply Forall_cons. split; [done|].
      rewrite Forall_forall in HA |- *. intros c Hc.
      assert (c.1 ∈ A.*1) as HcA by (apply list_elem_of_fmap; eauto).
      rewrite Hfs3; [subst s2; fields| |].
      * subst s1. fields. auto.
      * simpl. congruence.
      * pose proof (layout_NoDup cfg _ HX) as Hnd. rewrite fmap_app in Hnd.
        apply NoDup_app in Hnd as (_ & Hnd & _). intros Hin. by apply (Hnd c.1).
  - simpl. replace (xBlockSize s1 !! b.1) with (Some b.2) by (subst s1; by fields).
    simpl. eexists _, _. split; [done|]. right. split; [lia|].
    exists l1, b, l2. split_and!; [done | done | done | done |].
    right. split_and!; [lia | | done].
    unfold heap_inv. fields.
    split_and!; [done | done | apply (free_list_same_fields cfg s1); [done..|by exists q'] | done | |].
    + eapply layout_perm; [|exact Hlay']. by rewrite (Permutation_middle (l1 ++ l2) A).
    + apply Forall_cons. split; [done|]. done.
Qed.

Lemma vPortFree_spec fuel s l A1 b A2 :
  heap_inv cfg s l (A1 ++ b :: A2) → (length l < fuel)%nat →
  ∃ s', vPortFree cfg fuel s (b.1 + heapSTRUCT_SIZE cfg) = Some s'
    ∧ heap_inv cfg s' (insert_merge cfg b l) (A1 ++ A2)
    ∧ xFreeBytesRemaining s' = wrap (xFreeBytesRemaining s + own cfg b l).
Proof.
  intros (Hinit & HU & Hfl & Hsorted & Hlay & HA) Hf.
  pose proof (cfg_facts cfg Hok) as (HH & HUr & Hh & Htop & Hse & Hsn & Hen & Hsout & Heout).
  assert (layout cfg (b :: l ++ A1 ++ A2)) as Hlay'.
  { eapply layout_perm; [|exact Hlay].
    rewrite <- (Permutation_middle A1 A2 b). symmetry. apply Permutation_middle. }
  pose proof Hlay' as (Hbi & _ & HX)%layout_cons.
  pose proof (layout_addr_notin cfg _ _ Hlay') as Hbnot.
  rewrite fmap_app in Hbnot. apply not_elem_of_app in Hbnot as [Hbl HbA].
  pose proof (inside_not_sentinel cfg Hok b Hbi) as (Hbs & Hbe & Hbn).
  pose proof HX as (Hl & _ & _)%layout_app.
  pose proof (layout_not_sentinel cfg Hok l Hl) as (Hsl & Hel & _).
  assert (xBlockSize s !! b.1 = Some b.2) as Hbsz.
  { rewrite Forall_forall in HA. apply HA, elem_of_app. right. apply elem_of_cons. by left. }
  unfold vPortFree. rewrite decide_True by (unfold inside, NULL in *; lia).
  replace (wrap (b.1 + heapSTRUCT_SIZE cfg - heapSTRUCT_SIZE cfg)) with b.1
    by (unfold inside in Hbi; rewrite wrap_small; lia).
  destruct (prvInsertBlockIntoFreeList_spec fuel s b l (A1 ++ A2))
    as (s1 & Hrun & Hfl1 & Hlay1 & Hown & Hfs & _ & Hfree & Hinit1); [done..|].
  rewrite Hrun. simpl. rewrite Hown. simpl.
  eexists. split; [done|]. split; [|fields; by rewrite Hfree].
  unfold heap_inv. fields. split_and!.
  - by rewrite Hinit1.
  - by rewrite Hfs.
  - by apply (free_list_same_fields cfg s1).
  - unfold insert_merge. apply sorted_insert_block.
    unfold kept. case_decide; [by apply sorted_filter | done].
  - eapply layout_perm; [|exact Hlay1]. unfold insert_merge.
    by rewrite insert_block_perm.
  - rewrite Forall_forall in HA |- *. intros c Hc.
    assert (c ∈ A1 ++ b :: A2) as Hc'.
    { apply elem_of_app in Hc as [?|?]; apply elem_of_app; [by left|right].
      apply elem_of_cons. by right. }
    pose proof (layout_NoDup cfg _ Hlay') as Hnd. rewrite fmap_cons, fmap_app in Hnd.
    apply NoDup_cons in Hnd as [Hnb Hnd]. apply NoDup_app in Hnd as (_ & Hnd & _).
    assert (c.1 ∈ (A1 ++ A2).*1) as HcA by (apply list_elem_of_fmap; eauto).
    rewrite Hfs; [auto| |].
    + intros Heq. rewrite Heq in HcA. done.
    + intros Hin. by apply (Hnd c.1).
Qed.

Lemma vPortFree_null fuel s : vPortFree cfg fuel s NULL = Some s.
Proof. unfold vPortFree. by rewrite decide_False by tauto. Qed.

(** The first call initialises the heap and then proceeds as any other. *)
Lemma pvPortMalloc_uninit fuel s n :
  xHeapHasBeenInitialised s = false →
  pvPortMalloc cfg fuel s n = pvPortMalloc cfg fuel (set_init true (prvHeapInit cfg s)) n.
Proof. intros H. unfold pvPortMalloc. by rewrite H. Qed.

(** After [prvHeapInit] the free list is the single block spanning the arena. *)
Lemma heap_inv_init s :
  heap_inv cfg (set_init true (prvHeapInit cfg s))
    [(pucAlignedHeap cfg, configADJUSTED_HEAP_SIZE cfg)] [].
Proof.
  pose proof (cfg_facts cfg Hok) as (HH & HUr & Hh & Htop & Hse & Hsn & Hen & Hsout & Heout).
  assert (pucAlignedHeap cfg ≠ addr_xStart cfg) by (intros Heq; rewrite <- Heq in Hsout; lia).
  assert (pucAlignedHeap cfg ≠ addr_xEnd cfg) by (intros Heq; rewrite <- Heq in Heout; lia).
  unfold heap_inv, prvHeapInit, free_list. fields. split_and!; [done | done | | | |done].
  - exists (pucAlignedHeap cfg). split; [done|]. simpl. fields.
    split_and!; [done..|]. by exists (addr_xEnd cfg).
  - apply StronglySorted_cons. split; [apply Forall_nil_2 | constructor].
  - apply layout_cons. split_and!; [unfold inside; simpl; lia | apply Forall_nil_2 | done].
Qed.

End Invariant.

(** ** Reachable states *)
Section Reachable.

Variable cfg : Config.
Hypothesis Hok : cfg_ok cfg = true.

(** Any result of [pvPortMalloc] on a heap that satisfies the invariant is
    the one described by [malloc_post]. *)
Lemma pvPortMalloc_inv fuel s n l A s' p :
  heap_inv cfg s l A → pvPortMalloc cfg fuel s n = Some (s', p) →
  malloc_post cfg s l A (adjust_size cfg (wrap n)) s' p.
Proof.
  intros Hinv Hrun.
  destruct (pvPortMalloc_spec cfg Hok (fuel `max` S (length l)) s n l A Hinv)
    as (s2 & p2 & Hrun2 & Hpost); [lia|].
  rewrite (pvPortMalloc_mono cfg fuel _ s n _ (Nat.le_max_l _ _) Hrun) in Hrun2.
  by simplify_eq.
Qed.

Lemma vPortFree_inv fuel s l A1 b A2 s' :
  heap_inv cfg s l (A1 ++ b :: A2) → vPortFree cfg fuel s (payload cfg b) = Some s' →
  heap_inv cfg s' (insert_merge cfg b l) (A1 ++ A2)
  ∧ xFreeBytesRemaining s' = wrap (xFreeBytesRemaining s + own cfg b l).
Proof.
  intros Hinv Hrun.
  destruct (vPortFree_spec cfg Hok (fuel `max` S (length l)) s l A1 b A2 Hinv)
    as (s2 & Hrun2 & Hpost); [lia|].
  unfold payload in Hrun.
  rewrite (vPortFree_mono cfg fuel _ s _ _ (Nat.le_max_l _ _) Hrun) in Hrun2.
  by simplify_eq.
Qed.

(** Every reachable state is the initial one or satisfies the invariant. *)
Theorem reachable_inv s L :
  reachable cfg s L →
  (s = initial_heap cfg ∧ L = [])
  ∨ ∃ l A, heap_inv cfg s l A ∧ L = payload cfg <$> A.
Proof.
  induction 1 as [|s L fuel n s' p _ IH Hrun|s L1 p L2 fuel s' _ IH Hrun|s L fuel s' _ IH Hrun].
  - by left.
  - right.
    assert (∃ s0 l A, heap_inv cfg s0 l A ∧ L = payload cfg <$> A
                      ∧ pvPortMalloc cfg fuel s0 n = Some (s', p)) as (s0 & l & A & Hinv & -> & Hrun0).
    { destruct IH as [[-> ->]|(l & A & Hinv & ->)].
      - rewrite pvPortMalloc_uninit in Hrun by done.
        eexists _, _, []. split_and!; [by apply heap_inv_init | done | done].
      - by exists s, l, A. }
    destruct (pvPortMalloc_inv _ _ _ _ _ _ _ Hinv Hrun0)
      as [(-> & -> & _)|(HW & l1 & b & l2 & -> & _ & _ & -> & Hcase)].
    + rewrite decide_True by done. eauto.
    + pose proof (cfg_facts cfg Hok) as (HH & _ & Hh & _).
      destruct Hinv as (_ & _ & _ & _ & Hlay & _).
      assert (inside cfg b) as Hbi.
      { eapply layout_inside; [exact Hlay|].
        apply elem_of_app. left. apply elem_of_app. right. apply elem_of_cons. by left. }
      rewrite decide_False by (unfold inside, NULL in *; lia).
      destruct Hcase as [(_ & Hinv' & _)|(_ & Hinv' & _)]; eauto.
  - right. destruct IH as [[_ Heq]|(l & A & Hinv & Heq)].
    { by destruct L1. }
    symmetry in Heq. apply fmap_app_inv in Heq as (A1 & A2' & HL1 & Heq & ->).
    symmetry in Heq. apply fmap_cons_inv in Heq as (b & A2 & Hp & HL2 & ->).
    subst p. destruct (vPortFree_inv _ _ _ _ _ _ _ Hinv Hrun) as [Hinv' _].
    exists (insert_merge cfg b l), (A1 ++ A2). split; [done|].
    by rewrite fmap_app, HL1, HL2.
  - rewrite vPortFree_null in Hrun. simplify_eq. done.
Qed.

Lemma pvPortMalloc_lazy fuel s n :
  pvPortMalloc cfg fuel s n = pvPortMalloc cfg fuel (lazy_init cfg s) n.
Proof.
  unfold lazy_init. destruct (xHeapHasBeenInitialised s) eqn:Hi; [done|].
  by apply pvPortMalloc_uninit.
Qed.

Lemma lazy_init_free s : xFreeBytesRemaining (lazy_init cfg s) = xFreeBytesRemaining s.
Proof. unfold lazy_init. by destruct (xHeapHasBeenInitialised s). Qed.

Lemma reachable_lazy_init s L :
  reachable cfg s L → ∃ l A, heap_inv cfg (lazy_init cfg s) l A ∧ L = payload cfg <$> A.
Proof.
  intros [[-> ->]|(l & A & Hinv & ->)]%reachable_inv.
  - eexists _, []. split; [|done]. unfold lazy_init. simpl. by apply heap_inv_init.
  - exists l, A. split; [|done]. unfold lazy_init.
    pose proof Hinv as (Hi & _). by rewrite Hi.
Qed.

(** The only reachable state with the flag still clear is the initial one. *)
Lemma reachable_uninitialised s L :
  reachable cfg s L → xHeapHasBeenInitialised s = false → s = initial_heap cfg ∧ L = [].
Proof.
  intros [?|(l & A & (Hi & _) & _)]%reachable_inv Hf; [done|congruence].
Qed.

(** Every call of [pvPortMalloc] in a reachable state does what
    [malloc_post] says, on the free list the call finds. *)
Lemma pvPortMalloc_reachable s L fuel n s' p :
  reachable cfg s L → pvPortMalloc cfg fuel s n = Some (s', p) →
  ∃ l A, heap_inv cfg (lazy_init cfg s) l A ∧ L = payload cfg <$> A
         ∧ malloc_post cfg (lazy_init cfg s) l A (adjust_size cfg (wrap n)) s' p.
Proof.
  intros (l & A & Hinv & ->)%reachable_lazy_init Hrun.
  rewrite pvPortMalloc_lazy in Hrun.
  exists l, A. split_and!; [done..|]. by eapply pvPortMalloc_inv.
Qed.

(** With enough fuel the calls return. *)
Lemma pvPortMalloc_returns s L n :
  reachable cfg s L →
  ∃ fuel0, ∀ fuel, (fuel0 ≤ fuel)%nat → is_Some (pvPortMalloc cfg fuel s n).
Proof.
  intros (l & A & Hinv & ->)%reachable_lazy_init.
  exists (S (length l)). intros fuel Hf. rewrite pvPortMalloc_lazy.
  destruct (pvPortMalloc_spec cfg Hok fuel _ n l A Hinv) as (s' & p & -> & _); [lia|done].
Qed.

Lemma vPortFree_returns s L1 p L2 :
  reachable cfg s (L1 ++ p :: L2) →
  ∃ fuel0, ∀ fuel, (fuel0 ≤ fuel)%nat → is_Some (vPortFree cfg fuel s p).
Proof.
  intros [[_ Heq]|(l & A & Hinv & Heq)]%reachable_inv; [by destruct L1|].
  symmetry in Heq. apply fmap_app_inv in Heq as (A1 & A2' & HL1 & Heq & ->).
  symmetry in Heq. apply fmap_cons_inv in Heq as (b & A2 & -> & HL2 & ->).
  exists (S (length l)). intros fuel Hf. unfold payload.
  destruct (vPortFree_spec cfg Hok fuel s l A1 b A2 Hinv) as (s' & -> & _); [lia|done].
Qed.

Lemma heapMINIMUM_BLOCK_SIZE_eq : heapMINIMUM_BLOCK_SIZE cfg = 2 * heapSTRUCT_SIZE cfg.
Proof.
  unfold heapMINIMUM_BLOCK_SIZE.
  assert (0 ≤ heapSTRUCT_SIZE cfg < 2 ^ 16) by (apply Z.mod_pos_bound; lia).
  rewrite wrap_small; lia.
Qed.

End Reachable.

(** The block a successful call hands out is a block of the free list the
    call found, chosen by first fit; its pointer is not null. *)
Lemma malloc_success (cfg : Config) (s : heap) (L : list Z) (fuel : nat) (n : Z)
    (s' : heap) (p : Z) :
  cfg_ok cfg = true →
  reachable cfg s L →
  pvPortMalloc cfg fuel s n = Some (s', p) → p ≠ NULL →
  let W := adjust_size cfg (wrap n) in
  ∃ l1 b l2 A,
    heap_inv cfg (lazy_init cfg s) (l1 ++ b :: l2) A
    ∧ L = payload cfg <$> A
    ∧ 0 < W < configADJUSTED_HEAP_SIZE cfg
    ∧ Forall (λ c : blk, c.2 < W) l1 ∧ W ≤ b.2
    ∧ p = payload cfg b ∧ wrap (p - heapSTRUCT_SIZE cfg) = b.1
    ∧ inside cfg b
    ∧ xBlockSize (lazy_init cfg s) !! b.1 = Some b.2
    ∧ ((2 * heapSTRUCT_SIZE cfg < b.2 - W
        ∧ heap_inv cfg s' (insert_merge cfg (b.1 + W, b.2 - W) (l1 ++ l2)) ((b.1, W) :: A)
        ∧ xFreeBytesRemaining s' = wrap (xFreeBytesRemaining s - W))
       ∨ (b.2 - W ≤ 2 * heapSTRUCT_SIZE cfg
          ∧ heap_inv cfg s' (l1 ++ l2) (b :: A)
          ∧ xFreeBytesRemaining s' = wrap (xFreeBytesRemaining s - b.2))).
Proof.
  intros Hok Hreach Hrun Hp W.
  destruct (pvPortMalloc_reachable cfg Hok s L fuel n s' p Hreach Hrun)
    as (l & A & Hinv & HL & Hpost).
  destruct Hpost as [(-> & _)|(HW & l1 & b & l2 & -> & Hl1 & Hb & -> & Hcase)]; [done|].
  pose proof Hinv as (_ & _ & (p0 & _ & Hch) & _ & Hlay & _).
  pose proof (cfg_facts cfg Hok) as (HH & _ & Hh & Htop & _).
  assert (b ∈ l1 ++ b :: l2) as Hbin by (apply elem_of_app; right; apply elem_of_cons; by left).
  assert (inside cfg b) as Hbi.
  { eapply layout_inside; [exact Hlay|]. apply elem_of_app. by left. }
  exists l1, b, l2, A. rewrite <- heapMINIMUM_BLOCK_SIZE_eq, <- (lazy_init_free cfg s).
  split_and!; try done; try (subst W; lia).
  - unfold inside in Hbi. rewrite wrap_small; lia.
  - by eapply chain_size.
Qed.

(** *** Size adjustment *)

Lemma land_bounds (x m : Z) : 0 ≤ m → 0 ≤ Z.land x m ≤ m.
Proof.
  intros Hm. apply Z.ldiff_le; [done|]. apply Z.bits_inj'. intros i Hi.
  rewrite Z.ldiff_spec, Z.land_spec, Z.bits_0.
  by destruct (Z.testbit x i), (Z.testbit m i).
Qed.

(** Without wrap-around the adjusted size covers the request and a header. *)
Lemma adjust_size_ge (cfg : Config) (n : Z) :
  portBYTE_ALIGNMENT_MASK cfg = portBYTE_ALIGNMENT cfg - 1 →
  0 < portBYTE_ALIGNMENT cfg →
  0 < n → n + heapSTRUCT_SIZE cfg + portBYTE_ALIGNMENT cfg ≤ 2 ^ 32 →
  n + heapSTRUCT_SIZE cfg ≤ adjust_size cfg n
  ∨ adjust_size cfg n = 0.
Proof.
  intros Hmask Ha Hn Hfit. unfold adjust_size.
  assert (0 ≤ heapSTRUCT_SIZE cfg < 2 ^ 16) as Hh by (apply Z.mod_pos_bound; lia).
  rewrite decide_True by lia.
  rewrite (wrap_small (n + heapSTRUCT_SIZE cfg)) by lia.
  pose proof (land_bounds (n + heapSTRUCT_SIZE cfg) (portBYTE_ALIGNMENT_MASK cfg)).
  case_decide; [|left; lia].
  destruct (decide (n + heapSTRUCT_SIZE cfg + (portBYTE_ALIGNMENT cfg
      - Z.land (n + heapSTRUCT_SIZE cfg) (portBYTE_ALIGNMENT_MASK cfg)) = 2 ^ 32)) as [Heq|Hne].
  - right. unfold wrap. rewrite Heq. apply Z.mod_same. lia.
  - left. rewrite wrap_small; lia.
Qed.

(** The request of the whole arena less one header adjusts to at least the
    arena size (or wraps to 0). *)
Lemma adjust_size_arena (cfg : Config) :
  portBYTE_ALIGNMENT_MASK cfg = portBYTE_ALIGNMENT cfg - 1 →
  0 < portBYTE_ALIGNMENT cfg →
  configADJUSTED_HEAP_SIZE cfg + portBYTE_ALIGNMENT cfg ≤ 2 ^ 32 →
  let W := adjust_size cfg (wrap (configADJUSTED_HEAP_SIZE cfg - heapSTRUCT_SIZE cfg)) in
  ¬ (W > 0 ∧ W < configADJUSTED_HEAP_SIZE cfg).
Proof.
  intros Hmask Ha Hfit W. subst W. unfold adjust_size.
  pose proof (wrap_range (configTOTAL_HEAP_SIZE cfg - portBYTE_ALIGNMENT cfg)) as HU.
  fold (configADJUSTED_HEAP_SIZE cfg) in HU.
  case_decide; [|lia].
  assert (wrap (wrap (configADJUSTED_HEAP_SIZE cfg - heapSTRUCT_SIZE cfg)
                + heapSTRUCT_SIZE cfg) = configADJUSTED_HEAP_SIZE cfg) as ->.
  { unfold wrap at 1 2. rewrite Z.add_mod_idemp_l by lia.
    replace (configADJUSTED_HEAP_SIZE cfg - heapSTRUCT_SIZE cfg + heapSTRUCT_SIZE cfg)
      with (configADJUSTED_HEAP_SIZE cfg) by lia.
    by apply wrap_small. }
  pose proof (land_bounds (configADJUSTED_HEAP_SIZE cfg) (portBYTE_ALIGNMENT_MASK cfg)).
  case_decide; [|lia].
  destruct (decide (configADJUSTED_HEAP_SIZE cfg + (portBYTE_ALIGNMENT cfg
      - Z.land (configADJUSTED_HEAP_SIZE cfg) (portBYTE_ALIGNMENT_MASK cfg)) = 2 ^ 32)) as [Heq|Hne].
  - unfold wrap. rewrite Heq, Z.mod_same by lia. lia.
  - rewrite wrap_small; lia.
Qed.

(** Requests that do not wrap are served with enough room: the block handed
    out records a size of at least the request plus one header. *)
Theorem malloc_region_large_enough (cfg : Config) (s : heap) (L : list Z)
    (fuel : nat) (n : Z) (s' : heap) (p : Z) :
  cfg_ok cfg = true →
  portBYTE_ALIGNMENT_MASK cfg = portBYTE_ALIGNMENT cfg - 1 →
  0 < portBYTE_ALIGNMENT cfg →
  reachable cfg s L →
  0 ≤ n → n + heapSTRUCT_SIZE cfg + portBYTE_ALIGNMENT cfg ≤ 2 ^ 32 →
  pvPortMalloc cfg fuel s n = Some (s', p) → p ≠ NULL →
  ∃ sz, recorded_size cfg s' p = Some sz ∧ n + heapSTRUCT_SIZE cfg ≤ sz.
Proof.
  intros Hok Hmask Ha Hreach Hn Hfit Hrun Hp.
  destruct (malloc_success cfg s L fuel n s' p Hok Hreach Hrun Hp)
    as (l1 & b & l2 & A & Hinv & _ & HW & _ & Hb & _ & Hpb & Hbi & Hbsz & Hcase).
  assert (0 ≤ heapSTRUCT_SIZE cfg < 2 ^ 16) as Hh by (apply Z.mod_pos_bound; lia).
  assert (wrap n = n) as Hwn by (apply wrap_small; lia).
  rewrite Hwn in *.
  assert (n + heapSTRUCT_SIZE cfg ≤ adjust_size cfg n) as Hge.
  { destruct (decide (n = 0)) as [->|Hn0].
    - unfold adjust_size in HW. rewrite decide_False in HW by lia. lia.
    - destruct (adjust_size_ge cfg n) as [?|Heq]; [done|done|lia|done|done|lia]. }
  unfold recorded_size. rewrite Hpb.
  destruct Hcase as [(_ & Hinv' & _)|(_ & Hinv' & _)];
    destruct Hinv' as (_ & _ & _ & _ & _ & HA);
    apply Forall_cons in HA as [HA _]; simpl in HA; eexists; (split; [done|lia]).
Qed.

(** ** Conservation of bytes when merging is disabled *)

Lemma bytes_app l1 l2 : bytes (l1 ++ l2) = bytes l1 + bytes l2.
Proof. induction l1 as [|c l1 IH]; simpl; lia. Qed.

Lemma bytes_perm l l' : l ≡ₚ l' → bytes l = bytes l'.
Proof. induction 1; simpl; lia. Qed.

Lemma bytes_nonneg cfg l : Forall (inside cfg) l → 0 ≤ bytes l.
Proof.
  induction 1 as [|c l Hc _ IH]; simpl; [done|]. unfold inside in Hc. lia.
Qed.

Section Conservation.

Variable cfg : Config.
Hypothesis Hok : cfg_ok cfg = true.
Hypothesis Hmerge : if_merge_mem cfg ≠ 1.

Lemma insert_merge_off b l : insert_merge cfg b l = insert_block b l.
Proof. unfold insert_merge, merged, kept. by rewrite !decide_False by done. Qed.

Lemma own_off b l : own cfg b l = b.2.
Proof. unfold own. by rewrite decide_False by done. Qed.

(** With merging disabled, in every reachable state the counter is the sum
    of the sizes of the free blocks, and together with the sizes of the
    blocks handed out and not yet freed it makes up the arena. *)
Theorem conservation_without_merging s L :
  reachable cfg s L →
  ∃ l A, heap_inv cfg (lazy_init cfg s) l A ∧ L = payload cfg <$> A
         ∧ xPortGetFreeHeapSize s = bytes l
         ∧ xPortGetFreeHeapSize s + bytes A = configADJUSTED_HEAP_SIZE cfg.
Proof.
  unfold xPortGetFreeHeapSize.
  pose proof (cfg_facts cfg Hok) as (HH & HU & _).
  induction 1 as [|s L fuel n s' p _ IH Hrun|s L1 p L2 fuel s' Hreach IH Hrun|s L fuel s' _ IH Hrun].
  - exists [(pucAlignedHeap cfg, configADJUSTED_HEAP_SIZE cfg)], [].
    split_and!; [by apply heap_inv_init | done | simpl; lia | simpl; lia].
  - destruct IH as (l & A & Hinv & -> & Hfree & Hsum).
    rewrite <- (lazy_init_free cfg s) in Hfree, Hsum.
    rewrite pvPortMalloc_lazy in Hrun.
    pose proof Hinv as (_ & _ & _ & _ & [HlA _] & _).
    apply Forall_app in HlA as [Hl HA].
    pose proof (bytes_nonneg cfg A HA) as HAnn.
    assert (∀ s1 l1 A1, heap_inv cfg s1 l1 A1 → lazy_init cfg s1 = s1) as Hlazy.
    { intros s1 l1 A1 (Hi & _). unfold lazy_init. by rewrite Hi. }
    destruct (pvPortMalloc_inv cfg Hok _ _ _ _ _ _ _ Hinv Hrun)
      as [(-> & -> & _)|(HW & l1 & b & l2 & -> & _ & Hb & -> & Hcase)].
    + rewrite decide_True by done. exists l, A.
      rewrite (Hlazy _ _ _ Hinv). done.
    + apply Forall_app in Hl as [Hl1 [Hbi Hl2]%Forall_cons].
      pose proof (bytes_nonneg cfg l1 Hl1). pose proof (bytes_nonneg cfg l2 Hl2).
      rewrite bytes_app in Hfree. simpl in Hfree.
      rewrite decide_False by (pose proof (cfg_facts cfg Hok); unfold inside, NULL in *; lia).
      destruct Hcase as [(_ & Hinv' & Hfree')|(_ & Hinv' & Hfree')];
        eexists _, _; rewrite (Hlazy _ _ _ Hinv'); (split; [exact Hinv'|]);
        (split; [done|]); rewrite Hfree'.
      * rewrite insert_merge_off, (bytes_perm _ _ (insert_block_perm _ _)).
        simpl. rewrite bytes_app, wrap_small; lia.
      * simpl. rewrite bytes_app, wrap_small; lia.
  - destruct IH as (l & A & Hinv & Heq & Hfree & Hsum).
    assert (lazy_init cfg s = s) as Hlazy.
    { unfold lazy_init. destruct (xHeapHasBeenInitialised s) eqn:Hi; [done|].
      destruct (reachable_uninitialised cfg Hok s _ Hreach Hi) as [_ Hnil].
      by destruct L1. }
    rewrite Hlazy in Hinv.
    symmetry in Heq. apply fmap_app_inv in Heq as (A1 & A2' & HL1 & Heq & ->).
    symmetry in Heq. apply fmap_cons_inv in Heq as (b & A2 & -> & HL2 & ->).
    destruct (vPortFree_inv cfg Hok _ _ _ _ _ _ _ Hinv Hrun) as [Hinv' Hfree'].
    pose proof Hinv as (_ & _ & _ & _ & [HlA _] & _).
    apply Forall_app in HlA as [Hl [HA1 [Hbi HA2]%Forall_cons]%Forall_app].
    pose proof (bytes_nonneg cfg l Hl). pose proof (bytes_nonneg cfg A1 HA1).
    pose proof (bytes_nonneg cfg A2 HA2).
    rewrite bytes_app in Hsum. simpl in Hsum.
    rewrite own_off in Hfree'. rewrite insert_merge_off in Hinv'.
    exists (insert_block b l), (A1 ++ A2).
    assert (lazy_init cfg s' = s') as ->.
    { destruct Hinv' as (Hi & _). unfold lazy_init. by rewrite Hi. }
    split_and!; [done | by rewrite fmap_app, HL1, HL2 | |]; rewrite Hfree'.
    + rewrite (bytes_perm _ _ (insert_block_perm _ _)). simpl.
      unfold inside in Hbi. rewrite wrap_small; lia.
    + rewrite bytes_app. unfold inside in Hbi. rewrite wrap_small; lia.
  - rewrite vPortFree_null in Hrun. simplify_eq. done.
Qed.

End Conservation.

(** ** The round trip on a fresh arena, merging enabled *)

Lemma free_list_det cfg s l l' : free_list cfg s l → free_list cfg s l' → l = l'.
Proof.
  intros (p & Hp & Hc) (p' & Hp' & Hc'). simplify_eq. by eapply chain_det.
Qed.

(** Allocating from the fresh arena and freeing the result at once leaves
    the single block spanning the arena in the free list.  The counter is
    restored only when the block was handed out whole; after a split the
    merge pass has put the size [U] of the merged block in the freed header,
    and the counter ends at [(U - W) + U]. *)
Theorem round_trip_on_fresh_arena (cfg : Config) (fuel fuel' : nat) (n : Z)
    (s1 s2 : heap) (p : Z) :
  cfg_ok cfg = true →
  if_merge_mem cfg = 1 →
  pvPortMalloc cfg fuel (initial_heap cfg) n = Some (s1, p) → p ≠ NULL →
  vPortFree cfg fuel' s1 p = Some s2 →
  let W := adjust_size cfg (wrap n) in
  let U := configADJUSTED_HEAP_SIZE cfg in
  free_list cfg s2 [(pucAlignedHeap cfg, U)]
  ∧ xPortGetFreeHeapSize s2
    = if decide (U - W > 2 * heapSTRUCT_SIZE cfg) then wrap (2 * U - W) else U.
Proof.
  intros Hok Hm Hrun Hp Hfree W U.
  destruct (malloc_success cfg _ [] fuel n s1 p Hok (reach_init cfg) Hrun Hp)
    as (l1 & b & l2 & A & Hinv & HA & HW & _ & Hb & Hpb & _ & Hbi & _ & Hcase).
  symmetry in HA. apply fmap_nil_inv in HA as ->.
  pose proof (cfg_facts cfg Hok) as (HH & HU & Hh & Htop & _).
  fold W in HW, Hb, Hcase. fold U in HW, HU.
  assert (l1 ++ b :: l2 = [(pucAlignedHeap cfg, U)]) as Hl.
  { destruct Hinv as (_ & _ & Hfl & _).
    eapply free_list_det; [exact Hfl|].
    pose proof (heap_inv_init cfg Hok (initial_heap cfg)) as (_ & _ & Hfl' & _).
    exact Hfl'. }
  destruct l1 as [|c l1]; [|by destruct l1]. simpl in Hl. simplify_eq. simpl in *.
  change (xFreeBytesRemaining (initial_heap cfg)) with U in Hcase.
  unfold xPortGetFreeHeapSize.
  assert (wrap (pucAlignedHeap cfg + W) = pucAlignedHeap cfg + W) as HwW
    by (apply wrap_small; lia).
  destruct Hcase as [(Hsplit & Hinv1 & Hfree1)|(Hsplit & Hinv1 & Hfree1)].
  - rewrite decide_True by lia.
    assert (insert_merge cfg (pucAlignedHeap cfg + W, U - W) [] = [(pucAlignedHeap cfg + W, U - W)])
      as Heq1 by (unfold insert_merge, merged, kept; by case_decide).
    rewrite Heq1 in Hinv1.
    destruct (vPortFree_inv cfg Hok fuel' s1 _ [] (pucAlignedHeap cfg, W) [] s2 Hinv1 Hfree)
      as [Hinv2 Hfree2].
    assert (not_adjacent (pucAlignedHeap cfg) (pucAlignedHeap cfg + W)
              (pucAlignedHeap cfg + W, U - W) → False) as Hadj.
    { unfold not_adjacent. simpl. tauto. }
    assert (pucAlignedHeap cfg ≠ wrap (pucAlignedHeap cfg + W + (U - W))) as Hnl.
    { rewrite wrap_small; lia. }
    assert (insert_merge cfg (pucAlignedHeap cfg, W) [(pucAlignedHeap cfg + W, U - W)]
            = [(pucAlignedHeap cfg, U)]) as Heq2.
    { unfold insert_merge, merged, kept, merge_keep. rewrite !decide_True by done. simpl.
      rewrite HwW, filter_cons, filter_nil, !decide_False by done. simpl.
      rewrite wrap_small by lia. repeat f_equal; lia. }
    assert (own cfg (pucAlignedHeap cfg, W) [(pucAlignedHeap cfg + W, U - W)] = U) as Hown.
    { unfold own. rewrite decide_True by done. simpl.
      rewrite HwW, decide_False by done. simpl.
      rewrite decide_False by done. rewrite wrap_small; lia. }
    rewrite Heq2 in Hinv2. rewrite Hown, Hfree1 in Hfree2.
    destruct Hinv2 as (_ & _ & Hfl2 & _). split; [done|].
    rewrite Hfree2. fold U. rewrite (wrap_small (U - W)) by lia. f_equal. lia.
  - rewrite decide_False by lia.
    destruct (vPortFree_inv cfg Hok fuel' s1 _ [] (pucAlignedHeap cfg, U) [] s2 Hinv1 Hfree)
      as [Hinv2 Hfree2].
    assert (insert_merge cfg (pucAlignedHeap cfg, U) [] = [(pucAlignedHeap cfg, U)])
      as Heq2 by (unfold insert_merge, merged, kept; by case_decide).
    assert (own cfg (pucAlignedHeap cfg, U) [] = U) as Hown
      by (unfold own; by case_decide).
    rewrite Heq2 in Hinv2. rewrite Hown, Hfree1 in Hfree2.
    destruct Hinv2 as (_ & _ & Hfl2 & _). split; [done|].
    rewrite Hfree2. fold U. replace (U - U) with 0 by lia. change (wrap 0) with 0.
    rewrite wrap_small; lia.
Qed.

(** ** The merge pass between two free neighbours

    What [prvInsertBlockIntoFreeList] makes of a block that has a free
    neighbour on each side depends on which neighbour the size-ordered list
    shows first. *)
Section MergeOrder.

Variables xs xe bsz : Z.

Lemma merge_block_app ptr l l' :
  merge_block xs xe bsz ptr (l ++ l')
  = merge_block xs xe bsz (merge_block xs xe bsz ptr l) l'.
Proof.
  revert ptr; induction l as [|c l IH]; intros ptr; simpl; [done|].
  repeat case_decide; apply IH.
Qed.

Lemma merge_block_skip ptr l :
  Forall (not_adjacent xs xe) l → merge_block xs xe bsz ptr l = ptr.
Proof.
  induction 1 as [|c l Hc _ IH]; simpl; [done|]. by rewrite decide_True.
Qed.

Lemma merge_keep_skip l : Forall (not_adjacent xs xe) l → merge_keep xs xe l = l.
Proof.
  unfold merge_keep. induction 1 as [|c l Hc _ IH]; [done|].
  rewrite filter_cons, decide_True by done. by rewrite IH.
Qed.

Lemma merge_keep_app l l' :
  merge_keep xs xe (l ++ l') = merge_keep xs xe l ++ merge_keep xs xe l'.
Proof. apply filter_app. Qed.

Variables L R : blk.
Hypothesis HL : xs = wrap (L.1 + L.2).
Hypothesis HR : xe = R.1.
Hypothesis HRL : xs ≠ wrap (R.1 + R.2).

Lemma left_adjacent : ¬ not_adjacent xs xe L.
Proof. unfold not_adjacent. tauto. Qed.

Lemma right_adjacent : ¬ not_adjacent xs xe R.
Proof. unfold not_adjacent. tauto. Qed.

(** Right neighbour first: both are unlinked, the block that results is the
    left neighbour enlarged by the inserted block only. *)
Lemma merge_right_then_left ptr l0 l1 l2 :
  Forall (not_adjacent xs xe) (l0 ++ l1 ++ l2) →
  merge_block xs xe bsz ptr (l0 ++ R :: l1 ++ L :: l2) = (L.1, wrap (L.2 + bsz))
  ∧ merge_keep xs xe (l0 ++ R :: l1 ++ L :: l2) = l0 ++ l1 ++ l2.
Proof.
  intros (H0 & (H1 & H2)%Forall_app)%Forall_app. split.
  - rewrite merge_block_app, (merge_block_skip ptr l0) by done. simpl.
    rewrite (decide_False (P := not_adjacent xs xe R)) by apply right_adjacent.
    rewrite (decide_False (P := xs = wrap (R.1 + R.2))) by done.
    rewrite merge_block_app, (merge_block_skip _ l1) by done. simpl.
    rewrite (decide_False (P := not_adjacent xs xe L)) by apply left_adjacent.
    rewrite decide_True by done. by apply merge_block_skip.
  - rewrite merge_keep_app. unfold merge_keep at 2. rewrite filter_cons.
    rewrite decide_False by apply right_adjacent. fold (merge_keep xs xe (l1 ++ L :: l2)).
    rewrite merge_keep_app. unfold merge_keep at 3. rewrite filter_cons.
    rewrite decide_False by apply left_adjacent. fold (merge_keep xs xe l2).
    by rewrite !merge_keep_skip.
Qed.

(** Left neighbour first: the block that results is the left neighbour
    enlarged by the inserted block and by the right neighbour. *)
Lemma merge_left_then_right ptr l0 l1 l2 :
  Forall (not_adjacent xs xe) (l0 ++ l1 ++ l2) →
  merge_block xs xe bsz ptr (l0 ++ L :: l1 ++ R :: l2)
  = (L.1, wrap (wrap (L.2 + bsz) + R.2))
  ∧ merge_keep xs xe (l0 ++ L :: l1 ++ R :: l2) = l0 ++ l1 ++ l2.
Proof.
  intros (H0 & (H1 & H2)%Forall_app)%Forall_app. split.
  - rewrite merge_block_app, (merge_block_skip ptr l0) by done. simpl.
    rewrite (decide_False (P := not_adjacent xs xe L)) by apply left_adjacent.
    rewrite decide_True by done.
    rewrite merge_block_app, (merge_block_skip _ l1) by done. simpl.
    rewrite (decide_False (P := not_adjacent xs xe R)) by apply right_adjacent.
    rewrite (decide_False (P := xs = wrap (R.1 + R.2))) by done.
    by apply merge_block_skip.
  - rewrite merge_keep_app. unfold merge_keep at 2. rewrite filter_cons.
    rewrite decide_False by apply left_adjacent. fold (merge_keep xs xe (l1 ++ R :: l2)).
    rewrite merge_keep_app. unfold merge_keep at 3. rewrite filter_cons.
    rewrite decide_False by apply right_adjacent. fold (merge_keep xs xe l2).
    by rewrite !merge_keep_skip.
Qed.

End MergeOrder.

Section InsertBetweenNeighbours.

Variable cfg : Config.
Hypothesis Hok : cfg_ok cfg = true.
Hypothesis Hmerge : if_merge_mem cfg = 1.

Variables (b L R : blk) (rest : list blk).
Hypothesis Hlay : layout cfg (b :: L :: R :: rest).
Hypothesis HL : L.1 + L.2 = b.1.
Hypothesis HR : R.1 = b.1 + b.2.

(** In a layout a block has one neighbour on each side at most. *)
Lemma others_not_adjacent : Forall (not_adjacent b.1 (wrap (b.1 + b.2))) rest.
Proof.
  pose proof (cfg_facts cfg Hok) as (HH & HU & Hh & Htop & _).
  pose proof Hlay as (Hbi & _ & (HLi & [_ HLr]%Forall_cons & (HRi & HRr & [Hri _])%layout_cons)%layout_cons)%layout_cons.
  rewrite Forall_forall in HLr, HRr, Hri |- *. intros d Hd.
  specialize (HLr d Hd). specialize (HRr d Hd). specialize (Hri d Hd).
  unfold not_adjacent, apart, inside in *. rewrite !wrap_small by lia. lia.
Qed.

Lemma neighbours_adjacent :
  b.1 = wrap (L.1 + L.2) ∧ wrap (b.1 + b.2) = R.1 ∧ b.1 ≠ wrap (R.1 + R.2)
  ∧ wrap (L.2 + b.2) = L.2 + b.2
  ∧ wrap (wrap (L.2 + b.2) + R.2) = L.2 + b.2 + R.2.
Proof.
  pose proof (cfg_facts cfg Hok) as (HH & HU & Hh & Htop & _).
  pose proof Hlay as (Hbi & _ & (HLi & _ & (HRi & _)%layout_cons)%layout_cons)%layout_cons.
  unfold inside in *. rewrite !wrap_small; rewrite ?wrap_small; lia.
Qed.

End InsertBetweenNeighbours.

(** With merging enabled, on a heap whose free list holds both a block [L]
    that ends where [b] starts and a block [R] that starts where [b] ends,
    with [R] before [L] in the list, inserting [b] unlinks both and leaves a
    block of size [L.2 + b.2]: the size of [R] is not in it. *)
Theorem insert_right_neighbour_first (cfg : Config) (fuel : nat) (s : heap)
    (b L R : blk) (l0 l1 l2 O : list blk) :
  cfg_ok cfg = true → if_merge_mem cfg = 1 →
  free_list cfg s (l0 ++ R :: l1 ++ L :: l2) →
  xBlockSize s !! addr_xEnd cfg = Some (configADJUSTED_HEAP_SIZE cfg) →
  xBlockSize s !! b.1 = Some b.2 →
  layout cfg (b :: (l0 ++ R :: l1 ++ L :: l2) ++ O) →
  L.1 + L.2 = b.1 → R.1 = b.1 + b.2 →
  (length (l0 ++ R :: l1 ++ L :: l2) < fuel)%nat →
  ∃ s', prvInsertBlockIntoFreeList cfg fuel s b.1 = Some s'
        ∧ free_list cfg s' (insert_block (L.1, L.2 + b.2) (l0 ++ l1 ++ l2)).
Proof.
  intros Hok Hm Hfl HU Hb Hlay HL HR Hf.
  destruct (prvInsertBlockIntoFreeList_spec cfg Hok fuel s b _ O Hfl HU Hb Hlay Hf)
    as (s' & Hrun & Hfl' & _).
  exists s'. split; [done|].
  assert (layout cfg (b :: L :: R :: l0 ++ l1 ++ l2)) as Hlay'.
  { apply layout_cons in Hlay as (Hbi & Hbl & [Hl _]%layout_app).
    apply Forall_app in Hbl as [Hbl _].
    assert (l0 ++ R :: l1 ++ L :: l2 ≡ₚ L :: R :: l0 ++ l1 ++ l2) as Hperm.
    { rewrite <- (Permutation_middle l1 l2 L).
      rewrite <- (Permutation_middle l0 (L :: l1 ++ l2) R).
      rewrite <- (Permutation_middle l0 (l1 ++ l2) L).
      apply Permutation_swap. }
    apply layout_cons. split_and!; [done | by rewrite <- Hperm | by eapply layout_perm]. }
  pose proof (others_not_adjacent cfg Hok b L R _ Hlay' HL HR) as Hothers.
  pose proof (neighbours_adjacent cfg Hok b L R _ Hlay' HL HR) as (H1 & H2 & H3 & H4 & _).
  unfold insert_merge, merged, kept in Hfl'. rewrite !decide_True in Hfl' by done.
  destruct (merge_right_then_left b.1 (wrap (b.1 + b.2)) b.2 L R H1 H2 H3 b l0 l1 l2 Hothers)
    as [Hblock Hkeep].
  by rewrite Hblock, Hkeep, H4 in Hfl'.
Qed.

(** With [L] before [R] in the list the block that results has the size of
    all three. *)
Theorem insert_left_neighbour_first (cfg : Config) (fuel : nat) (s : heap)
    (b L R : blk) (l0 l1 l2 O : list blk) :
  cfg_ok cfg = true → if_merge_mem cfg = 1 →
  free_list cfg s (l0 ++ L :: l1 ++ R :: l2) →
  xBlockSize s !! addr_xEnd cfg = Some (configADJUSTED_HEAP_SIZE cfg) →
  xBlockSize s !! b.1 = Some b.2 →
  layout cfg (b :: (l0 ++ L :: l1 ++ R :: l2) ++ O) →
  L.1 + L.2 = b.1 → R.1 = b.1 + b.2 →
  (length (l0 ++ L :: l1 ++ R :: l2) < fuel)%nat →
  ∃ s', prvInsertBlockIntoFreeList cfg fuel s b.1 = Some s'
        ∧ free_list cfg s' (insert_block (L.1, L.2 + b.2 + R.2) (l0 ++ l1 ++ l2)).
Proof.
  intros Hok Hm Hfl HU Hb Hlay HL HR Hf.
  destruct (prvInsertBlockIntoFreeList_spec cfg Hok fuel s b _ O Hfl HU Hb Hlay Hf)
    as (s' & Hrun & Hfl' & _).
  exists s'. split; [done|].
  assert (layout cfg (b :: L :: R :: l0 ++ l1 ++ l2)) as Hlay'.
  { apply layout_cons in Hlay as (Hbi & Hbl & [Hl _]%layout_app).
    apply Forall_app in Hbl as [Hbl _].
    assert (l0 ++ L :: l1 ++ R :: l2 ≡ₚ L :: R :: l0 ++ l1 ++ l2) as Hperm.
    { rewrite <- (Permutation_middle l1 l2 R).
      rewrite <- (Permutation_middle l0 (R :: l1 ++ l2) L).
      by rewrite <- (Permutation_middle l0 (l1 ++ l2) R). }
    apply layout_cons. split_and!; [done | by rewrite <- Hperm | by eapply layout_perm]. }
  pose proof (others_not_adjacent cfg Hok b L R _ Hlay' HL HR) as Hothers.
  pose proof (neighbours_adjacent cfg Hok b L R _ Hlay' HL HR) as (H1 & H2 & H3 & _ & H5).
  unfold insert_merge, merged, kept in Hfl'. rewrite !decide_True in Hfl' by done.
  destruct (merge_left_then_right b.1 (wrap (b.1 + b.2)) b.2 L R H1 H2 H3 b l0 l1 l2 Hothers)
    as [Hblock Hkeep].
  by rewrite Hblock, Hkeep, H5 in Hfl'.
Qed.

(** What [vPortFree] adds to the counter: the size it reads back from the
    freed header after the insertion, [own], which is the recorded size of
    the block plus what the merge pass added to that header. *)
Theorem free_counter_increment (cfg : Config) (s : heap) (L1 L2 : list Z)
    (p : Z) (fuel : nat) (s' : heap) :
  cfg_ok cfg = true →
  reachable cfg s (L1 ++ p :: L2) →
  vPortFree cfg fuel s p = Some s' →
  ∃ l sz, free_list cfg s l
          ∧ recorded_size cfg s p = Some sz
          ∧ free_list cfg s' (insert_merge cfg (wrap (p - heapSTRUCT_SIZE cfg), sz) l)
          ∧ xPortGetFreeHeapSize s'
            = wrap (xPortGetFreeHeapSize s + own cfg (wrap (p - heapSTRUCT_SIZE cfg), sz) l).
Proof.
  intros Hok Hreach Hrun.
  destruct (reachable_inv cfg Hok _ _ Hreach) as [[_ Heq]|(l & A & Hinv & Heq)];
    [by destruct L1|].
  symmetry in Heq. apply fmap_app_inv in Heq as (A1 & A2' & HL1 & Heq & ->).
  symmetry in Heq. apply fmap_cons_inv in Heq as (b & A2 & -> & HL2 & ->).
  destruct (vPortFree_inv cfg Hok _ _ _ _ _ _ _ Hinv Hrun) as [Hinv' Hfree'].
  pose proof Hinv as (_ & _ & Hfl & _ & Hlay & HA).
  pose proof (cfg_facts cfg Hok) as (HH & HU & Hh & Htop & _).
  assert (b ∈ l ++ A1 ++ b :: A2) as Hb.
  { apply elem_of_app. right. apply elem_of_app. right. apply elem_of_cons. by left. }
  pose proof (layout_inside cfg b _ Hlay Hb) as Hbi.
  assert (wrap (payload cfg b - heapSTRUCT_SIZE cfg) = b.1) as Hpb.
  { unfold payload, inside in *. rewrite wrap_small; lia. }
  assert (xBlockSize s !! b.1 = Some b.2) as Hbsz.
  { rewrite Forall_forall in HA. apply HA, elem_of_app. right. apply elem_of_cons. by left. }
  exists l, b.2. unfold recorded_size, xPortGetFreeHeapSize. rewrite Hpb.
  replace (b.1, b.2) with b by (by destruct b).
  destruct Hinv' as (_ & _ & Hfl' & _). done.
Qed.

(** ** No two free blocks are adjacent when merging is enabled *)

Lemma not_touching_sym c d : ¬ touching c d → ¬ touching d c.
Proof. unfold touching. tauto. Qed.

Section NoAdjacency.

Variable cfg : Config.
Hypothesis Hok : cfg_ok cfg = true.

(** Where the block built by the merge pass starts and ends: at the ends of
    the inserted block, or at the far end of a neighbour it absorbed. *)
Lemma merge_block_ends (b : blk) (W : list blk) :
  inside cfg b → Forall (inside cfg) W →
  ∀ l ptr,
    (∀ d, d ∈ l → d ∈ W) → NoDup l.*1 →
    (ptr.1 = b.1 ∨ ∃ L, L ∈ W ∧ L.1 = ptr.1 ∧ L.1 + L.2 = b.1) →
    (ptr.1 + ptr.2 = b.1 + b.2
     ∨ ∃ R, R ∈ W ∧ R.1 = b.1 + b.2 ∧ R.1 + R.2 = ptr.1 + ptr.2) →
    (ptr.1 + ptr.2 = b.1 + b.2 ∨ (b.1 + b.2) ∉ l.*1) →
    let p := merge_block b.1 (b.1 + b.2) b.2 ptr l in
    (p.1 = b.1 ∨ ∃ L, L ∈ W ∧ L.1 = p.1 ∧ L.1 + L.2 = b.1)
    ∧ (p.1 + p.2 = b.1 + b.2
       ∨ ∃ R, R ∈ W ∧ R.1 = b.1 + b.2 ∧ R.1 + R.2 = p.1 + p.2).
Proof.
  intros Hb HW. pose proof (cfg_facts cfg Hok) as (HH & HU & Hh & Htop & _).
  rewrite Forall_forall in HW.
  induction l as [|d l IH]; intros ptr Hsub Hnd Hstart Hend Hrem; simpl; [done|].
  rewrite fmap_cons in Hnd, Hrem. apply NoDup_cons in Hnd as [Hdl Hnd].
  assert (d ∈ W) as HdW by (apply Hsub, elem_of_cons; by left).
  pose proof (HW d HdW) as Hd.
  assert (∀ d', d' ∈ l → d' ∈ W) as Hsub' by (intros d' ?; apply Hsub, elem_of_cons; by right).
  assert (wrap (d.1 + d.2) = d.1 + d.2) as Hwd by (unfold inside in Hd; apply wrap_small; lia).
  destruct (decide (not_adjacent b.1 (b.1 + b.2) d)) as [Hk|Hk].
  - apply IH; [done..|]. destruct Hrem as [?|Hrem]; [by left|right].
    apply not_elem_of_cons in Hrem. tauto.
  - rewrite Hwd. destruct (decide (b.1 = d.1 + d.2)) as [Hleft|Hleft].
    + assert (wrap (d.2 + b.2) = d.2 + b.2) as ->
        by (unfold inside in Hb, Hd; apply wrap_small; lia).
      apply IH; [done | done | | |]; simpl.
      * right. exists d. done.
      * left. lia.
      * left. lia.
    + assert (b.1 + b.2 = d.1) as Hright.
      { unfold not_adjacent in Hk. rewrite Hwd in Hk.
        destruct (decide (b.1 + b.2 = d.1)); [done|]. tauto. }
      destruct Hrem as [Hrem|Hrem]; [|exfalso; apply Hrem, elem_of_cons; by left].
      assert (pucAlignedHeap cfg ≤ ptr.1 ≤ b.1) as Hptr.
      { unfold inside in Hb. destruct Hstart as [->|(L & HL & <- & HLe)]; [lia|].
        specialize (HW L HL). unfold inside in HW. lia. }
      assert (wrap (ptr.2 + d.2) = ptr.2 + d.2) as ->
        by (unfold inside in Hb, Hd; apply wrap_small; lia).
      apply IH; [done | done | | |]; simpl.
      * done.
      * right. exists d. split_and!; [done | done | lia].
      * right. by rewrite Hright.
Qed.

(** The block the merge pass builds touches none of the nodes it keeps. *)
Lemma no_touch_merge b l O :
  layout cfg (b :: l ++ O) → no_touch l →
  Forall (λ d, ¬ touching (merge_block b.1 (b.1 + b.2) b.2 b l) d)
         (merge_keep b.1 (b.1 + b.2) l).
Proof.
  intros (Hbi & Hbl & (Hl & _)%layout_app)%layout_cons Hnt.
  pose proof (cfg_facts cfg Hok) as (HH & HU & Hh & Htop & _).
  destruct (merge_block_ends b l Hbi (proj1 Hl) l b) as [Hstart Hend];
    [done | by apply layout_NoDup with cfg | by left | by left | by left |].
  set (p := merge_block b.1 (b.1 + b.2) b.2 b l) in *.
  apply Forall_forall. intros d [Hk Hd]%list_elem_of_filter.
  pose proof (layout_inside cfg d l Hl Hd) as Hdi.
  assert (wrap (d.1 + d.2) = d.1 + d.2) as Hwd by (unfold inside in Hdi; apply wrap_small; lia).
  unfold not_adjacent in Hk. rewrite Hwd in Hk. destruct Hk as [Hk1 Hk2].
  intros [Ht|Ht].
  - (* the built block ends where [d] starts *)
    destruct Hend as [Hend|(R & HR & HR1 & HR2)]; [lia|].
    assert (R ≠ d) as Hne by (intros ->; lia).
    apply (pairwise_elem _ not_touching_sym l R d Hnt HR Hd Hne). left. lia.
  - (* [d] ends where the built block starts *)
    destruct Hstart as [Hstart|(L & HL & HL1 & HL2)]; [lia|].
    assert (L ≠ d) as Hne.
    { intros ->. unfold inside in Hdi. lia. }
    apply (pairwise_elem _ not_touching_sym l L d Hnt HL Hd Hne). right. lia.
Qed.

Lemma no_touch_insert_merge b l O :
  if_merge_mem cfg = 1 →
  layout cfg (b :: l ++ O) → no_touch l → no_touch (insert_merge cfg b l).
Proof.
  intros Hm Hlay Hnt.
  pose proof Hlay as (Hbi & _)%layout_cons.
  pose proof (cfg_facts cfg Hok) as (HH & HU & Hh & Htop & _).
  assert (wrap (b.1 + b.2) = b.1 + b.2) as Hwb by (unfold inside in Hbi; apply wrap_small; lia).
  unfold insert_merge, merged, kept. rewrite !decide_True by done. rewrite Hwb.
  eapply (pairwise_perm _ not_touching_sym); [symmetry; apply insert_block_perm|].
  simpl. split; [by eapply no_touch_merge|]. by apply pairwise_filter.
Qed.

(** The remainder of a split touches no free block, so the merge pass
    leaves it as it is. *)
Lemma remainder_insert_merge (b : blk) W l1 l2 O :
  layout cfg (b :: (l1 ++ l2) ++ O) → no_touch (l1 ++ b :: l2) → 0 < W < b.2 →
  insert_merge cfg (b.1 + W, b.2 - W) (l1 ++ l2) = insert_block (b.1 + W, b.2 - W) (l1 ++ l2).
Proof.
  intros (Hbi & Hbl & (Hl & _)%layout_app)%layout_cons Hnt HW.
  pose proof (cfg_facts cfg Hok) as (HH & HU & Hh & Htop & _).
  unfold insert_merge, merged, kept. case_decide; [|done]. simpl.
  assert (Forall (not_adjacent (b.1 + W) (wrap (b.1 + W + (b.2 - W)))) (l1 ++ l2)) as Hna.
  { apply Forall_app in Hbl as [Hbl _].
    assert (no_touch (b :: l1 ++ l2)) as [Hbt _].
    { eapply (pairwise_perm _ not_touching_sym); [|exact Hnt].
      symmetry. apply Permutation_middle. }
    rewrite Forall_forall in Hbl, Hbt |- *. intros d Hd.
    specialize (Hbl d Hd). specialize (Hbt d Hd).
    pose proof (layout_inside cfg d _ Hl Hd) as Hdi.
    unfold not_adjacent, touching, apart, inside in *.
    rewrite !wrap_small by lia. lia. }
  by rewrite merge_block_skip, merge_keep_skip.
Qed.

Lemma no_touch_remove l1 b l2 : no_touch (l1 ++ b :: l2) → no_touch (l1 ++ l2).
Proof.
  unfold no_touch. rewrite !pairwise_app. simpl.
  intros (H1 & (_ & H2) & H12). split_and!; [done..|].
  intros c d Hc Hd. apply H12; [done|]. apply elem_of_cons. by right.
Qed.

(** With merging enabled, in every reachable state no free block ends where
    another one starts. *)
Theorem no_adjacent_free_blocks s L :
  if_merge_mem cfg = 1 →
  reachable cfg s L →
  ∃ l A, heap_inv cfg (lazy_init cfg s) l A ∧ L = payload cfg <$> A ∧ no_touch l.
Proof.
  intros Hm.
  assert (∀ s1 l1 A1, heap_inv cfg s1 l1 A1 → lazy_init cfg s1 = s1) as Hlazy.
  { intros s1 l1 A1 (Hi & _). unfold lazy_init. by rewrite Hi. }
  induction 1 as [|s L fuel n s' p _ IH Hrun|s L1 p L2 fuel s' Hreach IH Hrun|s L fuel s' _ IH Hrun].
  - exists [(pucAlignedHeap cfg, configADJUSTED_HEAP_SIZE cfg)], [].
    split_and!; [by apply heap_inv_init | done | by split].
  - destruct IH as (l & A & Hinv & -> & Hnt).
    rewrite pvPortMalloc_lazy in Hrun.
    pose proof Hinv as (_ & _ & _ & _ & Hlay & _).
    destruct (pvPortMalloc_inv cfg Hok _ _ _ _ _ _ _ Hinv Hrun)
      as [(-> & -> & _)|(HW & l1 & b & l2 & -> & _ & Hb & -> & Hcase)].
    + rewrite decide_True by done. exists l, A. by rewrite (Hlazy _ _ _ Hinv).
    + assert (layout cfg (b :: (l1 ++ l2) ++ A)) as Hlayb.
      { eapply layout_perm; [|exact Hlay]. rewrite <- !app_assoc. simpl.
        symmetry. apply Permutation_middle. }
      pose proof Hlayb as (Hbi & _)%layout_cons.
      pose proof (cfg_facts cfg Hok) as (HH & HU & Hh & Htop & _).
      rewrite decide_False by (unfold inside, NULL in *; lia).
      destruct Hcase as [(Hsplit & Hinv' & _)|(_ & Hinv' & _)];
        eexists _, _; rewrite (Hlazy _ _ _ Hinv'); (split; [exact Hinv'|]);
        (split; [done|]).
      * assert (0 ≤ heapMINIMUM_BLOCK_SIZE cfg) by apply wrap_range.
        rewrite (remainder_insert_merge b _ l1 l2 A) by (done || lia).
        eapply (pairwise_perm _ not_touching_sym); [symmetry; apply insert_block_perm|].
        simpl. split; [|by eapply no_touch_remove].
        assert (no_touch (b :: l1 ++ l2)) as [Hbt _].
        { eapply (pairwise_perm _ not_touching_sym); [|exact Hnt].
          symmetry. apply Permutation_middle. }
        pose proof Hlayb as (_ & Hbl & (Hl12 & _)%layout_app)%layout_cons.
        apply Forall_app in Hbl as [Hbl _].
        rewrite Forall_forall in Hbl, Hbt |- *. intros d Hd.
        specialize (Hbl d Hd). specialize (Hbt d Hd).
        pose proof (layout_inside cfg d _ Hl12 Hd) as Hdi.
        unfold touching, apart, inside in *. simpl. lia.
      * by eapply no_touch_remove.
  - destruct IH as (l & A & Hinv & Heq & Hnt).
    assert (lazy_init cfg s = s) as Hls.
    { unfold lazy_init. destruct (xHeapHasBeenInitialised s) eqn:Hi; [done|].
      destruct (reachable_uninitialised cfg Hok s _ Hreach Hi) as [_ Hnil].
      by destruct L1. }
    rewrite Hls in Hinv.
    symmetry in Heq. apply fmap_app_inv in Heq as (A1 & A2' & HL1 & Heq & ->).
    symmetry in Heq. apply fmap_cons_inv in Heq as (b & A2 & -> & HL2 & ->).
    destruct (vPortFree_inv cfg Hok _ _ _ _ _ _ _ Hinv Hrun) as [Hinv' _].
    exists (insert_merge cfg b l), (A1 ++ A2). rewrite (Hlazy _ _ _ Hinv').
    split_and!; [done | by rewrite fmap_app, HL1, HL2 |].
    destruct Hinv as (_ & _ & _ & _ & Hlay & _).
    apply (no_touch_insert_merge b l (A1 ++ A2)); [done| |done].
    eapply layout_perm; [|exact Hlay].
    rewrite <- (Permutation_middle A1 A2 b). symmetry. apply Permutation_middle.
  - rewrite vPortFree_null in Hrun. simplify_eq. done.
Qed.

End NoAdjacency.

(** * The lab configuration

    Usable arena of 1024 bytes at [0x20000108], 8-byte headers and
    alignment. *)

Example lab_cfg_values :
  cfg_ok (lab_cfg 1) = true ∧ cfg_ok (lab_cfg 0) = true
  ∧ pucAlignedHeap (lab_cfg 1) = 0x20000108
  ∧ configADJUSTED_HEAP_SIZE (lab_cfg 1) = 1024
  ∧ heapSTRUCT_SIZE (lab_cfg 1) = 8
  ∧ heapMINIMUM_BLOCK_SIZE (lab_cfg 1) = 16.
Proof. by vm_compute. Qed.

Lemma lab_heap1_reachable : reachable (lab_cfg 1) lab_heap1 [0x20000110].
Proof.
  refine (reach_malloc (lab_cfg 1) _ [] 4 16 _ 0x20000110 (reach_init _) _).
  vm_compute. reflexivity.
Qed.

(** The states of the lab runs are reached by calls of the interface. *)
Lemma run_live_reachable cfg fuel cs : ∀ s ptrs L s' ptrs' L',
  reachable cfg s L →
  run_live cfg fuel cs s ptrs L = Some (s', ptrs', L') →
  reachable cfg s' L'.
Proof.
  induction cs as [|[n|i] cs IH]; intros s ptrs L s' ptrs' L' Hreach Hrun; simpl in Hrun.
  - by simplify_eq.
  - destruct (pvPortMalloc cfg fuel s n) as [[s1 p]|] eqn:Hm; [|done]. simpl in Hrun.
    eapply IH; [|exact Hrun]. by eapply reach_malloc.
  - destruct (ptrs !! i) as [p|]; [|done]. simpl in Hrun.
    destruct (decide (p = NULL)) as [->|Hp].
    + destruct (vPortFree cfg fuel s NULL) as [s1|] eqn:Hf; [|done]. simpl in Hrun.
      eapply IH; [|exact Hrun]. by eapply reach_free_null.
    + destruct (list_find (λ q, q = p) L) as [[j q]|] eqn:Hfind; [|done]. simpl in Hrun.
      destruct (vPortFree cfg fuel s p) as [s1|] eqn:Hf; [|done]. simpl in Hrun.
      apply list_find_Some in Hfind as (Hj & -> & _).
      eapply IH; [|exact Hrun].
      rewrite delete_take_drop. eapply reach_free; [|exact Hf].
      by rewrite take_drop_middle.
Qed.

Lemma lab_state_reachable merge cs :
  reachable (lab_cfg merge) (lab_state merge cs).1.1 (lab_state merge cs).2.
Proof.
  unfold lab_state.
  destruct (run_live _ _ _ _ _ _) as [[[s ptrs] L]|] eqn:Hrun; simpl.
  - eapply run_live_reachable; [apply reach_init | exact Hrun].
  - apply reach_init.
Qed.

Lemma lab_reach merge cs L :
  (lab_state merge cs).2 = L → reachable (lab_cfg merge) (lab_state merge cs).1.1 L.
Proof. intros <-. apply lab_state_reachable. Qed.

Lemma lab_two_reachable merge :
  merge = 0 ∨ merge = 1 → reachable (lab_cfg merge) (lab_two merge) [0x20000128; 0x20000110].
Proof. intros [-> | ->]; apply lab_reach; vm_compute; reflexivity. Qed.

Lemma lab_gap_reachable : reachable (lab_cfg 1) lab_gap [0x20000198; 0x20000128].
Proof. apply lab_reach. vm_compute. reflexivity. Qed.

Lemma lab_right_first_reachable :
  reachable (lab_cfg 1) lab_right_first [0x20000290; 0x200001E0].
Proof. apply lab_reach. vm_compute. reflexivity. Qed.

Lemma lab_left_first_reachable :
  reachable (lab_cfg 1) lab_left_first [0x20000290; 0x20000150].
Proof. apply lab_reach. vm_compute. reflexivity. Qed.

(** * The properties of the specification

    The theorems that range over configurations and sequences of calls take
    [cfg_ok cfg = true] as a hypothesis: the alignment is a power of two of
    at least the size of a header, as in the Cortex-M port of the lab, where
    it is 8.  The runs on the lab configuration need no hypothesis. *)

(** ** Conservation of bytes *)

(** C1, on the code.  Merging enabled: allocate 100 (block A, 112 bytes),
    allocate 200 (block B, 208 bytes), free B.  The merge pass adds the
    free right neighbour (704 bytes) to B's header before [vPortFree] reads
    it back at line 281, so the counter goes from 704 to 1616 while A is
    still allocated: 1616 + 112 is not the arena size 1024. *)
Theorem C1_conservation_fails_with_merging :
  ∃ s pA pB,
    run_calls (lab_cfg 1) 4 [Malloc 100; Malloc 200; Free 1]
      (initial_heap (lab_cfg 1)) [] = Some (s, [pA; pB])
    ∧ recorded_size (lab_cfg 1) s pA = Some 112
    ∧ xPortGetFreeHeapSize s = 1616
    ∧ vPrintFreeList (lab_cfg 1) 4 s = Some [(0x20000108 + 112, 912)]
    ∧ xPortGetFreeHeapSize s + 112 ≠ configADJUSTED_HEAP_SIZE (lab_cfg 1).
Proof.
  eexists _, _, _. split; [vm_compute; reflexivity|]. by vm_compute.
Qed.

(** The same calls with merging disabled conserve the total. *)
Example conservation_without_merging_run :
  ∃ s pA pB,
    run_calls (lab_cfg 0) 4 [Malloc 100; Malloc 200; Free 1]
      (initial_heap (lab_cfg 0)) [] = Some (s, [pA; pB])
    ∧ recorded_size (lab_cfg 0) s pA = Some 112
    ∧ xPortGetFreeHeapSize s = 912
    ∧ xPortGetFreeHeapSize s + 112 = configADJUSTED_HEAP_SIZE (lab_cfg 0).
Proof.
  eexists _, _, _. split; [vm_compute; reflexivity|]. by vm_compute.
Qed.

(** ** Merging with both neighbours *)

(** C2, on the code.  Merging enabled.  After the six calls the blocks at
    offsets 0 (208 bytes) and 320 (64 bytes) are free and the block between
    them (offset 208, 112 bytes) is allocated; the right neighbour, being
    smaller, comes first in the free list.  Inserting the middle block
    unlinks both neighbours, but the resulting block has size 320 = 208 +
    112: the 64 bytes of the right neighbour, added to the middle header
    first, are dropped when [pxBlockPtr] moves to the left neighbour and
    line 132 adds the stale [xBlockSize]. *)
Theorem C2_right_neighbour_lost_when_first :
  ∃ s ptrs s',
    run_calls (lab_cfg 1) 8
      [Malloc 200; Malloc 100; Malloc 50; Malloc 10; Free 0; Free 2]
      (initial_heap (lab_cfg 1)) [] = Some (s, ptrs)
    ∧ vPrintFreeList (lab_cfg 1) 8 s
      = Some [(0x20000108 + 320, 64); (0x20000108, 208); (0x20000108 + 408, 616)]
    ∧ xBlockSize s !! (0x20000108 + 208) = Some 112
    ∧ prvInsertBlockIntoFreeList (lab_cfg 1) 8 s (0x20000108 + 208) = Some s'
    ∧ vPrintFreeList (lab_cfg 1) 8 s'
      = Some [(0x20000108, 320); (0x20000108 + 408, 616)]
    ∧ 320 ≠ 208 + 112 + 64.
Proof.
  eexists _, _, _. split; [vm_compute; reflexivity|].
  split; [by vm_compute|]. split; [by vm_compute|].
  split; [vm_compute; reflexivity|]. by vm_compute.
Qed.

(** When the left neighbour comes first in the list, the same insertion
    yields the sum of the three sizes. *)
Example left_neighbour_first_merges_all :
  ∃ s ptrs s',
    run_calls (lab_cfg 1) 8
      [Malloc 50; Malloc 100; Malloc 200; Malloc 10; Free 0; Free 2]
      (initial_heap (lab_cfg 1)) [] = Some (s, ptrs)
    ∧ vPrintFreeList (lab_cfg 1) 8 s
      = Some [(0x20000108, 64); (0x20000108 + 176, 208); (0x20000108 + 408, 616)]
    ∧ xBlockSize s !! (0x20000108 + 64) = Some 112
    ∧ prvInsertBlockIntoFreeList (lab_cfg 1) 8 s (0x20000108 + 64) = Some s'
    ∧ vPrintFreeList (lab_cfg 1) 8 s'
      = Some [(0x20000108, 64 + 112 + 208); (0x20000108 + 408, 616)].
Proof.
  eexists _, _, _. split; [vm_compute; reflexivity|].
  split; [by vm_compute|]. split; [by vm_compute|].
  split; [vm_compute; reflexivity|]. by vm_compute.
Qed.

(** ** Round trip *)

(** C3, on the code.  Merging enabled, fresh arena: allocate 100 and free
    the result at once.  The free list is again the single block spanning
    the arena, but the counter is 1936 = 2 * 1024 - 112, not 1024: freeing
    adds the merged size 1024 that the merge pass left in the header. *)
Theorem C3_round_trip_counter_not_restored :
  ∃ s p,
    run_calls (lab_cfg 1) 4 [Malloc 100; Free 0] (initial_heap (lab_cfg 1)) []
      = Some (s, [p])
    ∧ p ≠ NULL
    ∧ vPrintFreeList (lab_cfg 1) 4 s
      = Some [(pucAlignedHeap (lab_cfg 1), configADJUSTED_HEAP_SIZE (lab_cfg 1))]
    ∧ xPortGetFreeHeapSize s = 1936
    ∧ xPortGetFreeHeapSize s ≠ configADJUSTED_HEAP_SIZE (lab_cfg 1).
Proof.
  eexists _, _. split; [vm_compute; reflexivity|]. by vm_compute.
Qed.

(** ** The counter on a split *)

(** C4 as stated fails: on the heap left by [pvPortMalloc( 16 )], the call
    [pvPortMalloc( 100 )] takes the free block of 1000 bytes off the list,
    splits it, and decrements the counter from 1000 to 888, that is by the
    rounded request 112 and not by the pre-split size 1000. *)
Lemma C4_counter_not_decremented_by_presplit_size :
  ∃ s0 p0 s1 p1,
    pvPortMalloc (lab_cfg 1) 4 (initial_heap (lab_cfg 1)) 16 = Some (s0, p0)
    ∧ pvPortMalloc (lab_cfg 1) 4 s0 100 = Some (s1, p1)
    ∧ p1 ≠ NULL
    ∧ vPrintFreeList (lab_cfg 1) 4 s0 = Some [(p1 - 8, 1000)]
    ∧ recorded_size (lab_cfg 1) s0 p1 = Some 1000
    ∧ wrap (1000 - adjust_size (lab_cfg 1) 100) > heapMINIMUM_BLOCK_SIZE (lab_cfg 1)
    ∧ xPortGetFreeHeapSize s0 = 1000
    ∧ xPortGetFreeHeapSize s1 = 888
    ∧ xPortGetFreeHeapSize s1 ≠ wrap (xPortGetFreeHeapSize s0 - 1000).
Proof.
  eexists _, _, _, _. split; [vm_compute; reflexivity|].
  split; [vm_compute; reflexivity|]. by vm_compute.
Qed.

(** C4, as the code has it. For every successful call of [pvPortMalloc] in
    which the chosen free block is split, [xFreeBytesRemaining] is
    decremented by the rounded request size, which is the size recorded in
    the handed-out block after the split (line 230), not by the size the
    block had when it was taken off the list.
    Stated for the configurations of [cfg_ok], where the alignment is at
    least the size of a header. *)
Theorem C4_counter_decrement_on_split (cfg : Config) (s : heap) (L : list Z)
    (fuel : nat) (n : Z) (s' : heap) (p sz : Z) :
  cfg_ok cfg = true →
  reachable cfg s L →
  pvPortMalloc cfg fuel s n = Some (s', p) → p ≠ NULL →
  recorded_size cfg (lazy_init cfg s) p = Some sz →
  wrap (sz - adjust_size cfg (wrap n)) > heapMINIMUM_BLOCK_SIZE cfg →
  xPortGetFreeHeapSize s' = wrap (xPortGetFreeHeapSize s - adjust_size cfg (wrap n))
  ∧ recorded_size cfg s' p = Some (adjust_size cfg (wrap n)).
Proof.
  intros Hok Hreach Hrun Hp Hsz Hsplit.
  destruct (malloc_success cfg s L fuel n s' p Hok Hreach Hrun Hp)
    as (l1 & b & l2 & A & Hinv & _ & HW & _ & Hb & _ & Hpb & Hbi & Hbsz & Hcase).
  unfold recorded_size, xPortGetFreeHeapSize in *. rewrite Hpb in *.
  rewrite Hbsz in Hsz. simplify_eq.
  pose proof (cfg_facts cfg Hok) as (HH & HU & _).
  rewrite heapMINIMUM_BLOCK_SIZE_eq in Hsplit.
  rewrite wrap_small in Hsplit by (unfold inside in Hbi; lia).
  destruct Hcase as [(_ & Hinv' & Hfree)|(? & _)]; [|lia].
  split; [done|].
  destruct Hinv' as (_ & _ & _ & _ & _ & HA). by apply Forall_cons in HA as [? _].
Qed.

Lemma C4_witness :
  ∃ s' p,
    pvPortMalloc (lab_cfg 1) 4 lab_heap1 100 = Some (s', p)
    ∧ xPortGetFreeHeapSize s'
      = wrap (xPortGetFreeHeapSize lab_heap1 - adjust_size (lab_cfg 1) (wrap 100))
    ∧ recorded_size (lab_cfg 1) s' p = Some (adjust_size (lab_cfg 1) (wrap 100)).
Proof.
  eexists _, _. split; [vm_compute; reflexivity|].
  apply (C4_counter_decrement_on_split (lab_cfg 1) lab_heap1 [0x20000110] 4 100 _ _ 1000).
  - reflexivity.
  - exact lab_heap1_reachable.
  - vm_compute. reflexivity.
  - vm_compute. discriminate.
  - vm_compute. reflexivity.
  - vm_compute. reflexivity.
Defined.

(** ** Exhaustion boundary *)

(** C5 as stated fails: on the fresh arena of usable size 1024 the first
    call [pvPortMalloc( 1024 - 8 )] already returns [NULL]. *)
Lemma C5_first_call_fails :
  ∃ s,
    pvPortMalloc (lab_cfg 1) 4 (initial_heap (lab_cfg 1))
      (configADJUSTED_HEAP_SIZE (lab_cfg 1) - heapSTRUCT_SIZE (lab_cfg 1))
    = Some (s, NULL).
Proof. eexists. vm_compute. reflexivity. Qed.

(** C5, as the code has it. From a fresh arena of usable size [U], the call
    [pvPortMalloc( U - heapSTRUCT_SIZE )] fails already on its first
    invocation: its adjusted size is [U] (or more, after rounding), which is
    not strictly less than [U] as line 196 demands.  The identical second
    call fails too, and neither changes the state beyond the lazy
    initialisation. *)
Theorem C5_whole_arena_request_fails (cfg : Config) (fuel1 fuel2 : nat) :
  portBYTE_ALIGNMENT_MASK cfg = portBYTE_ALIGNMENT cfg - 1 →
  0 < portBYTE_ALIGNMENT cfg →
  configADJUSTED_HEAP_SIZE cfg + portBYTE_ALIGNMENT cfg ≤ 2 ^ 32 →
  let n := configADJUSTED_HEAP_SIZE cfg - heapSTRUCT_SIZE cfg in
  let s1 := lazy_init cfg (initial_heap cfg) in
  pvPortMalloc cfg fuel1 (initial_heap cfg) n = Some (s1, NULL)
  ∧ pvPortMalloc cfg fuel2 s1 n = Some (s1, NULL).
Proof.
  intros Hmask Ha Hfit n s1.
  pose proof (adjust_size_arena cfg Hmask Ha Hfit) as HW. simpl in HW.
  unfold pvPortMalloc. fold n in HW. subst s1. simpl.
  by rewrite !decide_False by done.
Qed.

Lemma C5_witness :
  pvPortMalloc (lab_cfg 1) 4 (initial_heap (lab_cfg 1)) (1024 - 8)
  = Some (lazy_init (lab_cfg 1) (initial_heap (lab_cfg 1)), NULL)
  ∧ pvPortMalloc (lab_cfg 1) 4 (lazy_init (lab_cfg 1) (initial_heap (lab_cfg 1))) (1024 - 8)
    = Some (lazy_init (lab_cfg 1) (initial_heap (lab_cfg 1)), NULL).
Proof.
  apply (C5_whole_arena_request_fails (lab_cfg 1) 4 4).
  - reflexivity.
  - reflexivity.
  - vm_compute. discriminate.
Defined.

(** The boundary the code has: the largest request served from the fresh
    arena is [U - heapSTRUCT_SIZE - portBYTE_ALIGNMENT]; it is served once,
    takes the whole arena, and the identical second call fails. *)
Example exhaustion_boundary_run :
  ∃ s p,
    run_calls (lab_cfg 1) 4 [Malloc (1024 - 8 - 8); Malloc (1024 - 8 - 8)]
      (initial_heap (lab_cfg 1)) [] = Some (s, [p; NULL])
    ∧ p ≠ NULL
    ∧ recorded_size (lab_cfg 1) s p = Some 1024
    ∧ vPrintFreeList (lab_cfg 1) 4 s = Some []
    ∧ xPortGetFreeHeapSize s = 0.
Proof.
  eexists _, _. split; [vm_compute; reflexivity|]. by vm_compute.
Qed.

(** ** Requests near the maximum of [size_t] *)

(** C6, on the code.  The request [2^32 - 4] wraps: adding the header gives
    4, rounding gives 8, and line 196 accepts it.  The call returns a
    non-null pointer to a block whose recorded size is 8, the header alone;
    the returned pointer is the address of the header of the free block
    that follows. *)
Theorem C6_wrapped_request_is_served :
  ∃ s p,
    pvPortMalloc (lab_cfg 1) 4 (initial_heap (lab_cfg 1)) (2 ^ 32 - 4) = Some (s, p)
    ∧ p ≠ NULL
    ∧ adjust_size (lab_cfg 1) (2 ^ 32 - 4) = 8
    ∧ recorded_size (lab_cfg 1) s p = Some (heapSTRUCT_SIZE (lab_cfg 1))
    ∧ vPrintFreeList (lab_cfg 1) 4 s = Some [(p, 1016)].
Proof.
  eexists _, _. split; [vm_compute; reflexivity|]. by vm_compute.
Qed.

(** ** Split threshold *)

(** C7. For every successful call of [pvPortMalloc], with [b] the chosen
    block (the first block of the free list that is large enough) and [W]
    the rounded request: if [b]'s size minus [W] exceeds two header sizes,
    the handed-out block records size [W] and the free list becomes the old
    one without [b] and with the remainder [(b.1 + W, b.2 - W)], a block it
    had not, put at its place by size; otherwise the handed-out block keeps
    the size of [b] and the free list is the old one without [b], so no free
    block is created.  The threshold [heapMINIMUM_BLOCK_SIZE] is two header
    sizes.  This holds whatever the merge flag: the remainder touches no
    free block, so the merge pass leaves it alone.
    Stated for the configurations of [cfg_ok], where the alignment is at
    least the size of a header. *)
Theorem C7_split_threshold (cfg : Config) (s : heap) (L : list Z)
    (fuel : nat) (n : Z) (s' : heap) (p : Z) :
  cfg_ok cfg = true →
  reachable cfg s L →
  pvPortMalloc cfg fuel s n = Some (s', p) → p ≠ NULL →
  let W := adjust_size cfg (wrap n) in
  heapMINIMUM_BLOCK_SIZE cfg = 2 * heapSTRUCT_SIZE cfg
  ∧ ∃ l1 b l2,
      free_list cfg (lazy_init cfg s) (l1 ++ b :: l2)
      ∧ Forall (λ c : blk, c.2 < W) l1 ∧ W ≤ b.2
      ∧ p = payload cfg b
      ∧ if decide (b.2 - W > 2 * heapSTRUCT_SIZE cfg)
        then recorded_size cfg s' p = Some W
             ∧ free_list cfg s' (insert_block (b.1 + W, b.2 - W) (l1 ++ l2))
             ∧ ((b.1 + W) ∉ (l1 ++ b :: l2).*1)
        else recorded_size cfg s' p = Some b.2
             ∧ free_list cfg s' (l1 ++ l2).
Proof.
  intros Hok Hreach Hrun Hp W. split; [by apply heapMINIMUM_BLOCK_SIZE_eq|].
  destruct (malloc_success cfg s L fuel n s' p Hok Hreach Hrun Hp)
    as (l1 & b & l2 & A & Hinv & _ & HW & Hl1 & Hb & Hpb & Hpb' & Hbi & Hbsz & Hcase).
  fold W in HW, Hb, Hcase, Hl1.
  exists l1, b, l2. pose proof Hinv as (_ & _ & Hfl & _ & Hlay & _).
  pose proof (cfg_facts cfg Hok) as (HH & _ & Hh & Htop & _).
  split_and!; [done..|]. unfold recorded_size. rewrite Hpb'.
  destruct (decide (b.2 - W > 2 * heapSTRUCT_SIZE cfg)) as [Hsplit|Hsplit].
  - destruct Hcase as [(_ & Hinv' & _)|(? & _)]; [|lia].
    pose proof Hinv' as (_ & _ & Hfl' & _ & Hlay' & HA).
    apply Forall_cons in HA as [Hb' _].
    assert (layout cfg (b :: (l1 ++ l2) ++ A)) as Hlayb.
    { eapply layout_perm; [|exact Hlay]. rewrite <- !app_assoc. simpl.
      symmetry. apply Permutation_middle. }
    assert (layout cfg ((b.1 + W, b.2 - W) :: (b.1, W) :: (l1 ++ l2) ++ A)) as Hlay2.
    { apply layout_split; [done|lia]. }
    pose proof (layout_addr_notin cfg _ _ Hlay2) as Hnot.
    rewrite fmap_cons, !fmap_app in Hnot. simpl in Hnot.
    apply not_elem_of_cons in Hnot as [Hnb Hnot].
    apply not_elem_of_app in Hnot as [Hnot _].
    apply not_elem_of_app in Hnot as [Hn1 Hn2].
    split_and!; [done | |].
    + destruct (decide (if_merge_mem cfg = 1)) as [Hm|Hm].
      * destruct (no_adjacent_free_blocks cfg Hok s L Hm Hreach) as (l' & A' & Hinv0 & _ & Hnt).
        destruct Hinv0 as (_ & _ & Hfl0 & _).
        rewrite (free_list_det cfg _ _ _ Hfl0 Hfl) in Hnt.
        by rewrite <- (remainder_insert_merge cfg Hok b W l1 l2 A) by (done || lia).
      * by rewrite <- (insert_merge_off cfg Hm).
    + rewrite fmap_app, fmap_cons. intros [?|[?|?]%elem_of_cons]%elem_of_app; [done|lia|done].
  - destruct Hcase as [(? & _)|(_ & Hinv' & _)]; [lia|].
    destruct Hinv' as (_ & _ & Hfl' & _ & _ & HA).
    by apply Forall_cons in HA as [? _].
Qed.

Lemma C7_witness :
  ∃ s' p l1 b l2,
    pvPortMalloc (lab_cfg 1) 4 lab_heap1 100 = Some (s', p)
    ∧ free_list (lab_cfg 1) (lazy_init (lab_cfg 1) lab_heap1) (l1 ++ b :: l2)
    ∧ p = payload (lab_cfg 1) b
    ∧ if decide (b.2 - adjust_size (lab_cfg 1) (wrap 100) > 2 * heapSTRUCT_SIZE (lab_cfg 1))
      then recorded_size (lab_cfg 1) s' p = Some (adjust_size (lab_cfg 1) (wrap 100))
           ∧ free_list (lab_cfg 1) s'
               (insert_block
                  (b.1 + adjust_size (lab_cfg 1) (wrap 100),
                   b.2 - adjust_size (lab_cfg 1) (wrap 100)) (l1 ++ l2))
      else recorded_size (lab_cfg 1) s' p = Some b.2
           ∧ free_list (lab_cfg 1) s' (l1 ++ l2).
Proof.
  eexists _, _.
  assert (pvPortMalloc (lab_cfg 1) 4 lab_heap1 100
          = Some (default lab_heap1 (fst <$> pvPortMalloc (lab_cfg 1) 4 lab_heap1 100),
                  0x20000128)) as Hrun by (vm_compute; reflexivity).
  destruct (C7_split_threshold (lab_cfg 1) lab_heap1 [0x20000110] 4 100 _ _
              eq_refl lab_heap1_reachable Hrun)
    as (_ & l1 & b & l2 & Hfl & _ & _ & Hp & Hcase).
  { vm_compute. discriminate. }
  exists l1, b, l2. split; [exact Hrun|]. split; [exact Hfl|]. split; [exact Hp|].
  destruct (decide (b.2 - adjust_size (lab_cfg 1) (wrap 100) > 2 * heapSTRUCT_SIZE (lab_cfg 1))).
  - destruct Hcase as (? & ? & _). by split.
  - exact Hcase.
Defined.

(** ** Sorted free list *)

(** C8. After any sequence of [pvPortMalloc] and [vPortFree] calls that
    contains at least one [pvPortMalloc] (so that the list exists), whatever
    the merge flag, the free list read from [xStart] to [xEnd] is
    non-decreasing by block size, and the walk of [vPrintFreeList] returns
    it.
    Stated for the configurations of [cfg_ok], where the alignment is at
    least the size of a header. *)
Theorem C8_free_list_sorted (cfg : Config) (s : heap) (L : list Z) :
  cfg_ok cfg = true →
  reachable cfg s L →
  xHeapHasBeenInitialised s = true →
  ∃ l, free_list cfg s l
       ∧ sorted_by_size l
       ∧ ∀ fuel, (length l < fuel)%nat → vPrintFreeList cfg fuel s = Some l.
Proof.
  intros Hok Hreach Hinit.
  destruct (reachable_inv cfg Hok s L Hreach) as [[-> _]|(l & A & Hinv & _)]; [done|].
  destruct Hinv as (_ & _ & Hfl & Hsorted & _).
  exists l. split_and!; [done..|].
  intros fuel Hf. destruct Hfl as (p & Hp & Hch).
  unfold vPrintFreeList. rewrite Hp. simpl. by apply free_list_from_chain.
Qed.

(** The free list of [lab_right_first] has three blocks, of 64, 208 and
    616 bytes, at addresses that are not in this order. *)
Lemma C8_witness :
  vPrintFreeList (lab_cfg 1) 4 lab_right_first
  = Some [(0x20000248, 64); (0x20000108, 208); (0x200002A0, 616)]
  ∧ ∃ l, free_list (lab_cfg 1) lab_right_first l
         ∧ sorted_by_size l
         ∧ ∀ fuel, (length l < fuel)%nat
                   → vPrintFreeList (lab_cfg 1) fuel lab_right_first = Some l.
Proof.
  split; [vm_compute; reflexivity|].
  apply (C8_free_list_sorted (lab_cfg 1) lab_right_first [0x20000290; 0x200001E0]).
  - reflexivity.
  - exact lab_right_first_reachable.
  - reflexivity.
Defined.

(** ** Zero-size request *)

(** C9. [pvPortMalloc( 0 )] returns [NULL] and leaves [xFreeBytesRemaining]
    unchanged, in every state of the allocator (initialised or not, well
    formed or not) and with any fuel: the adjusted size stays 0 and fails the
    test of line 196 before any list is read. *)
Theorem C9_zero_size_request (cfg : Config) (fuel : nat) (s : heap) :
  ∃ s', pvPortMalloc cfg fuel s 0 = Some (s', NULL)
        ∧ xPortGetFreeHeapSize s' = xPortGetFreeHeapSize s.
Proof.
  unfold pvPortMalloc, adjust_size, xPortGetFreeHeapSize.
  change (wrap 0) with 0. rewrite (decide_False (P := 0 > 0)) by lia.
  rewrite decide_False by lia.
  eexists. split; [done|]. by destruct (xHeapHasBeenInitialised s).
Qed.

(** ** Failure leaves the state alone *)

(** C10. On an initialised heap reached by any sequence of calls, a call of
    [pvPortMalloc] that returns [NULL] leaves the whole state (both header
    fields of every address, the counter, the flag), hence the free list and
    the free-bytes counter, exactly as it was.
    Stated for the configurations of [cfg_ok], where the alignment is at
    least the size of a header. *)
Theorem C10_failure_is_atomic (cfg : Config) (s : heap) (L : list Z)
    (fuel : nat) (n : Z) (s' : heap) :
  cfg_ok cfg = true →
  reachable cfg s L →
  xHeapHasBeenInitialised s = true →
  pvPortMalloc cfg fuel s n = Some (s', NULL) →
  s' = s.
Proof.
  intros Hok Hreach Hinit Hrun.
  destruct (pvPortMalloc_reachable cfg Hok s L fuel n s' NULL Hreach Hrun)
    as (l & A & Hinv & _ & Hpost).
  assert (lazy_init cfg s = s) as Hlazy by (unfold lazy_init; by rewrite Hinit).
  rewrite Hlazy in *.
  destruct Hpost as [(_ & -> & _)|(_ & l1 & b & l2 & -> & _ & _ & Hp & _)]; [done|].
  exfalso. destruct Hinv as (_ & _ & _ & _ & Hlay & _).
  pose proof (cfg_facts cfg Hok) as (HH & _ & Hh & _).
  assert (inside cfg b) as Hbi.
  { eapply layout_inside; [exact Hlay|].
    apply elem_of_app. left. apply elem_of_app. right. apply elem_of_cons. by left. }
  unfold inside, NULL in *. lia.
Qed.

(** A request of 700 bytes passes the test of line 196 and fails in the
    search: the free blocks of [lab_right_first] have 64, 208 and 616
    bytes. *)
Lemma C10_witness :
  ∃ s', pvPortMalloc (lab_cfg 1) 4 lab_right_first 700 = Some (s', NULL)
        ∧ adjust_size (lab_cfg 1) (wrap 700) < configADJUSTED_HEAP_SIZE (lab_cfg 1)
        ∧ s' = lab_right_first.
Proof.
  eexists. split; [vm_compute; reflexivity|]. split; [vm_compute; reflexivity|].
  apply (C10_failure_is_atomic (lab_cfg 1) lab_right_first [0x20000290; 0x200001E0] 4 700).
  - reflexivity.
  - exact lab_right_first_reachable.
  - reflexivity.
  - vm_compute. reflexivity.
Defined.

(** * Further properties of the allocator

    As before, the theorems about sequences of calls are stated for the
    configurations of [cfg_ok]; those about a single function on any state
    say what they need of the configuration. *)

(** ** The blocks behind the live pointers *)
Section Live.

Variable cfg : Config.
Hypothesis Hok : cfg_ok cfg = true.

Lemma block_of_payload s (c : blk) :
  inside cfg c → xBlockSize s !! c.1 = Some c.2 → block_of cfg s (payload cfg c) = Some c.
Proof.
  intros Hc Hsz. pose proof (cfg_facts cfg Hok) as (HH & HU & Hh & Htop & _).
  unfold block_of, recorded_size, payload.
  replace (c.1 + heapSTRUCT_SIZE cfg - heapSTRUCT_SIZE cfg) with c.1 by lia.
  rewrite wrap_small by (unfold inside in Hc; lia).
  rewrite Hsz. simpl. by destruct c.
Qed.

Lemma live_blocks_inv s l A :
  heap_inv cfg s l A → live_blocks cfg s (payload cfg <$> A) = Some A.
Proof.
  intros (_ & _ & _ & _ & [Hin _] & HA). apply Forall_app in Hin as [_ Hin].
  unfold live_blocks. apply mapM_Some. apply Forall2_fmap_l.
  apply Forall_Forall2_diag. rewrite Forall_forall in Hin, HA |- *.
  intros c Hc. apply block_of_payload; auto.
Qed.

(** An initialised reachable state satisfies the invariant, with the blocks
    behind the live pointers as the blocks handed out. *)
Lemma reachable_live s L :
  reachable cfg s L → xHeapHasBeenInitialised s = true →
  ∃ l A, heap_inv cfg s l A ∧ L = payload cfg <$> A ∧ live_blocks cfg s L = Some A.
Proof.
  intros Hreach Hi.
  destruct (reachable_inv cfg Hok s L Hreach) as [[-> _]|(l & A & Hinv & ->)]; [done|].
  exists l, A. split_and!; [done..|]. by eapply live_blocks_inv.
Qed.

End Live.
(** ** Calls return *)



(** X2. [vPortFree] returns when it is given a pointer that [pvPortMalloc]
    handed out and that was not freed since: the merge pass and the
    insertion loop stop within one pass over the free list each. *)
Theorem X2_vPortFree_returns (cfg : Config) (s : heap) (L1 L2 : list Z) (p : Z) :
  cfg_ok cfg = true →
  reachable cfg s (L1 ++ p :: L2) →
  ∃ l, free_list cfg s l
       ∧ ∀ fuel, (length l < fuel)%nat → is_Some (vPortFree cfg fuel s p).
Proof.
  intros Hok Hreach.
  destruct (reachable_inv cfg Hok _ _ Hreach) as [[_ Heq]|(l & A & Hinv & Heq)];
    [by destruct L1|].
  symmetry in Heq. apply fmap_app_inv in Heq as (A1 & A2' & HL1 & Heq & ->).
  symmetry in Heq. apply fmap_cons_inv in Heq as (b & A2 & -> & HL2 & ->).
  exists l. split; [by destruct Hinv as (_ & _ & ? & _)|].
  intros fuel Hf. unfold payload.
  destruct (vPortFree_spec cfg Hok fuel s l A1 b A2 Hinv Hf) as (s' & -> & _). done.
Qed.

Lemma X2_witness :
  ∃ l, free_list (lab_cfg 1) lab_right_first l
       ∧ ∀ fuel, (length l < fuel)%nat
                 → is_Some (vPortFree (lab_cfg 1) fuel lab_right_first 0x200001E0).
Proof.
  apply (X2_vPortFree_returns (lab_cfg 1) lab_right_first [0x20000290] [] 0x200001E0).
  - reflexivity.
  - exact lab_right_first_reachable.
Defined.

(** ** Blocks do not overlap *)

(** X3. In every initialised state reached by calls of the interface, with
    any merge flag, the free blocks and the blocks behind the live pointers,
    each taken with the size its header records, lie inside the arena and no
    two of them share a byte. *)
Theorem X3_blocks_never_overlap (cfg : Config) (s : heap) (L : list Z) :
  cfg_ok cfg = true →
  reachable cfg s L →
  xHeapHasBeenInitialised s = true →
  ∃ l A, free_list cfg s l ∧ live_blocks cfg s L = Some A ∧ layout cfg (l ++ A).
Proof.
  intros Hok Hreach Hi.
  destruct (reachable_live cfg Hok s L Hreach Hi) as (l & A & Hinv & _ & HA).
  exists l, A. destruct Hinv as (_ & _ & ? & _ & ? & _). done.
Qed.

Lemma X3_witness :
  ∃ l A, free_list (lab_cfg 1) lab_right_first l
         ∧ live_blocks (lab_cfg 1) lab_right_first [0x20000290; 0x200001E0] = Some A
         ∧ layout (lab_cfg 1) (l ++ A).
Proof.
  apply (X3_blocks_never_overlap (lab_cfg 1) lab_right_first [0x20000290; 0x200001E0]).
  - reflexivity.
  - exact lab_right_first_reachable.
  - reflexivity.
Defined.

(** ** The header of a live block is left alone *)

Lemma live_pointer_block cfg s l A q :
  cfg_ok cfg = true → heap_inv cfg s l A → q ∈ payload cfg <$> A →
  ∃ c, c ∈ A ∧ q = payload cfg c ∧ wrap (q - heapSTRUCT_SIZE cfg) = c.1
       ∧ xBlockSize s !! c.1 = Some c.2.
Proof.
  intros Hok (_ & _ & _ & _ & [Hin _] & HA) (c & -> & Hc)%list_elem_of_fmap.
  pose proof (cfg_facts cfg Hok) as (HH & HU & Hh & Htop & _).
  apply Forall_app in Hin as [_ Hin]. rewrite Forall_forall in Hin, HA.
  exists c. split_and!; [done | done | | auto].
  specialize (Hin c Hc). unfold payload, inside in *. rewrite wrap_small; lia.
Qed.

(** X4. The size recorded for a live block does not change while the block
    is live: no call of [pvPortMalloc], and no call of [vPortFree] on
    another live pointer, writes to its header. *)
Theorem X4_live_block_size_kept (cfg : Config) (s : heap) (L : list Z) (q : Z) :
  cfg_ok cfg = true →
  reachable cfg s L →
  q ∈ L →
  (∀ fuel n s' p, pvPortMalloc cfg fuel s n = Some (s', p) →
                  recorded_size cfg s' q = recorded_size cfg s q)
  ∧ (∀ fuel p s', p ∈ L → p ≠ q → vPortFree cfg fuel s p = Some s' →
                  recorded_size cfg s' q = recorded_size cfg s q).
Proof.
  intros Hok Hreach Hq.
  destruct (reachable_inv cfg Hok _ _ Hreach) as [[_ ->]|(l & A & Hinv & ->)];
    [by apply elem_of_nil in Hq|].
  destruct (live_pointer_block cfg s l A q Hok Hinv Hq) as (c & Hc & -> & Hwc & Hsz).
  unfold recorded_size. rewrite Hwc, Hsz. split.
  - intros fuel n s' p Hrun.
    destruct (pvPortMalloc_inv cfg Hok _ _ _ _ _ _ _ Hinv Hrun)
      as [(_ & -> & _)|(_ & l1 & b & l2 & _ & _ & _ & _ & Hcase)]; [done|].
    destruct Hcase as [(_ & Hinv' & _)|(_ & Hinv' & _)];
      destruct Hinv' as (_ & _ & _ & _ & _ & HA);
      rewrite Forall_forall in HA; apply HA, elem_of_cons; by right.
  - intros fuel p s' Hp Hne Hrun.
    apply list_elem_of_split in Hp as (L1 & L2 & Heq).
    apply fmap_app_inv in Heq as (A1 & A2' & HL1 & Heq & ->).
    symmetry in Heq. apply fmap_cons_inv in Heq as (b & A2 & -> & HL2 & ->).
    destruct (vPortFree_inv cfg Hok _ _ _ _ _ _ _ Hinv Hrun) as [(_ & _ & _ & _ & _ & HA) _].
    rewrite Forall_forall in HA. apply HA.
    apply elem_of_app in Hc as [?|[->|?]%elem_of_cons]; [|done|];
      apply elem_of_app; auto.
Qed.

Lemma X4_witness :
  (∀ fuel n s' p,
     pvPortMalloc (lab_cfg 1) fuel (lab_two 1) n = Some (s', p) →
     recorded_size (lab_cfg 1) s' 0x20000110
     = recorded_size (lab_cfg 1) (lab_two 1) 0x20000110)
  ∧ (∀ fuel p s', p ∈ [0x20000128; 0x20000110] → p ≠ 0x20000110 →
     vPortFree (lab_cfg 1) fuel (lab_two 1) p = Some s' →
     recorded_size (lab_cfg 1) s' 0x20000110
     = recorded_size (lab_cfg 1) (lab_two 1) 0x20000110).
Proof.
  apply (X4_live_block_size_kept (lab_cfg 1) _ [0x20000128; 0x20000110] 0x20000110).
  - reflexivity.
  - apply lab_two_reachable. by right.
  - apply elem_of_cons. right. apply elem_of_cons. by left.
Defined.

(** ** Which block is handed out, and when none is *)

(** X5. A successful call hands out a smallest adequate block: the chosen
    block is on the free list the call finds, is at least as large as the
    adjusted request, and no free block that is large enough is smaller. *)
Theorem X5_smallest_adequate_block (cfg : Config) (s : heap) (L : list Z)
    (fuel : nat) (n : Z) (s' : heap) (p : Z) :
  cfg_ok cfg = true →
  reachable cfg s L →
  pvPortMalloc cfg fuel s n = Some (s', p) → p ≠ NULL →
  let W := adjust_size cfg (wrap n) in
  ∃ l b, free_list cfg (lazy_init cfg s) l ∧ b ∈ l ∧ p = payload cfg b
         ∧ W ≤ b.2
         ∧ ∀ c, c ∈ l → W ≤ c.2 → b.2 ≤ c.2.
Proof.
  intros Hok Hreach Hrun Hp W.
  destruct (malloc_success cfg s L fuel n s' p Hok Hreach Hrun Hp)
    as (l1 & b & l2 & A & Hinv & _ & _ & Hl1 & Hb & Hpb & _).
  fold W in Hl1, Hb. destruct Hinv as (_ & _ & Hfl & Hsorted & _).
  exists (l1 ++ b :: l2), b. split_and!; [done | | done | done |].
  { apply elem_of_app. right. apply elem_of_cons. by left. }
  unfold sorted_by_size in Hsorted.
  apply StronglySorted_app in Hsorted as (_ & _ & [Hbl _]%StronglySorted_cons).
  rewrite Forall_forall in Hl1, Hbl.
  intros c [Hc|[->|Hc]%elem_of_cons]%elem_of_app HW.
  - specialize (Hl1 c Hc). simpl in Hl1. lia.
  - lia.
  - by apply Hbl.
Qed.

(** From the free list of [lab_right_first], with blocks of 64, 208 and
    616 bytes, a request of 100 bytes (112 adjusted) is served from the block
    of 208 bytes, which is neither the first of the list nor the lowest
    adequate one by address only. *)
Lemma X5_witness :
  vPrintFreeList (lab_cfg 1) 4 lab_right_first
  = Some [(0x20000248, 64); (0x20000108, 208); (0x200002A0, 616)]
  ∧ ∃ s' p l b,
    pvPortMalloc (lab_cfg 1) 4 lab_right_first 100 = Some (s', p)
    ∧ p = 0x20000108 + heapSTRUCT_SIZE (lab_cfg 1)
    ∧ free_list (lab_cfg 1) (lazy_init (lab_cfg 1) lab_right_first) l ∧ b ∈ l
    ∧ p = payload (lab_cfg 1) b
    ∧ adjust_size (lab_cfg 1) (wrap 100) ≤ b.2
    ∧ ∀ c, c ∈ l → adjust_size (lab_cfg 1) (wrap 100) ≤ c.2 → b.2 ≤ c.2.
Proof.
  split; [vm_compute; reflexivity|].
  eexists _, _.
  assert (pvPortMalloc (lab_cfg 1) 4 lab_right_first 100
          = Some (default lab_right_first
                    (fst <$> pvPortMalloc (lab_cfg 1) 4 lab_right_first 100),
                  0x20000110)) as Hrun by (vm_compute; reflexivity).
  destruct (X5_smallest_adequate_block (lab_cfg 1) lab_right_first
              [0x20000290; 0x200001E0] 4 100 _ _
              eq_refl lab_right_first_reachable Hrun) as (l & b & H).
  { vm_compute. discriminate. }
  exists l, b. split; [exact Hrun|]. split; [vm_compute; reflexivity | exact H].
Defined.

(** X6. [pvPortMalloc] returns [NULL] exactly when the adjusted request is
    0 or not below the arena size, or when every block of the free list is
    smaller than the adjusted request: a request that some free block can
    hold is served. *)
Theorem X6_failure_iff (cfg : Config) (s : heap) (L : list Z)
    (fuel : nat) (n : Z) (s' : heap) (p : Z) :
  cfg_ok cfg = true →
  reachable cfg s L →
  pvPortMalloc cfg fuel s n = Some (s', p) →
  let W := adjust_size cfg (wrap n) in
  ∃ l, free_list cfg (lazy_init cfg s) l
       ∧ (p = NULL ↔ ¬ (0 < W < configADJUSTED_HEAP_SIZE cfg)
                      ∨ Forall (λ c : blk, c.2 < W) l).
Proof.
  intros Hok Hreach Hrun W.
  destruct (pvPortMalloc_reachable cfg Hok s L fuel n s' p Hreach Hrun)
    as (l & A & Hinv & _ & Hpost).
  fold W in Hpost. exists l. split; [by destruct Hinv as (_ & _ & ? & _)|].
  pose proof (cfg_facts cfg Hok) as (HH & _ & Hh & _).
  destruct Hpost as [(-> & _ & Hwhy)|(HW & l1 & b & l2 & -> & _ & Hb & -> & _)].
  - done.
  - destruct Hinv as (_ & _ & _ & _ & Hlay & _).
    assert (inside cfg b) as Hbi.
    { eapply layout_inside; [exact Hlay|].
      apply elem_of_app. left. apply elem_of_app. right. apply elem_of_cons. by left. }
    split.
    + unfold inside, NULL in *. lia.
    + intros [?|Hall]; [done|]. exfalso.
      apply Forall_app in Hall as [_ [Hlt _]%Forall_cons]. simpl in Hlt. lia.
Qed.

(** 700 bytes fit the arena of [lab_right_first] but none of its free
    blocks of 64, 208 and 616 bytes. *)
Lemma X6_witness :
  ∃ s' p l,
    pvPortMalloc (lab_cfg 1) 4 lab_right_first 700 = Some (s', p)
    ∧ free_list (lab_cfg 1) (lazy_init (lab_cfg 1) lab_right_first) l
    ∧ (p = NULL ↔ ¬ (0 < adjust_size (lab_cfg 1) (wrap 700)
                        < configADJUSTED_HEAP_SIZE (lab_cfg 1))
                   ∨ Forall (λ c : blk, c.2 < adjust_size (lab_cfg 1) (wrap 700)) l).
Proof.
  eexists _, _.
  assert (pvPortMalloc (lab_cfg 1) 4 lab_right_first 700 = Some (lab_right_first, NULL))
    as Hrun by (vm_compute; reflexivity).
  destruct (X6_failure_iff (lab_cfg 1) lab_right_first [0x20000290; 0x200001E0] 4 700 _ _
              eq_refl lab_right_first_reachable Hrun) as (l & H).
  exists l. split; [exact Hrun | exact H].
Defined.

(** ** The counter when a block is handed out whole *)

(** X21. When the chosen block is not split, the call hands out the whole
    block: the size recorded behind the pointer stays the size the block had
    on the free list, and the counter goes down by that size, which is more
    than the adjusted request by the slack. *)
Theorem X21_counter_decrement_unsplit (cfg : Config) (s : heap) (L : list Z)
    (fuel : nat) (n : Z) (s' : heap) (p sz : Z) :
  cfg_ok cfg = true →
  reachable cfg s L →
  pvPortMalloc cfg fuel s n = Some (s', p) → p ≠ NULL →
  recorded_size cfg (lazy_init cfg s) p = Some sz →
  sz - adjust_size cfg (wrap n) ≤ heapMINIMUM_BLOCK_SIZE cfg →
  xPortGetFreeHeapSize s' = wrap (xPortGetFreeHeapSize s - sz)
  ∧ recorded_size cfg s' p = Some sz
  ∧ adjust_size cfg (wrap n) ≤ sz.
Proof.
  intros Hok Hreach Hrun Hp Hsz Hwhole.
  destruct (malloc_success cfg s L fuel n s' p Hok Hreach Hrun Hp)
    as (l1 & b & l2 & A & Hinv & _ & HW & _ & Hb & _ & Hpb & Hbi & Hbsz & Hcase).
  unfold recorded_size, xPortGetFreeHeapSize in *. rewrite Hpb in *.
  rewrite Hbsz in Hsz. simplify_eq.
  rewrite heapMINIMUM_BLOCK_SIZE_eq in Hwhole by done.
  destruct Hcase as [(? & _)|(_ & Hinv' & Hfree)]; [lia|].
  split_and!; [done | | done].
  destruct Hinv' as (_ & _ & _ & _ & _ & HA). by apply Forall_cons in HA as [? _].
Qed.

Lemma X21_witness :
  ∃ s' p,
    pvPortMalloc (lab_cfg 1) 4 lab_heap1 980 = Some (s', p)
    ∧ xPortGetFreeHeapSize s' = wrap (xPortGetFreeHeapSize lab_heap1 - 1000)
    ∧ recorded_size (lab_cfg 1) s' p = Some 1000
    ∧ adjust_size (lab_cfg 1) (wrap 980) ≤ 1000.
Proof.
  eexists _, _. split; [vm_compute; reflexivity|].
  apply (X21_counter_decrement_unsplit (lab_cfg 1) lab_heap1 [0x20000110] 4 980 _ _ 1000).
  - reflexivity.
  - exact lab_heap1_reachable.
  - vm_compute. reflexivity.
  - vm_compute. discriminate.
  - vm_compute. reflexivity.
  - vm_compute. discriminate.
Defined.

(** ** The merge pass by cases

    What the merge pass makes of the inserted block [b] when the free list
    holds no block next to it, one on its right, one on its left. *)
Section MergeOwn.

Variables xs xe bsz : Z.

Lemma merge_own_skip osz l :
  Forall (not_adjacent xs xe) l → merge_own xs xe osz l = osz.
Proof.
  induction 1 as [|c l Hc _ IH]; simpl; [done|]. by rewrite decide_True.
Qed.

Lemma merge_own_prefix osz l l' :
  Forall (not_adjacent xs xe) l → merge_own xs xe osz (l ++ l') = merge_own xs xe osz l'.
Proof.
  induction 1 as [|c l Hc _ IH]; simpl; [done|]. by rewrite decide_True.
Qed.

Lemma merge_block_prefix ptr l l' :
  Forall (not_adjacent xs xe) l →
  merge_block xs xe bsz ptr (l ++ l') = merge_block xs xe bsz ptr l'.
Proof. intros Hl. by rewrite merge_block_app, (merge_block_skip xs xe bsz ptr l). Qed.

Lemma merge_keep_drop c l :
  ¬ not_adjacent xs xe c → merge_keep xs xe (c :: l) = merge_keep xs xe l.
Proof. intros Hc. unfold merge_keep. by rewrite filter_cons, decide_False. Qed.

End MergeOwn.

Lemma insert_block_split b l :
  ∃ l0 l1, l = l0 ++ l1 ∧ insert_block b l = l0 ++ b :: l1.
Proof.
  induction l as [|c l (l0 & l1 & -> & IH)]; simpl.
  - by exists [], [].
  - case_decide.
    + exists (c :: l0), l1. by rewrite IH.
    + by exists [], (c :: l0 ++ l1).
Qed.

(** A block taken out of a sorted list goes back where it was. *)
Lemma insert_block_back b l1 l2 :
  Forall (λ c : blk, c.2 < b.2) l1 → Forall (λ c : blk, b.2 ≤ c.2) l2 →
  insert_block b (l1 ++ l2) = l1 ++ b :: l2.
Proof.
  intros H1 H2. induction H1 as [|c l1 Hc _ IH]; simpl.
  - destruct H2 as [|c l2 Hc _]; simpl; [done|]. by rewrite decide_False by lia.
  - by rewrite decide_True, IH by done.
Qed.

Section MergeCases.

Variable cfg : Config.
Hypothesis Hok : cfg_ok cfg = true.

Variables (b : blk) (l : list blk).
Hypothesis Hlay : layout cfg (b :: l).

Lemma not_adjacent_touching d :
  d ∈ l → not_adjacent b.1 (wrap (b.1 + b.2)) d ↔ ¬ touching b d.
Proof.
  intros Hd. pose proof (cfg_facts cfg Hok) as (HH & HU & Hh & Htop & _).
  pose proof Hlay as (Hbi & _ & Hl)%layout_cons.
  pose proof (layout_inside cfg d l Hl Hd) as Hdi.
  unfold not_adjacent, touching, inside in *.
  rewrite !wrap_small by lia. split; [intros [? ?] [?|?]; lia | intros Hn; split; lia].
Qed.

(** No free block next to [b]: the pass changes nothing. *)
Lemma merge_none :
  Forall (λ d, ¬ touching b d) l →
  insert_merge cfg b l = insert_block b l ∧ own cfg b l = b.2.
Proof.
  intros Hnt. unfold insert_merge, merged, kept, own. case_decide; [|done].
  assert (Forall (not_adjacent b.1 (wrap (b.1 + b.2))) l) as Hna.
  { rewrite Forall_forall in Hnt |- *. intros d Hd. apply not_adjacent_touching; auto. }
  by rewrite merge_block_skip, merge_keep_skip, merge_own_skip.
Qed.

End MergeCases.

Section MergeOneNeighbour.

Variable cfg : Config.
Hypothesis Hok : cfg_ok cfg = true.
Hypothesis Hmerge : if_merge_mem cfg = 1.

Variables (b N : blk) (l0 l1 : list blk).
Hypothesis Hlay : layout cfg (b :: l0 ++ N :: l1).

Lemma one_neighbour_layout : layout cfg (b :: N :: l0 ++ l1).
Proof.
  eapply layout_perm; [|exact Hlay]. apply Permutation_skip.
  symmetry. apply Permutation_middle.
Qed.

(** A free block on the right only: it is unlinked and its size is added to
    the header of [b], which is the block inserted. *)
Lemma merge_right_only :
  N.1 = b.1 + b.2 →
  Forall (λ d : blk, d.1 + d.2 ≠ b.1) (l0 ++ l1) →
  insert_merge cfg b (l0 ++ N :: l1) = insert_block (b.1, b.2 + N.2) (l0 ++ l1)
  ∧ own cfg b (l0 ++ N :: l1) = b.2 + N.2.
Proof.
  intros HN Hleft. pose proof (cfg_facts cfg Hok) as (HH & HU & Hh & Htop & _).
  pose proof one_neighbour_layout as (Hbi & HbN & (HNi & HNl & Hl)%layout_cons)%layout_cons.
  apply Forall_cons in HbN as [HbN Hbl].
  assert (wrap (b.1 + b.2) = b.1 + b.2) as Hwb by (unfold inside in Hbi; apply wrap_small; lia).
  assert (Forall (not_adjacent b.1 (wrap (b.1 + b.2))) (l0 ++ l1)) as Hna.
  { rewrite Forall_forall in Hleft, HNl, Hbl |- *. intros d Hd.
    specialize (Hleft d Hd). specialize (HNl d Hd). specialize (Hbl d Hd).
    pose proof (layout_inside cfg d _ Hl Hd) as Hdi.
    unfold not_adjacent, apart, inside in *. rewrite !wrap_small by lia. lia. }
  apply Forall_app in Hna as [Hna0 Hna1].
  assert (¬ not_adjacent b.1 (wrap (b.1 + b.2)) N) as HnN.
  { unfold not_adjacent. rewrite Hwb. intros [_ ?]. done. }
  assert (b.1 ≠ wrap (N.1 + N.2)) as HNl'.
  { unfold inside in *. rewrite wrap_small; lia. }
  assert (wrap (b.2 + N.2) = b.2 + N.2) as Hsum.
  { unfold inside in *. apply wrap_small. lia. }
  unfold insert_merge, merged, kept, own. rewrite !decide_True by done.
  rewrite merge_block_prefix, merge_keep_app, merge_own_prefix, merge_keep_drop by done.
  simpl. rewrite !(decide_False (P := not_adjacent _ _ N)) by done.
  rewrite !(decide_False (P := b.1 = wrap (N.1 + N.2))) by done.
  rewrite merge_block_skip, !merge_keep_skip, merge_own_skip by done.
  by rewrite Hsum.
Qed.

(** A free block on the left only: [pxBlockPtr] moves to it, its header
    gets the sum, and the header of [b] is left as it was. *)
Lemma merge_left_only :
  N.1 + N.2 = b.1 →
  Forall (λ d : blk, d.1 ≠ b.1 + b.2) (l0 ++ l1) →
  insert_merge cfg b (l0 ++ N :: l1) = insert_block (N.1, N.2 + b.2) (l0 ++ l1)
  ∧ own cfg b (l0 ++ N :: l1) = b.2.
Proof.
  intros HN Hright. pose proof (cfg_facts cfg Hok) as (HH & HU & Hh & Htop & _).
  pose proof one_neighbour_layout as (Hbi & HbN & (HNi & HNl & Hl)%layout_cons)%layout_cons.
  apply Forall_cons in HbN as [HbN Hbl].
  assert (wrap (b.1 + b.2) = b.1 + b.2) as Hwb by (unfold inside in Hbi; apply wrap_small; lia).
  assert (Forall (not_adjacent b.1 (wrap (b.1 + b.2))) (l0 ++ l1)) as Hna.
  { rewrite Forall_forall in Hright, HNl, Hbl |- *. intros d Hd.
    specialize (Hright d Hd). specialize (HNl d Hd). specialize (Hbl d Hd).
    pose proof (layout_inside cfg d _ Hl Hd) as Hdi.
    unfold not_adjacent, apart, inside in *. rewrite !wrap_small by lia. lia. }
  apply Forall_app in Hna as [Hna0 Hna1].
  assert (b.1 = wrap (N.1 + N.2)) as HNl'.
  { unfold inside in *. rewrite wrap_small; lia. }
  assert (¬ not_adjacent b.1 (wrap (b.1 + b.2)) N) as HnN.
  { unfold not_adjacent. intros [? _]. done. }
  assert (wrap (N.2 + b.2) = N.2 + b.2) as Hsum.
  { unfold inside in *. apply wrap_small. lia. }
  unfold insert_merge, merged, kept, own. rewrite !decide_True by done.
  rewrite merge_block_prefix, merge_keep_app, merge_own_prefix, merge_keep_drop by done.
  simpl. rewrite !(decide_False (P := not_adjacent _ _ N)) by done.
  rewrite !(decide_True (P := b.1 = wrap (N.1 + N.2))) by done.
  rewrite merge_block_skip, !merge_keep_skip by done.
  by rewrite Hsum.
Qed.

End MergeOneNeighbour.

Section MergeTwoNeighbours.

Variable cfg : Config.
Hypothesis Hok : cfg_ok cfg = true.
Hypothesis Hmerge : if_merge_mem cfg = 1.

Variables (b L R : blk) (l0 l1 l2 : list blk).
Hypothesis HL : L.1 + L.2 = b.1.
Hypothesis HR : R.1 = b.1 + b.2.

(** The left neighbour first: the block that results has the three sizes,
    and the header of [b] keeps the size of [b]. *)
Lemma merge_left_first :
  layout cfg (b :: l0 ++ L :: l1 ++ R :: l2) →
  insert_merge cfg b (l0 ++ L :: l1 ++ R :: l2)
  = insert_block (L.1, L.2 + b.2 + R.2) (l0 ++ l1 ++ l2)
  ∧ own cfg b (l0 ++ L :: l1 ++ R :: l2) = b.2.
Proof.
  intros Hlay.
  assert (layout cfg (b :: L :: R :: l0 ++ l1 ++ l2)) as Hlay'.
  { eapply layout_perm; [|exact Hlay]. apply Permutation_skip.
    rewrite <- (Permutation_middle l1 l2 R).
    rewrite <- (Permutation_middle l0 (R :: l1 ++ l2) L).
    by rewrite <- (Permutation_middle l0 (l1 ++ l2) R). }
  pose proof (others_not_adjacent cfg Hok b L R _ Hlay' HL HR) as Hothers.
  pose proof (neighbours_adjacent cfg Hok b L R _ Hlay' HL HR) as (H1 & H2 & H3 & _ & H5).
  destruct (merge_left_then_right b.1 (wrap (b.1 + b.2)) b.2 L R H1 H2 H3 b l0 l1 l2 Hothers)
    as [Hblock Hkeep].
  unfold insert_merge, merged, kept, own. rewrite !decide_True by done.
  rewrite Hblock, Hkeep, H5. split; [done|].
  apply Forall_app in Hothers as [H0 _].
  rewrite merge_own_prefix by done. simpl.
  rewrite decide_False by (by apply left_adjacent).
  by rewrite decide_True.
Qed.

(** The right neighbour first: its size goes to the header of [b] and is
    not in the block that results. *)
Lemma merge_right_first :
  layout cfg (b :: l0 ++ R :: l1 ++ L :: l2) →
  insert_merge cfg b (l0 ++ R :: l1 ++ L :: l2)
  = insert_block (L.1, L.2 + b.2) (l0 ++ l1 ++ l2)
  ∧ own cfg b (l0 ++ R :: l1 ++ L :: l2) = b.2 + R.2.
Proof.
  intros Hlay.
  assert (layout cfg (b :: L :: R :: l0 ++ l1 ++ l2)) as Hlay'.
  { eapply layout_perm; [|exact Hlay]. apply Permutation_skip.
    rewrite <- (Permutation_middle l1 l2 L).
    rewrite <- (Permutation_middle l0 (L :: l1 ++ l2) R).
    rewrite <- (Permutation_middle l0 (l1 ++ l2) L).
    apply Permutation_swap. }
  pose proof (others_not_adjacent cfg Hok b L R _ Hlay' HL HR) as Hothers.
  pose proof (neighbours_adjacent cfg Hok b L R _ Hlay' HL HR) as (H1 & H2 & H3 & H4 & _).
  destruct (merge_right_then_left b.1 (wrap (b.1 + b.2)) b.2 L R H1 H2 H3 b l0 l1 l2 Hothers)
    as [Hblock Hkeep].
  unfold insert_merge, merged, kept, own. rewrite !decide_True by done.
  rewrite Hblock, Hkeep, H4. split; [done|].
  apply Forall_app in Hothers as [H0 [H1' _]%Forall_app].
  pose proof Hlay' as (Hbi & [_ [HbR _]%Forall_cons]%Forall_cons & _)%layout_cons.
  pose proof Hlay' as (_ & _ & (_ & _ & (HRi & _)%layout_cons)%layout_cons)%layout_cons.
  pose proof (cfg_facts cfg Hok) as (HH & HU & Hh & Htop & _).
  rewrite merge_own_prefix by done. simpl.
  rewrite decide_False by (by apply (right_adjacent b.1 (wrap (b.1 + b.2)) R)).
  rewrite decide_False by done.
  rewrite merge_own_prefix by done. simpl.
  rewrite decide_False by (by apply left_adjacent).
  rewrite decide_True by done.
  unfold inside in *. apply wrap_small. lia.
Qed.

End MergeTwoNeighbours.

(** ** What a call of [vPortFree] does *)

Lemma free_effect cfg s L1 p L2 fuel s' :
  cfg_ok cfg = true →
  reachable cfg s (L1 ++ p :: L2) →
  vPortFree cfg fuel s p = Some s' →
  ∃ l A1 b A2,
    heap_inv cfg s l (A1 ++ b :: A2)
    ∧ L1 = payload cfg <$> A1 ∧ L2 = payload cfg <$> A2
    ∧ b = (p - heapSTRUCT_SIZE cfg, b.2)
    ∧ recorded_size cfg s p = Some b.2
    ∧ layout cfg (b :: l ++ A1 ++ A2)
    ∧ heap_inv cfg s' (insert_merge cfg b l) (A1 ++ A2)
    ∧ xFreeBytesRemaining s' = wrap (xFreeBytesRemaining s + own cfg b l).
Proof.
  intros Hok Hreach Hrun.
  destruct (reachable_inv cfg Hok _ _ Hreach) as [[_ Heq]|(l & A & Hinv & Heq)];
    [by destruct L1|].
  symmetry in Heq. apply fmap_app_inv in Heq as (A1 & A2' & HL1 & Heq & ->).
  symmetry in Heq. apply fmap_cons_inv in Heq as (b & A2 & -> & HL2 & ->).
  destruct (vPortFree_inv cfg Hok _ _ _ _ _ _ _ Hinv Hrun) as [Hinv' Hfree'].
  pose proof Hinv as (_ & _ & Hfl & _ & Hlay & HA).
  pose proof (cfg_facts cfg Hok) as (HH & HU & Hh & Htop & _).
  assert (layout cfg (b :: l ++ A1 ++ A2)) as Hlayb.
  { eapply layout_perm; [|exact Hlay].
    rewrite <- (Permutation_middle A1 A2 b). symmetry. apply Permutation_middle. }
  pose proof Hlayb as (Hbi & _)%layout_cons.
  assert (xBlockSize s !! b.1 = Some b.2) as Hbsz.
  { rewrite Forall_forall in HA. apply HA, elem_of_app. right. apply elem_of_cons. by left. }
  exists l, A1, b, A2. split_and!; try done.
  - unfold payload. destruct b as [a sz]. simpl. f_equal. lia.
  - unfold recorded_size, payload.
    replace (b.1 + heapSTRUCT_SIZE cfg - heapSTRUCT_SIZE cfg) with b.1 by lia.
    rewrite wrap_small by (unfold inside in Hbi; lia). done.
Qed.

(** The counter stays a [size_t]. *)
Lemma reachable_counter_range cfg s L :
  cfg_ok cfg = true → reachable cfg s L → 0 ≤ xFreeBytesRemaining s < 2 ^ 32.
Proof.
  intros Hok. pose proof (cfg_facts cfg Hok) as (HH & HU & Hh & Htop & _).
  induction 1 as [|s L fuel n s' p Hreach IH Hrun|s L1 p L2 fuel s' Hreach IH Hrun|s L fuel s' _ IH Hrun].
  - simpl. lia.
  - destruct (pvPortMalloc_reachable cfg Hok s L fuel n s' p Hreach Hrun)
      as (l & A & _ & _ & Hpost).
    destruct Hpost as [(_ & -> & _)|(_ & l1 & b & l2 & _ & _ & _ & _ & Hcase)].
    + by rewrite lazy_init_free.
    + destruct Hcase as [(_ & _ & ->)|(_ & _ & ->)]; apply wrap_range.
  - destruct (free_effect cfg s L1 p L2 fuel s' Hok Hreach Hrun)
      as (l & A1 & b & A2 & _ & _ & _ & _ & _ & _ & _ & ->).
    apply wrap_range.
  - rewrite vPortFree_null in Hrun. by simplify_eq.
Qed.

Lemma vPrintFreeList_free_list cfg fuel s l :
  vPrintFreeList cfg fuel s = Some l → free_list cfg s l.
Proof.
  unfold vPrintFreeList, free_list. intros Hrun.
  destruct (pxNextFreeBlock s !! addr_xStart cfg) as [p|]; [|done].
  exists p. split; [done|]. by eapply chain_free_list_from.
Qed.

Lemma free_effect_on cfg s L1 p L2 fuel s' l sz :
  cfg_ok cfg = true →
  reachable cfg s (L1 ++ p :: L2) →
  vPortFree cfg fuel s p = Some s' →
  free_list cfg s l → recorded_size cfg s p = Some sz →
  let b := (p - heapSTRUCT_SIZE cfg, sz) in
  layout cfg (b :: l)
  ∧ free_list cfg s' (insert_merge cfg b l)
  ∧ xPortGetFreeHeapSize s' = wrap (xPortGetFreeHeapSize s + own cfg b l).
Proof.
  intros Hok Hreach Hrun Hfl Hsz b.
  destruct (free_effect cfg s L1 p L2 fuel s' Hok Hreach Hrun)
    as (l' & A1 & b' & A2 & Hinv & _ & _ & Hb & Hsz' & Hlay & Hinv' & Hcnt).
  pose proof Hinv as (_ & _ & Hfl' & _).
  rewrite (free_list_det cfg s l' l Hfl' Hfl) in *.
  rewrite Hsz in Hsz'. simplify_eq. rewrite Hb in *. fold b in Hlay, Hinv', Hcnt.
  split_and!; [|by destruct Hinv' as (_ & _ & ? & _)|done].
  apply layout_cons in Hlay as (Hbi & Hbl & [Hl _]%layout_app).
  apply Forall_app in Hbl as [Hbl _]. by apply layout_cons.
Qed.

(** X7. With merging disabled, or when no free block starts where the
    freed block ends or ends where it starts, [vPortFree] links the block
    before the first free block that is not smaller, leaves the other blocks
    of the list as they are, and adds the size of the block to the
    counter. *)
Theorem X7_free_without_free_neighbour (cfg : Config) (s : heap) (L1 L2 : list Z)
    (p : Z) (fuel : nat) (s' : heap) (l : list blk) (sz : Z) :
  cfg_ok cfg = true →
  reachable cfg s (L1 ++ p :: L2) →
  vPortFree cfg fuel s p = Some s' →
  free_list cfg s l → recorded_size cfg s p = Some sz →
  if_merge_mem cfg ≠ 1
  ∨ Forall (λ d : blk, ¬ touching (p - heapSTRUCT_SIZE cfg, sz) d) l →
  free_list cfg s' (insert_block (p - heapSTRUCT_SIZE cfg, sz) l)
  ∧ xPortGetFreeHeapSize s' = wrap (xPortGetFreeHeapSize s + sz).
Proof.
  intros Hok Hreach Hrun Hfl Hsz Hcase.
  destruct (free_effect_on cfg s L1 p L2 fuel s' l sz Hok Hreach Hrun Hfl Hsz)
    as (Hlay & Hfl' & Hcnt).
  destruct Hcase as [Hoff|Hnt].
  - by rewrite insert_merge_off, own_off in *.
  - destruct (merge_none cfg Hok _ l Hlay Hnt) as [Heq Hown].
    by rewrite Heq, Hown in *.
Qed.

(** X8. Merging enabled, a free block [R] starts where the freed block
    ends, and no free block ends where the freed block starts: [R] is
    unlinked and the freed block is linked with the two sizes.  The counter
    grows by the two sizes, although the bytes of [R] were already in it. *)
Theorem X8_free_with_right_neighbour (cfg : Config) (s : heap) (L1 L2 : list Z)
    (p : Z) (fuel : nat) (s' : heap) (l0 l1 : list blk) (R : blk) (sz : Z) :
  cfg_ok cfg = true → if_merge_mem cfg = 1 →
  reachable cfg s (L1 ++ p :: L2) →
  vPortFree cfg fuel s p = Some s' →
  free_list cfg s (l0 ++ R :: l1) → recorded_size cfg s p = Some sz →
  R.1 = p - heapSTRUCT_SIZE cfg + sz →
  Forall (λ d : blk, d.1 + d.2 ≠ p - heapSTRUCT_SIZE cfg) (l0 ++ l1) →
  free_list cfg s' (insert_block (p - heapSTRUCT_SIZE cfg, sz + R.2) (l0 ++ l1))
  ∧ xPortGetFreeHeapSize s' = wrap (xPortGetFreeHeapSize s + (sz + R.2)).
Proof.
  intros Hok Hm Hreach Hrun Hfl Hsz HR Hleft.
  destruct (free_effect_on cfg s L1 p L2 fuel s' _ sz Hok Hreach Hrun Hfl Hsz)
    as (Hlay & Hfl' & Hcnt).
  destruct (merge_right_only cfg Hok Hm _ R l0 l1 Hlay HR Hleft) as [Heq Hown].
  by rewrite Heq, Hown in *.
Qed.

(** X9. Merging enabled, a free block [N] ends where the freed block
    starts, and no free block starts where the freed block ends: [N] is
    unlinked and linked again with the two sizes, and the counter grows by
    the size of the freed block. *)
Theorem X9_free_with_left_neighbour (cfg : Config) (s : heap) (L1 L2 : list Z)
    (p : Z) (fuel : nat) (s' : heap) (l0 l1 : list blk) (N : blk) (sz : Z) :
  cfg_ok cfg = true → if_merge_mem cfg = 1 →
  reachable cfg s (L1 ++ p :: L2) →
  vPortFree cfg fuel s p = Some s' →
  free_list cfg s (l0 ++ N :: l1) → recorded_size cfg s p = Some sz →
  N.1 + N.2 = p - heapSTRUCT_SIZE cfg →
  Forall (λ d : blk, d.1 ≠ p - heapSTRUCT_SIZE cfg + sz) (l0 ++ l1) →
  free_list cfg s' (insert_block (N.1, N.2 + sz) (l0 ++ l1))
  ∧ xPortGetFreeHeapSize s' = wrap (xPortGetFreeHeapSize s + sz).
Proof.
  intros Hok Hm Hreach Hrun Hfl Hsz HN Hright.
  destruct (free_effect_on cfg s L1 p L2 fuel s' _ sz Hok Hreach Hrun Hfl Hsz)
    as (Hlay & Hfl' & Hcnt).
  destruct (merge_left_only cfg Hok Hm _ N l0 l1 Hlay HN Hright) as [Heq Hown].
  by rewrite Heq, Hown in *.
Qed.

(** X10. Merging enabled, free blocks on both sides of the freed block, the
    left one [N] before the right one [R] in the list: both are unlinked,
    one block with the three sizes is linked, and the counter grows by the
    size of the freed block. *)
Theorem X10_free_between_left_first (cfg : Config) (s : heap) (L1 L2 : list Z)
    (p : Z) (fuel : nat) (s' : heap) (l0 l1 l2 : list blk) (N R : blk) (sz : Z) :
  cfg_ok cfg = true → if_merge_mem cfg = 1 →
  reachable cfg s (L1 ++ p :: L2) →
  vPortFree cfg fuel s p = Some s' →
  free_list cfg s (l0 ++ N :: l1 ++ R :: l2) → recorded_size cfg s p = Some sz →
  N.1 + N.2 = p - heapSTRUCT_SIZE cfg →
  R.1 = p - heapSTRUCT_SIZE cfg + sz →
  free_list cfg s' (insert_block (N.1, N.2 + sz + R.2) (l0 ++ l1 ++ l2))
  ∧ xPortGetFreeHeapSize s' = wrap (xPortGetFreeHeapSize s + sz).
Proof.
  intros Hok Hm Hreach Hrun Hfl Hsz HN HR.
  destruct (free_effect_on cfg s L1 p L2 fuel s' _ sz Hok Hreach Hrun Hfl Hsz)
    as (Hlay & Hfl' & Hcnt).
  destruct (merge_left_first cfg Hok Hm (p - heapSTRUCT_SIZE cfg, sz) N R l0 l1 l2 HN HR Hlay) as [Heq Hown].
  by rewrite Heq, Hown in *.
Qed.

(** X11. Merging enabled, free blocks on both sides of the freed block, the
    right one [R] before the left one [N] in the list: both are unlinked,
    but the block that is linked has the sizes of [N] and of the freed block
    only, so the bytes of [R] are in no block any more; the counter grows by
    the sizes of the freed block and of [R]. *)
Theorem X11_free_between_right_first (cfg : Config) (s : heap) (L1 L2 : list Z)
    (p : Z) (fuel : nat) (s' : heap) (l0 l1 l2 : list blk) (N R : blk) (sz : Z) :
  cfg_ok cfg = true → if_merge_mem cfg = 1 →
  reachable cfg s (L1 ++ p :: L2) →
  vPortFree cfg fuel s p = Some s' →
  free_list cfg s (l0 ++ R :: l1 ++ N :: l2) → recorded_size cfg s p = Some sz →
  N.1 + N.2 = p - heapSTRUCT_SIZE cfg →
  R.1 = p - heapSTRUCT_SIZE cfg + sz →
  free_list cfg s' (insert_block (N.1, N.2 + sz) (l0 ++ l1 ++ l2))
  ∧ xPortGetFreeHeapSize s' = wrap (xPortGetFreeHeapSize s + (sz + R.2)).
Proof.
  intros Hok Hm Hreach Hrun Hfl Hsz HN HR.
  destruct (free_effect_on cfg s L1 p L2 fuel s' _ sz Hok Hreach Hrun Hfl Hsz)
    as (Hlay & Hfl' & Hcnt).
  destruct (merge_right_first cfg Hok Hm (p - heapSTRUCT_SIZE cfg, sz) N R l0 l1 l2 HN HR Hlay) as [Heq Hown].
  by rewrite Heq, Hown in *.
Qed.

Lemma X7_witness :
  ∃ s', vPortFree (lab_cfg 0) 4 (lab_two 0) 0x20000110 = Some s'
        ∧ free_list (lab_cfg 0) s'
            (insert_block (0x20000110 - heapSTRUCT_SIZE (lab_cfg 0), 24) [(0x20000190, 888)])
        ∧ xPortGetFreeHeapSize s' = wrap (xPortGetFreeHeapSize (lab_two 0) + 24).
Proof.
  eexists. split; [vm_compute; reflexivity|].
  apply (X7_free_without_free_neighbour (lab_cfg 0) (lab_two 0) [0x20000128] []
           0x20000110 4 _ [(0x20000190, 888)] 24).
  - reflexivity.
  - apply lab_two_reachable. by left.
  - vm_compute. reflexivity.
  - apply (vPrintFreeList_free_list _ 4). vm_compute. reflexivity.
  - vm_compute. reflexivity.
  - left. simpl. lia.
Defined.

Lemma X8_witness :
  ∃ s', vPortFree (lab_cfg 1) 4 (lab_two 1) 0x20000128 = Some s'
        ∧ free_list (lab_cfg 1) s'
            (insert_block (0x20000128 - heapSTRUCT_SIZE (lab_cfg 1), 112 + 888) ([] ++ []))
        ∧ xPortGetFreeHeapSize s' = wrap (xPortGetFreeHeapSize (lab_two 1) + (112 + 888)).
Proof.
  eexists. split; [vm_compute; reflexivity|].
  apply (X8_free_with_right_neighbour (lab_cfg 1) (lab_two 1) [] [0x20000110]
           0x20000128 4 _ [] [] (0x20000190, 888) 112).
  - reflexivity.
  - reflexivity.
  - apply lab_two_reachable. by right.
  - vm_compute. reflexivity.
  - apply (vPrintFreeList_free_list _ 4). vm_compute. reflexivity.
  - vm_compute. reflexivity.
  - vm_compute. reflexivity.
  - simpl. apply Forall_nil_2.
Defined.

Lemma X9_witness :
  ∃ s', vPortFree (lab_cfg 1) 4 lab_gap 0x20000128 = Some s'
        ∧ free_list (lab_cfg 1) s'
            (insert_block (0x20000108, 24 + 112) ([] ++ [(0x200001B8, 848)]))
        ∧ xPortGetFreeHeapSize s' = wrap (xPortGetFreeHeapSize lab_gap + 112).
Proof.
  eexists. split; [vm_compute; reflexivity|].
  apply (X9_free_with_left_neighbour (lab_cfg 1) lab_gap [0x20000198] []
           0x20000128 4 _ [] [(0x200001B8, 848)] (0x20000108, 24) 112).
  - reflexivity.
  - reflexivity.
  - exact lab_gap_reachable.
  - vm_compute. reflexivity.
  - apply (vPrintFreeList_free_list _ 4). vm_compute. reflexivity.
  - vm_compute. reflexivity.
  - vm_compute. reflexivity.
  - simpl. apply Forall_cons. split; [vm_compute; discriminate | apply Forall_nil_2].
Defined.

Lemma X10_witness :
  ∃ s', vPortFree (lab_cfg 1) 4 lab_left_first 0x20000150 = Some s'
        ∧ free_list (lab_cfg 1) s'
            (insert_block (0x20000108, 64 + 112 + 208) ([] ++ [] ++ [(0x200002A0, 616)]))
        ∧ xPortGetFreeHeapSize s' = wrap (xPortGetFreeHeapSize lab_left_first + 112).
Proof.
  eexists. split; [vm_compute; reflexivity|].
  apply (X10_free_between_left_first (lab_cfg 1) lab_left_first [0x20000290] []
           0x20000150 4 _ [] [] [(0x200002A0, 616)] (0x20000108, 64) (0x200001B8, 208) 112).
  - reflexivity.
  - reflexivity.
  - exact lab_left_first_reachable.
  - vm_compute. reflexivity.
  - apply (vPrintFreeList_free_list _ 4). vm_compute. reflexivity.
  - vm_compute. reflexivity.
  - vm_compute. reflexivity.
  - vm_compute. reflexivity.
Defined.

Lemma X11_witness :
  ∃ s', vPortFree (lab_cfg 1) 4 lab_right_first 0x200001E0 = Some s'
        ∧ free_list (lab_cfg 1) s'
            (insert_block (0x20000108, 208 + 112) ([] ++ [] ++ [(0x200002A0, 616)]))
        ∧ xPortGetFreeHeapSize s' = wrap (xPortGetFreeHeapSize lab_right_first + (112 + 64)).
Proof.
  eexists. split; [vm_compute; reflexivity|].
  apply (X11_free_between_right_first (lab_cfg 1) lab_right_first [0x20000290] []
           0x200001E0 4 _ [] [] [(0x200002A0, 616)] (0x20000108, 208) (0x20000248, 64) 112).
  - reflexivity.
  - reflexivity.
  - exact lab_right_first_reachable.
  - vm_compute. reflexivity.
  - apply (vPrintFreeList_free_list _ 4). vm_compute. reflexivity.
  - vm_compute. reflexivity.
  - vm_compute. reflexivity.
  - vm_compute. reflexivity.
Defined.

(** ** Conservation and round trips *)

(** X12. With merging disabled, in every initialised state reached by calls
    of the interface the counter is the sum of the sizes of the free blocks,
    and the free blocks and the live blocks together make up the arena. *)
Theorem X12_conservation_without_merging (cfg : Config) (s : heap) (L : list Z) :
  cfg_ok cfg = true → if_merge_mem cfg ≠ 1 →
  reachable cfg s L →
  xHeapHasBeenInitialised s = true →
  ∃ l A, free_list cfg s l ∧ live_blocks cfg s L = Some A
         ∧ xPortGetFreeHeapSize s = bytes l
         ∧ bytes l + bytes A = configADJUSTED_HEAP_SIZE cfg.
Proof.
  intros Hok Hm Hreach Hi.
  destruct (conservation_without_merging cfg Hok Hm s L Hreach)
    as (l & A & Hinv & -> & Hfree & Hsum).
  assert (lazy_init cfg s = s) as Hlazy by (unfold lazy_init; by rewrite Hi).
  rewrite Hlazy in Hinv. exists l, A.
  split_and!; [by destruct Hinv as (_ & _ & ? & _) | by eapply live_blocks_inv | done | lia].
Qed.

Lemma X12_witness :
  ∃ l A, free_list (lab_cfg 0) (lab_two 0) l
         ∧ live_blocks (lab_cfg 0) (lab_two 0) [0x20000128; 0x20000110] = Some A
         ∧ xPortGetFreeHeapSize (lab_two 0) = bytes l
         ∧ bytes l + bytes A = configADJUSTED_HEAP_SIZE (lab_cfg 0).
Proof.
  apply (X12_conservation_without_merging (lab_cfg 0) (lab_two 0) [0x20000128; 0x20000110]).
  - reflexivity.
  - simpl. lia.
  - apply lab_two_reachable. by left.
  - vm_compute. reflexivity.
Defined.

Lemma wrap_sub_add c x : 0 ≤ c < 2 ^ 32 → wrap (wrap (c - x) + x) = c.
Proof.
  intros Hc. unfold wrap. rewrite Z.add_mod_idemp_l by lia.
  replace (c - x + x) with c by lia. by apply Z.mod_small.
Qed.

Lemma wrap_add_l x y : wrap (wrap x + y) = wrap (x + y).
Proof. unfold wrap. by rewrite Z.add_mod_idemp_l by lia. Qed.

(** The block a successful call chose goes back to its place in the list. *)
Lemma chosen_block_back (l1 l2 : list blk) (b : blk) (W : Z) :
  sorted_by_size (l1 ++ b :: l2) → Forall (λ c : blk, c.2 < W) l1 → W ≤ b.2 →
  insert_block b (l1 ++ l2) = l1 ++ b :: l2.
Proof.
  intros Hs Hl1 Hb. unfold sorted_by_size in Hs.
  apply StronglySorted_app in Hs as (_ & _ & [Hbl _]%StronglySorted_cons).
  apply insert_block_back; [|done].
  eapply Forall_impl; [exact Hl1|]. simpl. intros; lia.
Qed.

(** X13. With merging disabled, allocating and freeing the result at once
    restores the counter, in every state reached by calls of the interface.
    The free list is the one the call found when the block was handed out
    whole; after a split the two halves are linked as two blocks, each at
    its place by size. *)
Theorem X13_round_trip_without_merging (cfg : Config) (s : heap) (L : list Z)
    (fuel fuel' : nat) (n : Z) (s1 s2 : heap) (p : Z) :
  cfg_ok cfg = true → if_merge_mem cfg ≠ 1 →
  reachable cfg s L →
  pvPortMalloc cfg fuel s n = Some (s1, p) → p ≠ NULL →
  vPortFree cfg fuel' s1 p = Some s2 →
  let W := adjust_size cfg (wrap n) in
  xPortGetFreeHeapSize s2 = xPortGetFreeHeapSize s
  ∧ ∃ l1 b l2,
      free_list cfg (lazy_init cfg s) (l1 ++ b :: l2) ∧ p = payload cfg b
      ∧ if decide (b.2 - W > 2 * heapSTRUCT_SIZE cfg)
        then free_list cfg s2
               (insert_block (b.1, W) (insert_block (b.1 + W, b.2 - W) (l1 ++ l2)))
        else free_list cfg s2 (l1 ++ b :: l2).
Proof.
  intros Hok Hm Hreach Hrun Hp Hfree W.
  destruct (malloc_success cfg s L fuel n s1 p Hok Hreach Hrun Hp)
    as (l1 & b & l2 & A & Hinv & _ & HW & Hl1 & Hb & Hpb & _ & Hbi & _ & Hcase).
  fold W in HW, Hl1, Hb, Hcase.
  pose proof (reachable_counter_range cfg s L Hok Hreach) as Hc.
  pose proof Hinv as (_ & _ & Hfl & Hsorted & _).
  unfold xPortGetFreeHeapSize.
  destruct Hcase as [(Hsplit & Hinv1 & Hfree1)|(Hsplit & Hinv1 & Hfree1)].
  - assert (p = payload cfg (b.1, W)) as Hpw by (by rewrite Hpb).
    rewrite Hpw in Hfree.
    destruct (vPortFree_inv cfg Hok fuel' s1 _ [] (b.1, W) A s2 Hinv1 Hfree)
      as [Hinv2 Hfree2].
    rewrite !insert_merge_off in Hinv2 by done. rewrite own_off in Hfree2 by done.
    simpl in Hfree2. rewrite Hfree1 in Hfree2.
    split; [by rewrite Hfree2, wrap_sub_add|].
    exists l1, b, l2. rewrite decide_True by lia.
    split_and!; [done..|]. by destruct Hinv2 as (_ & _ & ? & _).
  - rewrite Hpb in Hfree.
    destruct (vPortFree_inv cfg Hok fuel' s1 _ [] b A s2 Hinv1 Hfree)
      as [Hinv2 Hfree2].
    rewrite insert_merge_off in Hinv2 by done. rewrite own_off in Hfree2 by done.
    rewrite Hfree1 in Hfree2.
    split; [by rewrite Hfree2, wrap_sub_add|].
    exists l1, b, l2. rewrite decide_False by lia.
    split_and!; [done..|].
    rewrite (chosen_block_back l1 l2 b W) in Hinv2 by done.
    by destruct Hinv2 as (_ & _ & ? & _).
Qed.

Lemma X13_witness :
  ∃ s1 p s2,
    pvPortMalloc (lab_cfg 0) 4 (lab_two 0) 32 = Some (s1, p)
    ∧ vPortFree (lab_cfg 0) 4 s1 p = Some s2
    ∧ xPortGetFreeHeapSize s2 = xPortGetFreeHeapSize (lab_two 0).
Proof.
  eexists _, _, _. split; [vm_compute; reflexivity|]. split; [vm_compute; reflexivity|].
  eapply (X13_round_trip_without_merging (lab_cfg 0) (lab_two 0) [0x20000128; 0x20000110]
           4 4 32 _ _ 0x20000198).
  - reflexivity.
  - simpl. lia.
  - apply lab_two_reachable. by left.
  - vm_compute. reflexivity.
  - vm_compute. discriminate.
  - vm_compute. reflexivity.
Defined.

(** X14. With merging enabled, allocating and freeing the result at once
    restores the free list, in every state reached by calls of the interface.
    The counter is restored when the block was handed out whole; after a
    split it ends higher than it was by the size of the remainder, which the
    merge pass had added to the freed header. *)
Theorem X14_round_trip_with_merging (cfg : Config) (s : heap) (L : list Z)
    (fuel fuel' : nat) (n : Z) (s1 s2 : heap) (p : Z) :
  cfg_ok cfg = true → if_merge_mem cfg = 1 →
  reachable cfg s L →
  pvPortMalloc cfg fuel s n = Some (s1, p) → p ≠ NULL →
  vPortFree cfg fuel' s1 p = Some s2 →
  let W := adjust_size cfg (wrap n) in
  ∃ l sz,
    free_list cfg (lazy_init cfg s) l
    ∧ recorded_size cfg (lazy_init cfg s) p = Some sz
    ∧ free_list cfg s2 l
    ∧ xPortGetFreeHeapSize s2
      = if decide (sz - W > 2 * heapSTRUCT_SIZE cfg)
        then wrap (xPortGetFreeHeapSize s + (sz - W))
        else xPortGetFreeHeapSize s.
Proof.
  intros Hok Hm Hreach Hrun Hp Hfree W.
  destruct (malloc_success cfg s L fuel n s1 p Hok Hreach Hrun Hp)
    as (l1 & b & l2 & A & Hinv & _ & HW & Hl1 & Hb & Hpb & Hwp & Hbi & Hbsz & Hcase).
  fold W in HW, Hl1, Hb, Hcase.
  pose proof (reachable_counter_range cfg s L Hok Hreach) as Hc.
  pose proof (cfg_facts cfg Hok) as (HH & HU & Hh & Htop & _).
  pose proof Hinv as (_ & _ & Hfl & Hsorted & Hlay & _).
  assert (no_touch (l1 ++ b :: l2)) as Hnt.
  { destruct (no_adjacent_free_blocks cfg Hok s L Hm Hreach) as (l' & A' & Hinv0 & _ & Hnt).
    destruct Hinv0 as (_ & _ & Hfl0 & _).
    by rewrite (free_list_det cfg _ _ _ Hfl0 Hfl) in Hnt. }
  assert (no_touch (b :: l1 ++ l2)) as [Hbt _].
  { eapply (pairwise_perm _ not_touching_sym); [|exact Hnt].
    symmetry. apply Permutation_middle. }
  assert (layout cfg (b :: (l1 ++ l2) ++ A)) as Hlayb.
  { eapply layout_perm; [|exact Hlay]. rewrite <- !app_assoc. simpl.
    symmetry. apply Permutation_middle. }
  exists (l1 ++ b :: l2), b.2. unfold recorded_size, xPortGetFreeHeapSize.
  rewrite Hwp. split_and!; [done..| |].
  - destruct Hcase as [(Hsplit & Hinv1 & Hfree1)|(Hsplit & Hinv1 & Hfree1)].
    + rewrite (remainder_insert_merge cfg Hok b W l1 l2 A) in Hinv1 by (done || lia).
      destruct (insert_block_split (b.1 + W, b.2 - W) (l1 ++ l2)) as (k0 & k1 & Hk & Hins).
      assert (p = payload cfg (b.1, W)) as Hpw by (by rewrite Hpb).
      rewrite Hpw in Hfree.
      destruct (vPortFree_inv cfg Hok fuel' s1 _ [] (b.1, W) A s2 Hinv1 Hfree)
        as [Hinv2 _].
      destruct Hinv1 as (_ & _ & _ & _ & Hlay1 & _).
      rewrite Hins in Hlay1, Hinv2.
      assert (layout cfg ((b.1, W) :: k0 ++ (b.1 + W, b.2 - W) :: k1)) as Hlay1'.
      { assert (layout cfg ((b.1, W) :: (k0 ++ (b.1 + W, b.2 - W) :: k1) ++ A)) as Hx.
        { eapply layout_perm; [|exact Hlay1]. symmetry. apply Permutation_middle. }
        apply layout_cons in Hx as (? & [? _]%Forall_app & [? _]%layout_app).
        by apply layout_cons. }
      destruct (merge_right_only cfg Hok Hm (b.1, W) (b.1 + W, b.2 - W) k0 k1 Hlay1')
        as [Heq _]; [done| |].
      { rewrite <- Hk. eapply Forall_impl; [exact Hbt|].
        unfold touching. simpl. intros d Hd. lia. }
      rewrite Heq, <- Hk in Hinv2. simpl in Hinv2.
      replace (W + (b.2 - W)) with b.2 in Hinv2 by lia.
      replace (b.1, b.2) with b in Hinv2 by (by destruct b).
      rewrite (chosen_block_back l1 l2 b W) in Hinv2 by done.
      by destruct Hinv2 as (_ & _ & ? & _).
    + rewrite Hpb in Hfree.
      destruct (vPortFree_inv cfg Hok fuel' s1 _ [] b A s2 Hinv1 Hfree) as [Hinv2 _].
      destruct Hinv1 as (_ & _ & _ & _ & Hlay1 & _).
      assert (layout cfg (b :: l1 ++ l2)) as Hlay1'.
      { apply layout_cons in Hlayb as (? & [? _]%Forall_app & [? _]%layout_app).
        by apply layout_cons. }
      destruct (merge_none cfg Hok b (l1 ++ l2) Hlay1' Hbt) as [Heq _].
      rewrite Heq, (chosen_block_back l1 l2 b W) in Hinv2 by done.
      by destruct Hinv2 as (_ & _ & ? & _).
  - destruct Hcase as [(Hsplit & Hinv1 & Hfree1)|(Hsplit & Hinv1 & Hfree1)].
    + rewrite decide_True by lia.
      rewrite (remainder_insert_merge cfg Hok b W l1 l2 A) in Hinv1 by (done || lia).
      destruct (insert_block_split (b.1 + W, b.2 - W) (l1 ++ l2)) as (k0 & k1 & Hk & Hins).
      assert (p = payload cfg (b.1, W)) as Hpw by (by rewrite Hpb).
      rewrite Hpw in Hfree.
      destruct (vPortFree_inv cfg Hok fuel' s1 _ [] (b.1, W) A s2 Hinv1 Hfree)
        as [_ Hfree2].
      destruct Hinv1 as (_ & _ & _ & _ & Hlay1 & _).
      rewrite Hins in Hlay1, Hfree2.
      assert (layout cfg ((b.1, W) :: k0 ++ (b.1 + W, b.2 - W) :: k1)) as Hlay1'.
      { assert (layout cfg ((b.1, W) :: (k0 ++ (b.1 + W, b.2 - W) :: k1) ++ A)) as Hx.
        { eapply layout_perm; [|exact Hlay1]. symmetry. apply Permutation_middle. }
        apply layout_cons in Hx as (? & [? _]%Forall_app & [? _]%layout_app).
        by apply layout_cons. }
      destruct (merge_right_only cfg Hok Hm (b.1, W) (b.1 + W, b.2 - W) k0 k1 Hlay1')
        as [_ Hown]; [done| |].
      { rewrite <- Hk. eapply Forall_impl; [exact Hbt|].
        unfold touching. simpl. intros d Hd. lia. }
      rewrite Hown, Hfree1 in Hfree2. simpl in Hfree2.
      rewrite Hfree2, wrap_add_l. f_equal. lia.
    + rewrite decide_False by lia. rewrite Hpb in Hfree.
      destruct (vPortFree_inv cfg Hok fuel' s1 _ [] b A s2 Hinv1 Hfree) as [_ Hfree2].
      assert (layout cfg (b :: l1 ++ l2)) as Hlay1'.
      { apply layout_cons in Hlayb as (? & [? _]%Forall_app & [? _]%layout_app).
        by apply layout_cons. }
      destruct (merge_none cfg Hok b (l1 ++ l2) Hlay1' Hbt) as [_ Hown].
      rewrite Hown, Hfree1 in Hfree2. by rewrite Hfree2, wrap_sub_add.
Qed.

Lemma X14_witness :
  ∃ s1 p s2 l sz,
    pvPortMalloc (lab_cfg 1) 4 (lab_two 1) 32 = Some (s1, p)
    ∧ vPortFree (lab_cfg 1) 4 s1 p = Some s2
    ∧ free_list (lab_cfg 1) (lazy_init (lab_cfg 1) (lab_two 1)) l
    ∧ recorded_size (lab_cfg 1) (lazy_init (lab_cfg 1) (lab_two 1)) p = Some sz
    ∧ free_list (lab_cfg 1) s2 l
    ∧ xPortGetFreeHeapSize s2
      = if decide (sz - adjust_size (lab_cfg 1) (wrap 32) > 2 * heapSTRUCT_SIZE (lab_cfg 1))
        then wrap (xPortGetFreeHeapSize (lab_two 1) + (sz - adjust_size (lab_cfg 1) (wrap 32)))
        else xPortGetFreeHeapSize (lab_two 1).
Proof.
  eexists _, _, _.
  assert (pvPortMalloc (lab_cfg 1) 4 (lab_two 1) 32
          = Some (default (lab_two 1) (fst <$> pvPortMalloc (lab_cfg 1) 4 (lab_two 1) 32),
                  0x20000198)) as Hrun by (vm_compute; reflexivity).
  assert (vPortFree (lab_cfg 1) 4
            (default (lab_two 1) (fst <$> pvPortMalloc (lab_cfg 1) 4 (lab_two 1) 32)) 0x20000198
          = Some (default (lab_two 1)
                    (vPortFree (lab_cfg 1) 4
                       (default (lab_two 1) (fst <$> pvPortMalloc (lab_cfg 1) 4 (lab_two 1) 32))
                       0x20000198))) as Hfree by (vm_compute; reflexivity).
  assert (0x20000198 ≠ NULL) as Hp by (vm_compute; discriminate).
  destruct (X14_round_trip_with_merging (lab_cfg 1) (lab_two 1) [0x20000128; 0x20000110]
              4 4 32 _ _ 0x20000198 eq_refl eq_refl (lab_two_reachable 1 (or_intror eq_refl))
              Hrun Hp Hfree) as (l & sz & H).
  exists l, sz. split; [exact Hrun|]. split; [exact Hfree | exact H].
Defined.

(** ** The free list with merging enabled *)

(** X15. With merging enabled, in every initialised state reached by calls
    of the interface no free block ends where another free block starts. *)
Theorem X15_free_blocks_not_adjacent (cfg : Config) (s : heap) (L : list Z) :
  cfg_ok cfg = true → if_merge_mem cfg = 1 →
  reachable cfg s L →
  xHeapHasBeenInitialised s = true →
  ∃ l, free_list cfg s l ∧ no_touch l.
Proof.
  intros Hok Hm Hreach Hi.
  destruct (no_adjacent_free_blocks cfg Hok s L Hm Hreach) as (l & A & Hinv & _ & Hnt).
  assert (lazy_init cfg s = s) as Hlazy by (unfold lazy_init; by rewrite Hi).
  rewrite Hlazy in Hinv. exists l. by destruct Hinv as (_ & _ & ? & _).
Qed.

Lemma X15_witness : ∃ l, free_list (lab_cfg 1) lab_right_first l ∧ no_touch l.
Proof.
  apply (X15_free_blocks_not_adjacent (lab_cfg 1) lab_right_first [0x20000290; 0x200001E0]).
  - reflexivity.
  - reflexivity.
  - exact lab_right_first_reachable.
  - vm_compute. reflexivity.
Defined.

(** ** The blocks fit in the arena *)

Lemma bytes_filter_split (P : blk → Prop) `{!∀ c, Decision (P c)} l :
  bytes l = bytes (filter P l) + bytes (filter (λ c, ¬ P c) l).
Proof.
  induction l as [|c l IH]; [done|]. rewrite !filter_cons. simpl.
  destruct (decide (P c)); [rewrite decide_False by tauto | rewrite decide_True by done];
    simpl; lia.
Qed.

(** Disjoint blocks inside an interval are not larger than the interval. *)
Lemma packed_bytes (m : nat) : ∀ (l : list blk) (lo hi : Z),
  (length l ≤ m)%nat → lo ≤ hi →
  Forall (λ c : blk, lo ≤ c.1 ∧ 0 < c.2 ∧ c.1 + c.2 ≤ hi) l →
  pairwise apart l →
  bytes l ≤ hi - lo.
Proof.
  induction m as [|m IH]; intros l lo hi Hlen Hlohi Hin Hap.
  - destruct l; [simpl; lia | simpl in Hlen; lia].
  - destruct l as [|c l]; [simpl; lia|]. simpl in Hlen, Hap.
    apply Forall_cons in Hin as [Hc Hin]. destruct Hap as [Hcl Hap].
    rewrite Forall_forall in Hin, Hcl.
    set (below := λ d : blk, d.1 + d.2 ≤ c.1).
    assert (bytes (filter below l) ≤ c.1 - lo) as Hlow.
    { apply IH.
      - pose proof (length_filter below l). lia.
      - lia.
      - apply Forall_forall. intros d [Hd Hdl]%list_elem_of_filter.
        specialize (Hin d Hdl). unfold below in Hd. lia.
      - by apply pairwise_filter. }
    assert (bytes (filter (λ d, ¬ below d) l) ≤ hi - (c.1 + c.2)) as Hhigh.
    { apply IH.
      - pose proof (length_filter (λ d, ¬ below d) l). lia.
      - lia.
      - apply Forall_forall. intros d [Hd Hdl]%list_elem_of_filter.
        specialize (Hin d Hdl). specialize (Hcl d Hdl).
        unfold below, apart in *. lia.
      - by apply pairwise_filter. }
    simpl. rewrite (bytes_filter_split below l). lia.
Qed.

Lemma layout_bytes cfg l :
  cfg_ok cfg = true → layout cfg l → bytes l ≤ configADJUSTED_HEAP_SIZE cfg.
Proof.
  intros Hok [Hin Hap]. pose proof (cfg_facts cfg Hok) as (HH & HU & _).
  pose proof (packed_bytes (length l) l (pucAlignedHeap cfg)
                (pucAlignedHeap cfg + configADJUSTED_HEAP_SIZE cfg)) as Hp.
  assert (bytes l ≤ pucAlignedHeap cfg + configADJUSTED_HEAP_SIZE cfg - pucAlignedHeap cfg);
    [|lia].
  apply Hp; [lia | lia | | done].
  eapply Forall_impl; [exact Hin|]. unfold inside. intros; lia.
Qed.

Lemma length_bytes cfg l : Forall (inside cfg) l → Z.of_nat (length l) ≤ bytes l.
Proof.
  induction 1 as [|c l Hc _ IH]; simpl; [done|]. unfold inside in Hc. lia.
Qed.

(** X16. In every initialised state reached by calls of the interface, with
    any merge flag, the sizes of the free blocks and of the live blocks do
    not add up to more than the arena; in particular the free list has at
    most as many nodes as the arena has bytes. *)
Theorem X16_blocks_fit_in_arena (cfg : Config) (s : heap) (L : list Z) :
  cfg_ok cfg = true →
  reachable cfg s L →
  xHeapHasBeenInitialised s = true →
  ∃ l A, free_list cfg s l ∧ live_blocks cfg s L = Some A
         ∧ bytes l + bytes A ≤ configADJUSTED_HEAP_SIZE cfg
         ∧ Z.of_nat (length l) ≤ configADJUSTED_HEAP_SIZE cfg.
Proof.
  intros Hok Hreach Hi.
  destruct (reachable_live cfg Hok s L Hreach Hi) as (l & A & Hinv & _ & HA).
  destruct Hinv as (_ & _ & Hfl & _ & Hlay & _).
  pose proof (layout_bytes cfg _ Hok Hlay) as Hb. rewrite bytes_app in Hb.
  destruct Hlay as [Hin _]. apply Forall_app in Hin as [Hl HAi].
  pose proof (length_bytes cfg l Hl). pose proof (bytes_nonneg cfg A HAi).
  exists l, A. split_and!; [done | done | lia | lia].
Qed.

Lemma X16_witness :
  ∃ l A, free_list (lab_cfg 1) lab_right_first l
         ∧ live_blocks (lab_cfg 1) lab_right_first [0x20000290; 0x200001E0] = Some A
         ∧ bytes l + bytes A ≤ configADJUSTED_HEAP_SIZE (lab_cfg 1)
         ∧ Z.of_nat (length l) ≤ configADJUSTED_HEAP_SIZE (lab_cfg 1).
Proof.
  apply (X16_blocks_fit_in_arena (lab_cfg 1) lab_right_first [0x20000290; 0x200001E0]).
  - reflexivity.
  - exact lab_right_first_reachable.
  - vm_compute. reflexivity.
Defined.

(** ** Requests the arena cannot hold *)



(** ** Initialisation *)

(** X18. When the two sentinels and the first header of the arena are
    three different objects, whatever the alignment and the size of the
    arena, [prvHeapInit] leaves, whatever the state it is called in, a free
    list of one block that starts at the aligned start of the arena and has
    the size of the arena; it does not touch the counter. *)
Theorem X18_prvHeapInit_single_block (cfg : Config) (s : heap) (fuel : nat) :
  addr_xStart cfg ≠ addr_xEnd cfg →
  pucAlignedHeap cfg ≠ addr_xStart cfg →
  pucAlignedHeap cfg ≠ addr_xEnd cfg →
  (2 ≤ fuel)%nat →
  vPrintFreeList cfg fuel (prvHeapInit cfg s)
  = Some [(pucAlignedHeap cfg, configADJUSTED_HEAP_SIZE cfg)]
  ∧ xPortGetFreeHeapSize (prvHeapInit cfg s) = xPortGetFreeHeapSize s.
Proof.
  intros Hse Hs He Hf. split; [|done].
  destruct fuel as [|[|fuel]]; [lia..|].
  unfold vPrintFreeList, prvHeapInit. simpl.
  rewrite lookup_insert_ne, lookup_insert_ne, lookup_insert_eq by done. simpl.
  rewrite decide_False by done.
  rewrite !lookup_insert_eq. simpl.
  by rewrite decide_True.
Qed.

Lemma X18_witness :
  vPrintFreeList (lab_cfg 1) 2 (prvHeapInit (lab_cfg 1) lab_heap1)
  = Some [(pucAlignedHeap (lab_cfg 1), configADJUSTED_HEAP_SIZE (lab_cfg 1))]
  ∧ xPortGetFreeHeapSize (prvHeapInit (lab_cfg 1) lab_heap1) = xPortGetFreeHeapSize lab_heap1.
Proof.
  apply (X18_prvHeapInit_single_block (lab_cfg 1) lab_heap1 2).
  - vm_compute. discriminate.
  - vm_compute. discriminate.
  - vm_compute. discriminate.
  - lia.
Defined.

(** ** Alignment *)

Lemma clear_low_bits (x k : Z) :
  0 ≤ k → Z.land x (Z.lnot (2 ^ k - 1)) = 2 ^ k * (x / 2 ^ k).
Proof.
  intros Hk. rewrite <- Z.ldiff_land.
  replace (2 ^ k - 1) with (Z.ones k) by (rewrite Z.ones_equiv; lia).
  rewrite Z.ldiff_ones_r, Z.shiftl_mul_pow2, Z.shiftr_div_pow2 by done. lia.
Qed.

Lemma low_bits (x k : Z) : 0 ≤ k → Z.land x (2 ^ k - 1) = x mod 2 ^ k.
Proof.
  intros Hk. replace (2 ^ k - 1) with (Z.ones k) by (rewrite Z.ones_equiv; lia).
  by apply Z.land_ones.
Qed.

Lemma pow2_divide (k m : Z) : 0 ≤ k ≤ m → (2 ^ k | 2 ^ m).
Proof.
  intros Hkm. exists (2 ^ (m - k)). rewrite <- Z.pow_add_r by lia. f_equal. lia.
Qed.

Lemma divide_mod_pow2 (k m z : Z) : 0 ≤ k ≤ m → (2 ^ k | z) → (2 ^ k | z mod 2 ^ m).
Proof.
  intros Hkm Hz. assert (0 < 2 ^ m) by (apply Z.pow_pos_nonneg; lia).
  rewrite Z.mod_eq by lia. apply Z.divide_sub_r; [done|].
  apply Z.divide_mul_l. by apply pow2_divide.
Qed.

Section Alignment.

Variable cfg : Config.
Variable k : Z.
Hypothesis Hok : cfg_ok cfg = true.
Hypothesis Hk : 0 ≤ k.
Hypothesis Halign : portBYTE_ALIGNMENT cfg = 2 ^ k.
Hypothesis Hmask : portBYTE_ALIGNMENT_MASK cfg = 2 ^ k - 1.

(** The header size is a multiple of the alignment, which is less than
    [2^16] as the header size is not 0. *)
Lemma heapSTRUCT_SIZE_aligned : k ≤ 16 ∧ (2 ^ k | heapSTRUCT_SIZE cfg).
Proof.
  pose proof (cfg_facts cfg Hok) as (_ & _ & Hh & _).
  unfold heapSTRUCT_SIZE, wrap16 in *. rewrite Hmask, clear_low_bits in * by done.
  set (y := wrap (sizeof_BlockLink_t + (portBYTE_ALIGNMENT cfg - 1))) in *.
  destruct (decide (k ≤ 16)) as [Hle|Hgt].
  - split; [done|]. apply divide_mod_pow2; [lia|]. by apply Z.divide_factor_l.
  - exfalso. assert ((2 ^ 16 | 2 ^ k * (y / 2 ^ k))) as Hd.
    { apply Z.divide_mul_l. apply pow2_divide. lia. }
    apply Z.mod_divide in Hd; lia.
Qed.

Lemma pucAlignedHeap_aligned : (2 ^ k | pucAlignedHeap cfg).
Proof.
  unfold pucAlignedHeap. rewrite Hmask.
  set (x := wrap (addr_ucHeap cfg + portBYTE_ALIGNMENT cfg)).
  assert (wrap x = x) as Hx by (apply wrap_small, wrap_range).
  unfold wrap at 1. rewrite <- (Z.land_ones _ 32) by lia.
  rewrite (Z.land_comm (Z.lnot _)), Z.land_assoc, Z.land_ones by lia.
  fold (wrap x). rewrite Hx, clear_low_bits by done.
  by apply Z.divide_factor_l.
Qed.

Lemma adjust_size_aligned n : (2 ^ k | adjust_size cfg (wrap n)).
Proof.
  destruct heapSTRUCT_SIZE_aligned as [Hk16 Hh].
  pose proof (wrap_range n) as Hn.
  unfold adjust_size. case_decide.
  - set (y := wrap (wrap n + heapSTRUCT_SIZE cfg)).
    rewrite Hmask, Halign, low_bits by done.
    assert (0 < 2 ^ k) by (apply Z.pow_pos_nonneg; lia).
    case_decide.
    + unfold wrap at 1. apply divide_mod_pow2; [lia|].
      rewrite (Z.mod_eq y (2 ^ k)) by lia.
      exists (y / 2 ^ k + 1). lia.
    + apply Z.mod_divide; [lia|]. destruct (decide (y mod 2 ^ k = 0)); [done|]. tauto.
  - replace (wrap n) with 0 by lia. apply Z.divide_0_r.
Qed.

Lemma merge_block_addr xs xe bsz : ∀ l ptr,
  (merge_block xs xe bsz ptr l).1 ∈ ptr.1 :: l.*1.
Proof.
  induction l as [|c l IH]; intros ptr; simpl.
  - apply elem_of_cons. by left.
  - repeat case_decide.
    + specialize (IH ptr). apply elem_of_cons in IH as [->|?];
        [apply elem_of_cons; by left | do 2 (apply elem_of_cons; right); done].
    + specialize (IH (c.1, wrap (c.2 + bsz))). simpl in IH.
      apply elem_of_cons in IH as [->|?]; apply elem_of_cons; right; apply elem_of_cons; auto.
    + specialize (IH (ptr.1, wrap (ptr.2 + c.2))). simpl in IH.
      apply elem_of_cons in IH as [->|?];
        [apply elem_of_cons; by left | do 2 (apply elem_of_cons; right); done].
Qed.

(** The insertion engine makes no new address. *)
Lemma insert_merge_addr (P : Z → Prop) b l :
  P b.1 → Forall (λ c : blk, P c.1) l → Forall (λ c : blk, P c.1) (insert_merge cfg b l).
Proof.
  intros Hb Hl. unfold insert_merge.
  rewrite (insert_block_perm (merged cfg b l) (kept cfg b l)).
  rewrite Forall_forall in Hl. apply Forall_cons. split.
  - unfold merged. case_decide; [|done].
    pose proof (merge_block_addr b.1 (wrap (b.1 + b.2)) b.2 l b) as Hin.
    apply elem_of_cons in Hin as [->|(d & -> & Hd)%list_elem_of_fmap]; auto.
  - apply Forall_forall. intros d Hd. apply Hl.
    unfold kept, merge_keep in Hd. case_decide; [|done].
    by apply list_elem_of_filter in Hd as [_ ?].
Qed.

(** Every block, free or handed out, starts at a multiple of the
    alignment. *)
Lemma reachable_aligned s L :
  reachable cfg s L →
  ∃ l A, heap_inv cfg (lazy_init cfg s) l A ∧ L = payload cfg <$> A
         ∧ Forall (λ c : blk, (2 ^ k | c.1)) (l ++ A).
Proof.
  assert (∀ s1 l1 A1, heap_inv cfg s1 l1 A1 → lazy_init cfg s1 = s1) as Hlazy.
  { intros s1 l1 A1 (Hi & _). unfold lazy_init. by rewrite Hi. }
  induction 1 as [|s L fuel n s' p _ IH Hrun|s L1 p L2 fuel s' Hreach IH Hrun|s L fuel s' _ IH Hrun].
  - exists [(pucAlignedHeap cfg, configADJUSTED_HEAP_SIZE cfg)], [].
    split_and!; [by apply heap_inv_init | done |].
    apply Forall_cons. split; [apply pucAlignedHeap_aligned | apply Forall_nil_2].
  - destruct IH as (l & A & Hinv & -> & Hal).
    rewrite pvPortMalloc_lazy in Hrun.
    pose proof Hinv as (_ & _ & _ & _ & Hlay & _).
    destruct (pvPortMalloc_inv cfg Hok _ _ _ _ _ _ _ Hinv Hrun)
      as [(-> & -> & _)|(HW & l1 & b & l2 & -> & _ & Hb & -> & Hcase)].
    + rewrite decide_True by done. exists l, A. by rewrite (Hlazy _ _ _ Hinv).
    + assert (inside cfg b) as Hbi.
      { eapply layout_inside; [exact Hlay|].
        apply elem_of_app. left. apply elem_of_app. right. apply elem_of_cons. by left. }
      pose proof (cfg_facts cfg Hok) as (HH & HU & Hh & Htop & _).
      rewrite decide_False by (unfold inside, NULL in *; lia).
      apply Forall_app in Hal as [[Hl1 [Hba Hl2]%Forall_cons]%Forall_app HA].
      assert (Forall (λ c : blk, (2 ^ k | c.1)) (l1 ++ l2)) as Hl12
        by (apply Forall_app; done).
      destruct Hcase as [(_ & Hinv' & _)|(_ & Hinv' & _)];
        eexists _, _; rewrite (Hlazy _ _ _ Hinv'); (split; [exact Hinv'|]);
        (split; [done|]); apply Forall_app; split.
      * apply insert_merge_addr; [|done]. simpl.
        apply Z.divide_add_r; [done | apply adjust_size_aligned].
      * apply Forall_cons. done.
      * done.
      * apply Forall_cons. done.
  - destruct IH as (l & A & Hinv & Heq & Hal).
    assert (lazy_init cfg s = s) as Hls.
    { unfold lazy_init. destruct (xHeapHasBeenInitialised s) eqn:Hi; [done|].
      destruct (reachable_uninitialised cfg Hok s _ Hreach Hi) as [_ Hnil].
      by destruct L1. }
    rewrite Hls in Hinv.
    symmetry in Heq. apply fmap_app_inv in Heq as (A1 & A2' & HL1 & Heq & ->).
    symmetry in Heq. apply fmap_cons_inv in Heq as (b & A2 & -> & HL2 & ->).
    destruct (vPortFree_inv cfg Hok _ _ _ _ _ _ _ Hinv Hrun) as [Hinv' _].
    exists (insert_merge cfg b l), (A1 ++ A2). rewrite (Hlazy _ _ _ Hinv').
    split_and!; [done | by rewrite fmap_app, HL1, HL2 |].
    apply Forall_app in Hal as [Hl [HA1 [Hba HA2]%Forall_cons]%Forall_app].
    apply Forall_app. split; [by apply insert_merge_addr | by apply Forall_app].
  - rewrite vPortFree_null in Hrun. simplify_eq. done.
Qed.

End Alignment.

(** The alignment is [2^k] with [k] at least 3. *)
Lemma alignment_log2 (cfg : Config) :
  cfg_ok cfg = true →
  let k := Z.log2 (portBYTE_ALIGNMENT cfg) in
  3 ≤ k ∧ portBYTE_ALIGNMENT cfg = 2 ^ k ∧ portBYTE_ALIGNMENT_MASK cfg = 2 ^ k - 1.
Proof.
  intros Hok. destruct (cfg_headers cfg Hok) as (H8 & Hpow & Hmask & _). simpl.
  split_and!; [|done|by rewrite <- Hpow].
  change 3 with (Z.log2 sizeof_BlockLink_t). by apply Z.log2_le_mono.
Qed.

(** X19. The alignment being a power of two of at least the size of a
    header, and [portBYTE_ALIGNMENT_MASK] one less, every pointer
    [pvPortMalloc] returns is a multiple of [portBYTE_ALIGNMENT]. *)
Theorem X19_pointers_aligned (cfg : Config) (s : heap) (L : list Z)
    (fuel : nat) (n : Z) (s' : heap) (p : Z) :
  cfg_ok cfg = true →
  reachable cfg s L →
  pvPortMalloc cfg fuel s n = Some (s', p) →
  (portBYTE_ALIGNMENT cfg | p).
Proof.
  intros Hok Hreach Hrun.
  destruct (alignment_log2 cfg Hok) as (Hk3 & Halign & Hmask).
  set (k := Z.log2 (portBYTE_ALIGNMENT cfg)) in *.
  assert (0 ≤ k) as Hk by lia. rewrite Halign.
  destruct (reachable_aligned cfg k Hok Hk Halign Hmask s L Hreach)
    as (l & A & Hinv & _ & Hal).
  rewrite pvPortMalloc_lazy in Hrun by done.
  destruct (pvPortMalloc_inv cfg Hok _ _ _ _ _ _ _ Hinv Hrun)
    as [(-> & _)|(_ & l1 & b & l2 & -> & _ & _ & -> & _)].
  - apply Z.divide_0_r.
  - apply Forall_app in Hal as [[_ [Hb _]%Forall_cons]%Forall_app _].
    apply Z.divide_add_r; [done|].
    by destruct (heapSTRUCT_SIZE_aligned cfg k Hok Hk Hmask).
Qed.

Lemma X19_witness :
  ∃ s' p, pvPortMalloc (lab_cfg 1) 4 lab_heap1 100 = Some (s', p)
          ∧ p ≠ NULL ∧ (portBYTE_ALIGNMENT (lab_cfg 1) | p).
Proof.
  eexists _, _. split; [vm_compute; reflexivity|]. split; [vm_compute; discriminate|].
  eapply (X19_pointers_aligned (lab_cfg 1) lab_heap1 [0x20000110] 4 100).
  - reflexivity.
  - exact lab_heap1_reachable.
  - vm_compute. reflexivity.
Defined.

(** ** The rows [vPrintFreeList] prints *)

Lemma string_length_app (s t : string) :
  String.length (s +:+ t) = (String.length s + String.length t)%nat.
Proof.
  induction s as [|a s IH]; [done|].
  change (String a s +:+ t) with (String a (s +:+ t)). simpl. by rewrite IH.
Qed.

Lemma string_app_assoc (s t u : string) : (s +:+ t) +:+ u = s +:+ t +:+ u.
Proof.
  induction s as [|a s IH]; [done|].
  change ((String a s +:+ t) +:+ u) with (String a ((s +:+ t) +:+ u)).
  change (String a s +:+ t +:+ u) with (String a (s +:+ t +:+ u)). by rewrite IH.
Qed.

Lemma string_app_nil_r (s : string) : s +:+ EmptyString = s.
Proof.
  induction s as [|a s IH]; [done|].
  change (String a s +:+ EmptyString) with (String a (s +:+ EmptyString)). by rewrite IH.
Qed.

Lemma spaces_length n : String.length (spaces n) = n.
Proof.
  induction n as [|n IH]; [done|].
  change (spaces (S n)) with (" " +:+ spaces n).
  rewrite string_length_app, IH. done.
Qed.

Lemma spaces_S_r n : spaces n +:+ " " = spaces (S n).
Proof.
  induction n as [|n IH]; [done|].
  change (spaces (S n)) with (" " +:+ spaces n) at 1.
  by rewrite string_app_assoc, IH.
Qed.

Lemma strcat_fits cap dest src :
  (String.length dest + String.length src < cap)%nat →
  strcat cap dest src = Some (dest +:+ src).
Proof. intros. unfold strcat. by rewrite decide_True. Qed.

(** [vPadding] appends [padNum] spaces when the array has room for them. *)
Lemma vPadding_loop_fits cap count : ∀ str,
  (String.length str + count < cap)%nat →
  vPadding_loop cap count str = Some (str +:+ spaces count).
Proof.
  induction count as [|count IH]; intros str Hfit; simpl.
  - by rewrite string_app_nil_r.
  - rewrite strcat_fits by (simpl; lia). simpl.
    rewrite IH by (rewrite string_length_app; simpl; lia).
    rewrite string_app_assoc. done.
Qed.

Lemma vPadding_fits cap str padNum :
  (String.length str + Z.to_nat padNum < cap)%nat →
  vPadding cap str padNum = Some (str +:+ spaces (Z.to_nat padNum)).
Proof. apply vPadding_loop_fits. Qed.

(** The padding count of the size column: [5 - strlen( blockSize )]
    computed in [size_t] and passed as an [int]. *)
Lemma size_column_padding (len : nat) :
  (len < 10)%nat → Z.to_nat (to_int (5 - Z.of_nat len)) = (5 - len)%nat.
Proof.
  intros Hlen. unfold to_int, wrap.
  destruct (decide (len ≤ 5)%nat) as [Hle|Hgt].
  - rewrite (Z.mod_small (5 - Z.of_nat len)) by lia.
    rewrite decide_True by lia. lia.
  - assert ((5 - Z.of_nat len) mod 2 ^ 32 = 2 ^ 32 + (5 - Z.of_nat len)) as ->.
    { symmetry. apply Z.mod_unique with (-1); lia. }
    rewrite decide_False by lia. lia.
Qed.

Section RowsCorrect.

Variable itoa : Z → Z → string.
Variable cfg : Config.
Hypothesis Hheader : (String.length (itoa (heapSTRUCT_SIZE cfg) 10) < 5)%nat.

Lemma print_node_row s (c : blk) :
  xBlockSize s !! c.1 = Some c.2 → digits_fit itoa c →
  print_node itoa cfg s c.1 = Some (row_of itoa cfg c).
Proof.
  intros Hsz (Hs & Hb & He).
  assert (wrap16 (heapSTRUCT_SIZE cfg) = heapSTRUCT_SIZE cfg) as Hw16.
  { unfold heapSTRUCT_SIZE, wrap16. apply Z.mod_mod. lia. }
  unfold print_node, itoa_into. rewrite Hw16, Hsz. simpl.
  rewrite !decide_True by done. simpl.
  change (EmptyString +:+ "0x") with "0x".
  repeat first
    [ rewrite size_column_padding by done
    | rewrite strcat_fits
        by (rewrite ?string_length_app, ?spaces_length; simpl; lia); simpl
    | rewrite vPadding_fits
        by (rewrite ?size_column_padding by done;
            rewrite ?string_length_app, ?spaces_length; simpl; lia); simpl ].
  change (EmptyString +:+ spaces (5 - String.length (itoa c.2 10)))
    with (spaces (5 - String.length (itoa c.2 10))).
  unfold row_of. f_equal. by rewrite !string_app_assoc.
Qed.

Lemma print_nodes_rows s l : ∀ p fuel,
  chain cfg s p l → Forall (digits_fit itoa) l → (length l < fuel)%nat →
  print_nodes itoa cfg fuel s p = Some (row_of itoa cfg <$> l).
Proof.
  induction l as [|c l IH]; simpl; intros p fuel Hc Hfit Hf.
  - destruct fuel; [lia|]. simpl. by rewrite decide_True.
  - destruct Hc as (-> & Hne & Hsz & q & Hq & Hl).
    apply Forall_cons in Hfit as [Hc Hfit].
    destruct fuel; [lia|]. simpl. rewrite decide_False by done.
    rewrite print_node_row by done. simpl. rewrite Hq. simpl.
    rewrite (IH q fuel) by (done || lia). done.
Qed.

End RowsCorrect.

(** X20. [vPrintFreeList] transmits one row for each block of the free
    list, in the order of the list: start address, header size, block size
    right-aligned in five columns (not padded when it has more than five
    digits), end address.  It overflows none of its arrays as long as the
    digits [itoa] writes fit the arrays [startAddr], [heapStructSize],
    [blockSize] and [endAddr]. *)
Theorem X20_vPrintFreeList_rows (itoa : Z → Z → string) (cfg : Config) (s : heap)
    (l : list blk) (fuel : nat) :
  free_list cfg s l →
  (String.length (itoa (heapSTRUCT_SIZE cfg) 10%Z) < 5)%nat →
  Forall (digits_fit itoa) l →
  (length l < fuel)%nat →
  vPrintFreeList_rows itoa cfg fuel s = Some (row_of itoa cfg <$> l)
  ∧ Forall (λ msg, (String.length msg < 100)%nat) (row_of itoa cfg <$> l).
Proof.
  intros (p & Hp & Hch) Hh Hfit Hf. split.
  - unfold vPrintFreeList_rows. rewrite Hp. simpl. by apply print_nodes_rows.
  - apply Forall_fmap. eapply Forall_impl; [exact Hfit|].
    intros c (Hs & Hb & He). simpl. unfold row_of.
    rewrite !string_length_app, !spaces_length. simpl. lia.
Qed.

Lemma X20_witness :
  vPrintFreeList_rows itoa_digits (lab_cfg 1) 4 lab_gap
  = Some [ "0x20000108         8             24     0x20000120" +:+ newline;
           "0x200001b8         8            848     0x20000508" +:+ newline ].
Proof.
  apply (X20_vPrintFreeList_rows itoa_digits (lab_cfg 1) lab_gap
           [(0x20000108, 24); (0x200001B8, 848)] 4).
  - apply (vPrintFreeList_free_list _ 4). vm_compute. reflexivity.
  - vm_compute. lia.
  - repeat (apply Forall_cons; split; [vm_compute; lia|]). apply Forall_nil_2.
  - simpl. lia.
Defined.

(** ** The room behind a pointer *)

(** X22. A request that does not wrap is served with enough room: the block
    behind the pointer lies in the arena and records at least the request
    plus one header, so the [n] bytes that start at the pointer are inside
    the block. *)
Theorem X22_region_holds_request (cfg : Config) (s : heap) (L : list Z)
    (fuel : nat) (n : Z) (s' : heap) (p : Z) :
  cfg_ok cfg = true →
  reachable cfg s L →
  0 ≤ n → n + heapSTRUCT_SIZE cfg + portBYTE_ALIGNMENT cfg ≤ 2 ^ 32 →
  pvPortMalloc cfg fuel s n = Some (s', p) → p ≠ NULL →
  ∃ sz, recorded_size cfg s' p = Some sz
        ∧ inside cfg (p - heapSTRUCT_SIZE cfg, sz)
        ∧ p + n ≤ p - heapSTRUCT_SIZE cfg + sz.
Proof.
  intros Hok Hreach Hn Hfit Hrun Hp.
  destruct (cfg_alignment cfg Hok) as [Hmask Ha].
  destruct (malloc_success cfg s L fuel n s' p Hok Hreach Hrun Hp)
    as (l1 & b & l2 & A & Hinv & _ & HW & _ & Hb & Hpb' & Hpb & Hbi & Hbsz & Hcase).
  assert (0 ≤ heapSTRUCT_SIZE cfg < 2 ^ 16) as Hh by (apply Z.mod_pos_bound; lia).
  assert (wrap n = n) as Hwn by (apply wrap_small; lia).
  rewrite Hwn in *.
  assert (n + heapSTRUCT_SIZE cfg ≤ adjust_size cfg n) as Hge.
  { destruct (decide (n = 0)) as [->|Hn0].
    - unfold adjust_size in HW. rewrite decide_False in HW by lia. lia.
    - destruct (adjust_size_ge cfg n) as [?|Heq]; [done|done|lia|done|done|lia]. }
  assert (p - heapSTRUCT_SIZE cfg = b.1) as Hpb1 by (rewrite Hpb'; unfold payload; lia).
  unfold recorded_size. rewrite Hpb, Hpb1.
  destruct Hcase as [(Hsplit & Hinv' & _)|(_ & Hinv' & _)];
    destruct Hinv' as (_ & _ & _ & _ & Hlay & HA);
    apply Forall_cons in HA as [HA _]; simpl in HA; eexists; (split; [done|]).
  - split; [|unfold payload in *; lia].
    unfold inside in *. simpl. lia.
  - split; [by destruct b | unfold payload in *; lia].
Qed.

Lemma X22_witness :
  ∃ s' p sz,
    pvPortMalloc (lab_cfg 1) 4 lab_heap1 100 = Some (s', p)
    ∧ recorded_size (lab_cfg 1) s' p = Some sz
    ∧ inside (lab_cfg 1) (p - heapSTRUCT_SIZE (lab_cfg 1), sz)
    ∧ p + 100 ≤ p - heapSTRUCT_SIZE (lab_cfg 1) + sz.
Proof.
  eexists _, _.
  assert (pvPortMalloc (lab_cfg 1) 4 lab_heap1 100
          = Some (default lab_heap1 (fst <$> pvPortMalloc (lab_cfg 1) 4 lab_heap1 100),
                  0x20000128)) as Hrun by (vm_compute; reflexivity).
  assert (0x20000128 ≠ NULL) as Hp by (vm_compute; discriminate).
  assert (100 + heapSTRUCT_SIZE (lab_cfg 1) + portBYTE_ALIGNMENT (lab_cfg 1) ≤ 2 ^ 32) as Hfit
    by (vm_compute; discriminate).
  destruct (X22_region_holds_request (lab_cfg 1) lab_heap1 [0x20000110] 4 100 _ _
              eq_refl lab_heap1_reachable ltac:(lia) Hfit Hrun Hp)
    as (sz & H).
  exists sz. split; [exact Hrun | exact H].
Defined.

(** The adjusted size of a request less than one header below the top of
    [size_t]: the sum with the header wraps to less than a header. *)
Lemma adjust_size_wrapped (cfg : Config) (n : Z) :
  portBYTE_ALIGNMENT_MASK cfg = portBYTE_ALIGNMENT cfg - 1 →
  0 < portBYTE_ALIGNMENT cfg →
  heapSTRUCT_SIZE cfg + portBYTE_ALIGNMENT cfg ≤ 2 ^ 32 →
  2 ^ 32 - heapSTRUCT_SIZE cfg < n < 2 ^ 32 →
  0 < adjust_size cfg n < heapSTRUCT_SIZE cfg + portBYTE_ALIGNMENT cfg.
Proof.
  intros Hmask Ha Hsmall Hn. unfold adjust_size.
  assert (0 ≤ heapSTRUCT_SIZE cfg < 2 ^ 16) as Hh by (apply Z.mod_pos_bound; lia).
  rewrite decide_True by lia.
  assert (wrap (n + heapSTRUCT_SIZE cfg) = n + heapSTRUCT_SIZE cfg - 2 ^ 32) as ->.
  { unfold wrap. symmetry. apply Z.mod_unique with 1; lia. }
  set (y := n + heapSTRUCT_SIZE cfg - 2 ^ 32).
  pose proof (land_bounds y (portBYTE_ALIGNMENT_MASK cfg)).
  case_decide; [|lia]. rewrite wrap_small; lia.
Qed.

(** X23. A request less than one header below the top of [size_t] is
    served from the fresh arena: the sum with the header wraps, the call
    returns the first payload address, and the block behind it is smaller
    than the request. *)
Theorem X23_wrapping_request_served (cfg : Config) (fuel : nat) (n : Z) :
  cfg_ok cfg = true →
  heapSTRUCT_SIZE cfg + portBYTE_ALIGNMENT cfg ≤ configADJUSTED_HEAP_SIZE cfg →
  2 ^ 32 - heapSTRUCT_SIZE cfg < n < 2 ^ 32 →
  (2 ≤ fuel)%nat →
  ∃ s' sz,
    pvPortMalloc cfg fuel (initial_heap cfg) n
    = Some (s', pucAlignedHeap cfg + heapSTRUCT_SIZE cfg)
    ∧ pucAlignedHeap cfg + heapSTRUCT_SIZE cfg ≠ NULL
    ∧ recorded_size cfg s' (pucAlignedHeap cfg + heapSTRUCT_SIZE cfg) = Some sz
    ∧ sz < n.
Proof.
  intros Hok Hroom Hn Hf.
  destruct (cfg_alignment cfg Hok) as [Hmask Ha].
  pose proof (cfg_facts cfg Hok) as (HH & HU & Hh & Htop & _).
  pose proof (heap_inv_init cfg Hok (initial_heap cfg)) as Hinv.
  assert (wrap n = n) as Hwn by (apply wrap_small; lia).
  pose proof (adjust_size_wrapped cfg n Hmask Ha ltac:(lia) Hn) as HW.
  destruct (pvPortMalloc_spec cfg Hok fuel _ n _ [] Hinv) as (s' & p & Hrun & Hpost);
    [simpl; lia|].
  rewrite <- pvPortMalloc_uninit in Hrun by done.
  rewrite Hwn in Hpost.
  destruct Hpost as [(_ & _ & [Hno|Hall])|(_ & l1 & b & l2 & Hl & _ & Hb & -> & Hcase)].
  - lia.
  - apply Forall_cons in Hall as [Hlt _]. simpl in Hlt. lia.
  - destruct l1 as [|c l1]; [|by destruct l1]. simpl in Hl. simplify_eq. simpl in *.
    assert (wrap (pucAlignedHeap cfg + heapSTRUCT_SIZE cfg - heapSTRUCT_SIZE cfg)
            = pucAlignedHeap cfg) as Hwp.
    { replace (pucAlignedHeap cfg + heapSTRUCT_SIZE cfg - heapSTRUCT_SIZE cfg)
        with (pucAlignedHeap cfg) by lia. apply wrap_small. lia. }
    unfold recorded_size. rewrite Hwp.
    destruct Hcase as [(_ & Hinv' & _)|(_ & Hinv' & _)];
      destruct Hinv' as (_ & _ & _ & _ & _ & HA);
      apply Forall_cons in HA as [HA _]; simpl in HA;
      eexists s', _; (split_and!; [done | unfold NULL; lia | exact HA | lia]).
Qed.

Lemma X23_witness :
  ∃ s' sz,
    pvPortMalloc (lab_cfg 1) 4 (initial_heap (lab_cfg 1)) (2 ^ 32 - 4)
    = Some (s', pucAlignedHeap (lab_cfg 1) + heapSTRUCT_SIZE (lab_cfg 1))
    ∧ pucAlignedHeap (lab_cfg 1) + heapSTRUCT_SIZE (lab_cfg 1) ≠ NULL
    ∧ recorded_size (lab_cfg 1) s'
        (pucAlignedHeap (lab_cfg 1) + heapSTRUCT_SIZE (lab_cfg 1)) = Some sz
    ∧ sz < 2 ^ 32 - 4.
Proof.
  apply (X23_wrapping_request_served (lab_cfg 1) 4 (2 ^ 32 - 4)).
  - reflexivity.
  - vm_compute. discriminate.
  - vm_compute. split; reflexivity.
  - lia.
Defined.

(** * The two maps and the memory

    The model keeps the two fields of a header in two maps.  In memory the
    header at [a] is the word at [a] and the word at [a + 4], so the maps
    are the memory as long as any two headers are the same header or lie 8
    bytes apart.  This part shows that this holds in every state reached by
    calls of the interface.  The functions write only to headers that are
    there already, with two exceptions: [prvHeapInit] writes the sentinels
    and the first header of the arena, and the split of [pvPortMalloc]
    writes one new header, right after the bytes it hands out.  A write
    never removes a header, so the headers of the states a call goes
    through are among those of the state it ends in. *)

(** ** The headers a call writes *)

Lemma header_at_set_next s p v a :
  header_at s p → header_at (set_next p v s) a → header_at s a.
Proof.
  unfold header_at. simpl. intros Hp Ha.
  destruct (decide (a = p)) as [->|Hne]; [done|].
  by rewrite lookup_insert_ne in Ha.
Qed.

Lemma header_at_set_size s p v a :
  header_at s p → header_at (set_size p v s) a → header_at s a.
Proof.
  unfold header_at. simpl. intros Hp Ha.
  destruct (decide (a = p)) as [->|Hne]; [done|].
  by rewrite lookup_insert_ne in Ha.
Qed.

Lemma header_at_new_size s p v a :
  header_at (set_size p v s) a → a = p ∨ header_at s a.
Proof.
  unfold header_at. simpl. intros Ha.
  destruct (decide (a = p)) as [->|Hne]; [by left|right].
  by rewrite lookup_insert_ne in Ha.
Qed.

Lemma header_at_new_next s p v a :
  header_at (set_next p v s) a → a = p ∨ header_at s a.
Proof.
  unfold header_at. simpl. intros Ha.
  destruct (decide (a = p)) as [->|Hne]; [by left|right].
  by rewrite lookup_insert_ne in Ha.
Qed.

(** A write never removes a header. *)
Lemma header_at_kept s p v a :
  header_at s a → header_at (set_next p v s) a ∧ header_at (set_size p v s) a.
Proof.
  unfold header_at. simpl. intros Ha.
  destruct (decide (a = p)) as [->|Hne].
  - rewrite !lookup_insert_eq. split; [left|right]; done.
  - by rewrite !lookup_insert_ne.
Qed.

Lemma header_at_next s a v : pxNextFreeBlock s !! a = Some v → header_at s a.
Proof. intros H. left. by rewrite H. Qed.

Lemma header_at_size s a v : xBlockSize s !! a = Some v → header_at s a.
Proof. intros H. right. by rewrite H. Qed.

Section Writes.

Variable cfg : Config.

(** The merge pass writes to headers that are there already. *)
Lemma merge_loop_headers fuel xs xe bsz : ∀ s ptr prev cur s' r,
  merge_loop cfg fuel xs xe bsz s ptr prev cur = Some (s', r) →
  header_at s prev →
  ∀ a, header_at s' a → header_at s a.
Proof.
  induction fuel as [|fuel IH]; intros s ptr prev cur s' r Hrun Hprev a Ha; [done|].
  simpl in Hrun. case_decide; [by simplify_eq|].
  destruct (xBlockSize s !! cur) as [csz|] eqn:Hcsz; [|done]. simpl in Hrun.
  pose proof (header_at_size s cur csz Hcsz) as Hcur.
  case_decide.
  - destruct (pxNextFreeBlock s !! cur) as [nxt|] eqn:Hnxt; [|done]. simpl in Hrun.
    eapply (IH s); [exact Hrun | done | done].
  - case_decide.
    + simpl in Hrun.
      destruct (pxNextFreeBlock s !! cur) as [nxt|] eqn:Hnxt; [|done]. simpl in Hrun.
      destruct (<[prev:=nxt]> (pxNextFreeBlock s) !! cur) as [nxt'|] eqn:Hnxt'; [|done].
      simpl in Hrun.
      eapply IH in Hrun; [|left; simpl; by rewrite lookup_insert_eq|exact Ha].
      apply header_at_new_next in Hrun as [->|Hrun]; [done|].
      apply header_at_new_size in Hrun as [->|Hrun]; done.
    + case_decide.
      * destruct (xBlockSize s !! ptr) as [psz|] eqn:Hpsz; [|done]. simpl in Hrun.
        pose proof (header_at_size s ptr psz Hpsz) as Hptr.
        destruct (pxNextFreeBlock s !! cur) as [nxt|] eqn:Hnxt; [|done]. simpl in Hrun.
        destruct (<[prev:=nxt]> (pxNextFreeBlock s) !! cur) as [nxt'|] eqn:Hnxt'; [|done].
        simpl in Hrun.
        eapply IH in Hrun; [|left; simpl; by rewrite lookup_insert_eq|exact Ha].
        apply header_at_new_next in Hrun as [->|Hrun]; [done|].
        apply header_at_new_size in Hrun as [->|Hrun]; done.
      * simpl in Hrun.
        destruct (pxNextFreeBlock s !! cur) as [nxt|] eqn:Hnxt; [|done]. simpl in Hrun.
        destruct (<[prev:=nxt]> (pxNextFreeBlock s) !! cur) as [nxt'|] eqn:Hnxt'; [|done].
        simpl in Hrun.
        eapply IH in Hrun; [|left; simpl; by rewrite lookup_insert_eq|exact Ha].
        apply header_at_new_next in Hrun as [->|Hrun]; done.
Qed.

Lemma insert_loop_headers fuel bsz s : ∀ it r,
  insert_loop fuel bsz s it = Some r → header_at s r.
Proof.
  induction fuel as [|fuel IH]; intros it r Hrun; [done|]. simpl in Hrun.
  destruct (pxNextFreeBlock s !! it) as [nxt|] eqn:Hnxt; [|done]. simpl in Hrun.
  destruct (xBlockSize s !! nxt) as [sz|] eqn:Hsz; [|done]. simpl in Hrun.
  case_decide; [by eapply IH|]. simplify_eq. by eapply header_at_next.
Qed.

(** So does the insertion as a whole. *)
Lemma prvInsertBlockIntoFreeList_headers fuel s b s' :
  prvInsertBlockIntoFreeList cfg fuel s b = Some s' →
  ∀ a, header_at s' a → header_at s a.
Proof.
  unfold prvInsertBlockIntoFreeList. intros Hrun a Ha.
  destruct (xBlockSize s !! b) as [bsz|] eqn:Hbsz; [|done]. simpl in Hrun.
  assert (∃ s1 ptr sz, (∀ c, header_at s1 c → header_at s c) ∧ header_at s1 ptr
            ∧ (it ← insert_loop fuel sz s1 (addr_xStart cfg);
               nxt ← pxNextFreeBlock s1 !! it;
               Some (set_next it ptr (set_next ptr nxt s1))) = Some s')
    as (s1 & ptr & sz & H1 & Hptr & Hrest).
  { case_decide.
    - destruct (pxNextFreeBlock s !! addr_xStart cfg) as [cur|] eqn:Hcur; [|done].
      simpl in Hrun.
      destruct (merge_loop cfg fuel b (wrap (b + bsz)) bsz s b (addr_xStart cfg) cur)
        as [[s1 ptr]|] eqn:Hm; [|done]. simpl in Hrun.
      destruct (xBlockSize s1 !! ptr) as [sz|] eqn:Hsz; [|done]. simpl in Hrun.
      exists s1, ptr, sz. split_and!; [|by eapply header_at_size|done].
      intros c. eapply merge_loop_headers; [exact Hm|]. by eapply header_at_next.
    - simpl in Hrun. exists s, b, bsz. split_and!; [done|by eapply header_at_size|done]. }
  destruct (insert_loop fuel sz s1 (addr_xStart cfg)) as [it|] eqn:Hit; [|done].
  simpl in Hrest.
  destruct (pxNextFreeBlock s1 !! it) as [nxt|] eqn:Hnxt; [|done]. simpl in Hrest.
  simplify_eq. apply H1.
  apply (header_at_set_next s1 ptr nxt); [done|].
  eapply header_at_set_next; [|exact Ha].
  unfold header_at. simpl. left.
  destruct (decide (it = ptr)) as [->|?];
    [by rewrite lookup_insert_eq | rewrite lookup_insert_ne by done; by rewrite Hnxt].
Qed.

Lemma vPortFree_headers fuel s pv s' :
  vPortFree cfg fuel s pv = Some s' → ∀ a, header_at s' a → header_at s a.
Proof.
  unfold vPortFree. intros Hrun a Ha. case_decide; [|by simplify_eq].
  destruct (prvInsertBlockIntoFreeList cfg fuel s _) as [s1|] eqn:Hins; [|done].
  simpl in Hrun. destruct (xBlockSize s1 !! _) as [sz|]; [|done]. simpl in Hrun.
  simplify_eq. by eapply prvInsertBlockIntoFreeList_headers.
Qed.

(** [pvPortMalloc] writes one new header, the one of the remainder of a
    split, right after the bytes it hands out. *)
Lemma pvPortMalloc_headers fuel s n s' p a :
  pvPortMalloc cfg fuel s n = Some (s', p) → header_at s' a →
  let W := adjust_size cfg (wrap n) in
  let s0 := lazy_init cfg s in
  header_at s0 a
  ∨ ∃ p0 prev q sz,
      (W > 0 ∧ W < configADJUSTED_HEAP_SIZE cfg)
      ∧ pxNextFreeBlock s0 !! addr_xStart cfg = Some p0
      ∧ search_loop fuel W s0 (addr_xStart cfg) p0 = Some (prev, q)
      ∧ q ≠ addr_xEnd cfg
      ∧ xBlockSize s0 !! q = Some sz
      ∧ wrap (sz - W) > heapMINIMUM_BLOCK_SIZE cfg
      ∧ a = wrap (q + W).
Proof.
  intros Hrun Ha W s0. rewrite pvPortMalloc_lazy in Hrun. fold s0 in Hrun.
  assert (xHeapHasBeenInitialised s0 = true) as Hi.
  { unfold s0, lazy_init. by destruct (xHeapHasBeenInitialised s) eqn:?. }
  unfold pvPortMalloc in Hrun. rewrite Hi in Hrun. fold W in Hrun.
  case_decide as HW; [|simplify_eq; by left].
  destruct (pxNextFreeBlock s0 !! addr_xStart cfg) as [p0|] eqn:Hp0; [|done]. simpl in Hrun.
  destruct (search_loop fuel W s0 (addr_xStart cfg) p0) as [[prev q]|] eqn:Hs; [|done].
  simpl in Hrun. case_decide as Hq; [|simplify_eq; by left].
  destruct (pxNextFreeBlock s0 !! prev) as [pp|] eqn:Hpp; [|done]. simpl in Hrun.
  destruct (pxNextFreeBlock s0 !! q) as [nx|] eqn:Hnx; [|done]. simpl in Hrun.
  set (s1 := set_next prev nx s0) in *.
  assert (∀ c, header_at s1 c → header_at s0 c) as H1.
  { intros c. apply header_at_set_next. by eapply header_at_next. }
  change (xBlockSize s1 !! q) with (xBlockSize s0 !! q) in Hrun.
  destruct (xBlockSize s0 !! q) as [sz|] eqn:Hsz; [|done]. simpl in Hrun.
  case_decide as Hsplit.
  - set (s2 := set_size q W (set_size (wrap (q + W)) (wrap (sz - W)) s1)) in *.
    destruct (prvInsertBlockIntoFreeList cfg fuel s2 (wrap (q + W))) as [s3|] eqn:Hins;
      [|done]. simpl in Hrun.
    destruct (xBlockSize s3 !! q) as [sz'|]; [|done]. simpl in Hrun. simplify_eq.
    assert (header_at s2 a) as Ha2.
    { eapply prvInsertBlockIntoFreeList_headers; [exact Hins|]. exact Ha. }
    apply header_at_new_size in Ha2 as [->|Ha2].
    { left. by eapply header_at_size. }
    apply header_at_new_size in Ha2 as [->|Ha2]; [|left; by apply H1].
    right. exists p0, prev, q, sz. done.
  - simpl in Hrun. change (xBlockSize s1 !! q) with (xBlockSize s0 !! q) in Hrun.
    rewrite Hsz in Hrun. simpl in Hrun. simplify_eq. left. by apply H1.
Qed.

(** [prvHeapInit] writes the two sentinels and the header at the start of
    the arena. *)
Lemma prvHeapInit_headers s a :
  header_at (prvHeapInit cfg s) a →
  a = addr_xStart cfg ∨ a = addr_xEnd cfg ∨ a = pucAlignedHeap cfg ∨ header_at s a.
Proof.
  unfold prvHeapInit. intros Ha.
  repeat first [ apply header_at_new_next in Ha as [->|Ha]; [tauto|]
               | apply header_at_new_size in Ha as [->|Ha]; [tauto|] ].
  tauto.
Qed.

End Writes.

(** ** Where the headers of reachable states are *)

Section HeaderSlots.

Variable cfg : Config.
Hypothesis Hok : cfg_ok cfg = true.

(** What the alignment divides is a multiple of the size of a header. *)
Lemma aligned_header (z : Z) :
  (2 ^ Z.log2 (portBYTE_ALIGNMENT cfg) | z) → z mod sizeof_BlockLink_t = 0.
Proof.
  destruct (alignment_log2 cfg Hok) as (Hk & _). intros Hz.
  apply Z.mod_divide; [done|]. etrans; [|exact Hz].
  change sizeof_BlockLink_t with (2 ^ 3). apply pow2_divide. lia.
Qed.

Lemma arena_start_slot : header_slot cfg (pucAlignedHeap cfg).
Proof.
  destruct (cfg_headers cfg Hok) as (_ & _ & _ & HU & _).
  destruct (alignment_log2 cfg Hok) as (Hk & Halign & Hmask).
  right. right. split_and!; [|lia..].
  apply aligned_header. apply pucAlignedHeap_aligned; [lia|done].
Qed.

(** Every header of a reachable state is in one of the places for a
    header. *)
Lemma reachable_header_slots s L :
  reachable cfg s L → ∀ a, header_at s a → header_slot cfg a.
Proof.
  destruct (alignment_log2 cfg Hok) as (Hk & Halign & Hmask).
  set (k := Z.log2 (portBYTE_ALIGNMENT cfg)) in *.
  assert (0 ≤ k) as Hk0 by lia.
  induction 1 as [|s L fuel n s' p Hreach IH Hrun|s L1 p L2 fuel s' _ IH Hrun
                 |s L fuel s' _ IH Hrun]; intros a Ha.
  - unfold header_at, initial_heap in Ha. simpl in Ha.
    destruct (decide (a = addr_xStart cfg)) as [->|Hs]; [by left|].
    destruct (decide (a = addr_xEnd cfg)) as [->|He]; [right; by left|].
    rewrite !lookup_insert_ne, lookup_empty in Ha by done.
    destruct Ha as [[? ?]|[? ?]]; done.
  - assert (∀ c, header_at (lazy_init cfg s) c → header_slot cfg c) as IH0.
    { intros c Hc. unfold lazy_init in Hc.
      destruct (xHeapHasBeenInitialised s); [by apply IH|].
      apply (prvHeapInit_headers cfg s c) in Hc as [->|[->|[->|Hc]]];
        [by left | right; by left | apply arena_start_slot | by apply IH]. }
    destruct (pvPortMalloc_headers cfg fuel s n s' p a Hrun Ha)
      as [H0|(p0 & prev & q & sz & HW & Hp0 & Hs & Hq & Hsz & Hsplit & ->)];
      [by apply IH0|].
    destruct (reachable_aligned cfg k Hok Hk0 Halign Hmask s L Hreach)
      as (l & A & Hinv & _ & Hal).
    pose proof Hinv as (_ & HU & (p0' & Hp0' & Hch) & _ & Hlay & _).
    pose proof (cfg_facts cfg Hok) as (HH & HUr & Hh & Htop & Hse & Hsn & Hen & Hsout & Heout).
    pose proof Hlay as (Hl & HlA & HlAp)%layout_app.
    pose proof (layout_not_sentinel cfg Hok l Hl) as (Hsl & Hel & Hnl).
    rewrite Hp0 in Hp0'. simplify_eq.
    set (W := adjust_size cfg (wrap n)) in *.
    set (s0 := lazy_init cfg s) in *.
    destruct (search_loop_spec cfg W (configADJUSTED_HEAP_SIZE cfg) l
                (fuel `max` S (length l)) s0 (addr_xStart cfg) p0')
      as [[Hall [prev' Hrun']]
         |(l1 & b & l2 & prev' & nx & -> & Hl1 & Hb & Hrun' & _)];
      [lia | done | done | done | lia | done | done | done | |].
    { rewrite (search_loop_mono W s0 fuel _ _ _ _ (Nat.le_max_l _ _) Hs) in Hrun'.
      by simplify_eq. }
    rewrite (search_loop_mono W s0 fuel _ _ _ _ (Nat.le_max_l _ _) Hs) in Hrun'.
    simplify_eq.
    assert (b ∈ l1 ++ b :: l2) as Hbin
      by (apply elem_of_app; right; apply elem_of_cons; by left).
    pose proof (layout_inside cfg b _ Hl Hbin) as Hbi.
    pose proof (chain_size cfg s0 _ _ _ Hch Hbin) as Hbsz.
    rewrite Hsz in Hbsz. simplify_eq.
    assert (2 ^ k | b.1) as Hb1.
    { apply Forall_app in Hal as [Hal _]. rewrite Forall_forall in Hal. by apply Hal. }
    assert (2 ^ k | W) as HWk by (by apply adjust_size_aligned).
    destruct (heapSTRUCT_SIZE_aligned cfg k Hok Hk0 Hmask) as [_ Hhk].
    assert (sizeof_BlockLink_t ≤ heapSTRUCT_SIZE cfg) as Hh8.
    { apply aligned_header in Hhk. unfold sizeof_BlockLink_t in *.
      apply Z.mod_divide in Hhk as [c Hc]; lia. }
    unfold inside in Hbi.
    rewrite (heapMINIMUM_BLOCK_SIZE_eq cfg) in Hsplit.
    rewrite (wrap_small (b.2 - W)) in Hsplit by lia.
    rewrite wrap_small by lia.
    right. right. split_and!; [|lia..].
    apply aligned_header. by apply Z.divide_add_r.
  - apply IH. by eapply vPortFree_headers.
  - apply IH. by eapply vPortFree_headers.
Qed.

End HeaderSlots.

(** Two places for a header are one place or 8 bytes apart. *)
Lemma header_slots_apart cfg a b :
  cfg_ok cfg = true → header_slot cfg a → header_slot cfg b →
  a = b ∨ a + sizeof_BlockLink_t ≤ b ∨ b + sizeof_BlockLink_t ≤ a.
Proof.
  intros Hok Ha Hb.
  destruct (cfg_headers cfg Hok) as (_ & _ & _ & HU & Hse & Hsa & Hea).
  unfold header_slot, sizeof_BlockLink_t in *.
  destruct Ha as [->|[->|(Ha8 & Ha1 & Ha2)]], Hb as [->|[->|(Hb8 & Hb1 & Hb2)]];
    try lia.
  apply Z.mod_divide in Ha8 as [x Hx]; [|done].
  apply Z.mod_divide in Hb8 as [y Hy]; [|done]. lia.
Qed.

Lemma reachable_headers_apart cfg s L :
  cfg_ok cfg = true → reachable cfg s L → headers_apart s.
Proof.
  intros Hok Hreach a b Ha Hb.
  apply (header_slots_apart cfg); [done|by eapply reachable_header_slots..].
Qed.

(** ** Fields and words

    When the headers are apart, reading and writing a field of a header in
    the two maps is reading and writing a word of the memory. *)

Lemma words_next s a :
  headers_apart s → header_at s a → words s !! a = pxNextFreeBlock s !! a.
Proof.
  intros Hs Ha. unfold words. rewrite lookup_union.
  destruct (kmap (λ a : Z, a + 4) (xBlockSize s) !! a) as [v|] eqn:Hk;
    [|by rewrite (right_id None _)].
  apply (lookup_kmap_Some _) in Hk as (b & -> & Hb).
  destruct (Hs b (b + 4) (header_at_size s b v Hb) Ha); unfold sizeof_BlockLink_t in *; lia.
Qed.

Lemma words_size s a :
  headers_apart s → header_at s a → words s !! (a + 4) = xBlockSize s !! a.
Proof.
  intros Hs Ha. unfold words. rewrite lookup_union.
  pose proof (lookup_kmap (λ a : Z, a + 4) (xBlockSize s) a) as Hk.
  simpl in Hk. rewrite Hk.
  destruct (pxNextFreeBlock s !! (a + 4)) as [v|] eqn:Hn;
    [|by rewrite (left_id None _)].
  destruct (Hs a (a + 4) Ha (header_at_next s _ v Hn)); unfold sizeof_BlockLink_t in *; lia.
Qed.

Lemma words_set_next s p v : words (set_next p v s) = <[p := v]> (words s).
Proof. unfold words. simpl. by rewrite insert_union_l. Qed.

Lemma words_set_size s p v :
  headers_apart (set_size p v s) → words (set_size p v s) = <[p + 4 := v]> (words s).
Proof.
  intros Hs. unfold words. simpl.
  pose proof (kmap_insert (λ a : Z, a + 4) (xBlockSize s) p v) as Hk.
  simpl in Hk. rewrite Hk.
  rewrite insert_union_r; [done|].
  destruct (pxNextFreeBlock s !! (p + 4)) as [w|] eqn:Hn; [|done].
  destruct (Hs p (p + 4)); unfold sizeof_BlockLink_t in *; try lia.
  - right. simpl. by rewrite lookup_insert_eq.
  - left. simpl. by rewrite Hn.
Qed.

(** In a reachable state the fields of a header are its two words. *)
Lemma reachable_fields_are_words cfg s L a :
  cfg_ok cfg = true → reachable cfg s L → header_at s a →
  words s !! a = pxNextFreeBlock s !! a ∧ words s !! (a + 4) = xBlockSize s !! a.
Proof.
  intros Hok Hreach Ha. pose proof (reachable_headers_apart cfg s L Hok Hreach).
  split; [by apply words_next | by apply words_size].
Qed.

(** ** Headers never share a word *)

(** X24. With an alignment of at least the size of a header, the headers
    the allocator has written after any sequence of calls are the two
    sentinels and headers in the arena at multiples of 8 bytes: any two of
    them are the same header or lie at least [sizeof( BlockLink_t )] bytes
    apart, so the [xBlockSize] word of one header is never the
    [pxNextFreeBlock] word of another. *)
Theorem X24_headers_never_overlap (cfg : Config) (s : heap) (L : list Z) :
  cfg_ok cfg = true → reachable cfg s L →
  headers_apart s ∧ ∀ a, header_at s a → header_slot cfg a.
Proof.
  intros Hok Hreach. split; [by eapply reachable_headers_apart|].
  by eapply reachable_header_slots.
Qed.

Lemma X24_witness :
  headers_apart lab_right_first
  ∧ ∀ a, header_at lab_right_first a → header_slot (lab_cfg 1) a.
Proof.
  apply (X24_headers_never_overlap (lab_cfg 1) lab_right_first [0x20000290; 0x200001E0]).
  - reflexivity.
  - apply lab_right_first_reachable.
Defined.

(** ** No block is shorter than a header *)

Section BlockSizes.

Variable cfg : Config.
Hypothesis Hok : cfg_ok cfg = true.

(** The block the merge pass builds is not smaller than the block it was
    given. *)
Lemma merged_size_ge b l :
  inside cfg b → layout cfg l → b.2 ≤ (merged cfg b l).2.
Proof.
  intros Hbi Hl. pose proof (cfg_facts cfg Hok) as (HH & HU & Hh & Htop & _).
  unfold merged. case_decide; [|lia].
  rewrite (wrap_small (b.1 + b.2)) by (unfold inside in Hbi; lia).
  destruct (merge_block_ends cfg Hok b l Hbi (proj1 Hl) l b) as [Hstart Hend];
    [done | by apply layout_NoDup with cfg | by left | by left | by left |].
  set (p := merge_block b.1 (b.1 + b.2) b.2 b l) in *.
  assert (p.1 ≤ b.1) as Hp1.
  { destruct Hstart as [->|(N & HN & <- & HNe)]; [lia|].
    pose proof (layout_inside cfg N l Hl HN) as HNi. unfold inside in HNi. lia. }
  destruct Hend as [Hend|(R & HR & HR1 & HR2)]; [lia|].
  pose proof (layout_inside cfg R l Hl HR) as HRi. unfold inside in HRi. lia.
Qed.

Lemma insert_merge_size_ge (m : Z) b l :
  inside cfg b → layout cfg l → m ≤ b.2 → Forall (λ c : blk, m ≤ c.2) l →
  Forall (λ c : blk, m ≤ c.2) (insert_merge cfg b l).
Proof.
  intros Hbi Hl Hb Hall. unfold insert_merge.
  rewrite (insert_block_perm (merged cfg b l) (kept cfg b l)).
  apply Forall_cons. split.
  - pose proof (merged_size_ge b l Hbi Hl). lia.
  - rewrite Forall_forall in Hall |- *. intros c Hc. apply Hall.
    eapply elem_of_sublist; [exact Hc | apply kept_sublist].
Qed.

(** A positive adjusted size is a multiple of the alignment, so at least
    the size of a header. *)
Lemma adjust_size_header n :
  0 < adjust_size cfg (wrap n) → sizeof_BlockLink_t ≤ adjust_size cfg (wrap n).
Proof.
  destruct (alignment_log2 cfg Hok) as (Hk & Halign & Hmask). intros HW.
  assert (0 ≤ Z.log2 (portBYTE_ALIGNMENT cfg)) as Hk0 by lia.
  pose proof (adjust_size_aligned cfg _ Hok Hk0 Halign Hmask n) as Hd.
  apply (aligned_header cfg Hok) in Hd. unfold sizeof_BlockLink_t in *.
  apply Z.mod_divide in Hd as [c Hc]; lia.
Qed.

Lemma heapSTRUCT_SIZE_header : sizeof_BlockLink_t ≤ heapSTRUCT_SIZE cfg.
Proof.
  destruct (alignment_log2 cfg Hok) as (Hk & Halign & Hmask).
  pose proof (cfg_facts cfg Hok) as (_ & _ & Hh & _).
  assert (0 ≤ Z.log2 (portBYTE_ALIGNMENT cfg)) as Hk0 by lia.
  destruct (heapSTRUCT_SIZE_aligned cfg _ Hok Hk0 Hmask) as [_ Hd].
  apply (aligned_header cfg Hok) in Hd. unfold sizeof_BlockLink_t in *.
  apply Z.mod_divide in Hd as [c Hc]; lia.
Qed.

Lemma reachable_block_sizes s L :
  reachable cfg s L →
  ∃ l A, heap_inv cfg (lazy_init cfg s) l A ∧ L = payload cfg <$> A
         ∧ Forall (λ c : blk, sizeof_BlockLink_t ≤ c.2) (l ++ A).
Proof.
  assert (∀ s1 l1 A1, heap_inv cfg s1 l1 A1 → lazy_init cfg s1 = s1) as Hlazy.
  { intros s1 l1 A1 (Hi & _). unfold lazy_init. by rewrite Hi. }
  destruct (cfg_headers cfg Hok) as (_ & _ & _ & HU8 & _).
  pose proof heapSTRUCT_SIZE_header as Hh8.
  induction 1 as [|s L fuel n s' p _ IH Hrun|s L1 p L2 fuel s' Hreach IH Hrun|s L fuel s' _ IH Hrun].
  - exists [(pucAlignedHeap cfg, configADJUSTED_HEAP_SIZE cfg)], [].
    split_and!; [by apply heap_inv_init | done |].
    apply Forall_cons. split; [done | apply Forall_nil_2].
  - destruct IH as (l & A & Hinv & -> & Hal).
    rewrite pvPortMalloc_lazy in Hrun.
    pose proof Hinv as (_ & _ & _ & _ & Hlay & _).
    destruct (pvPortMalloc_inv cfg Hok _ _ _ _ _ _ _ Hinv Hrun)
      as [(-> & -> & _)|(HW & l1 & b & l2 & -> & _ & Hb & -> & Hcase)].
    + rewrite decide_True by done. exists l, A. by rewrite (Hlazy _ _ _ Hinv).
    + assert (inside cfg b) as Hbi.
      { eapply layout_inside; [exact Hlay|].
        apply elem_of_app. left. apply elem_of_app. right. apply elem_of_cons. by left. }
      pose proof (cfg_facts cfg Hok) as (HH & HU & Hh & Htop & _).
      rewrite decide_False by (unfold inside, NULL in *; lia).
      assert (layout cfg (l1 ++ l2)) as Hl12.
      { pose proof Hlay as (Hl & _)%layout_app.
        assert (layout cfg (b :: l1 ++ l2)) as Hl'.
        { eapply layout_perm; [|exact Hl]. symmetry. apply Permutation_middle. }
        by apply layout_cons in Hl' as (_ & _ & ?). }
      apply Forall_app in Hal as [[Hl1 [Hba Hl2]%Forall_cons]%Forall_app HA].
      assert (Forall (λ c : blk, sizeof_BlockLink_t ≤ c.2) (l1 ++ l2)) as Hs12
        by (apply Forall_app; done).
      rewrite (heapMINIMUM_BLOCK_SIZE_eq cfg) in Hcase.
      destruct Hcase as [(Hsplit & Hinv' & _)|(_ & Hinv' & _)];
        eexists _, _; rewrite (Hlazy _ _ _ Hinv'); (split; [exact Hinv'|]);
        (split; [done|]); apply Forall_app; split.
      * apply insert_merge_size_ge; [|done| |done]; unfold inside in *; simpl; lia.
      * apply Forall_cons. split; [|done]. simpl. apply adjust_size_header. lia.
      * done.
      * apply Forall_cons. done.
  - destruct IH as (l & A & Hinv & Heq & Hal).
    assert (lazy_init cfg s = s) as Hls.
    { unfold lazy_init. destruct (xHeapHasBeenInitialised s) eqn:Hi; [done|].
      destruct (reachable_uninitialised cfg Hok s _ Hreach Hi) as [_ Hnil].
      by destruct L1. }
    rewrite Hls in Hinv.
    symmetry in Heq. apply fmap_app_inv in Heq as (A1 & A2' & HL1 & Heq & ->).
    symmetry in Heq. apply fmap_cons_inv in Heq as (b & A2 & -> & HL2 & ->).
    destruct (vPortFree_inv cfg Hok _ _ _ _ _ _ _ Hinv Hrun) as [Hinv' _].
    exists (insert_merge cfg b l), (A1 ++ A2). rewrite (Hlazy _ _ _ Hinv').
    split_and!; [done | by rewrite fmap_app, HL1, HL2 |].
    pose proof Hinv as (_ & _ & _ & _ & Hlay & _).
    pose proof Hlay as (Hl & _)%layout_app.
    assert (inside cfg b) as Hbi.
    { eapply layout_inside; [exact Hlay|].
      apply elem_of_app. right. apply elem_of_app. right. apply elem_of_cons. by left. }
    apply Forall_app in Hal as [Hl' [HA1 [Hba HA2]%Forall_cons]%Forall_app].
    apply Forall_app. split; [by apply insert_merge_size_ge | by apply Forall_app].
  - rewrite vPortFree_null in Hrun. simplify_eq. done.
Qed.

End BlockSizes.

(** X25. With an alignment of at least the size of a header, no block is
    shorter than a header: in every initialised state reached by calls of
    the interface, each free block and each block behind a live pointer
    records a size of at least [sizeof( BlockLink_t )], also after a request
    that wrapped. *)
Theorem X25_blocks_hold_a_header (cfg : Config) (s : heap) (L : list Z) :
  cfg_ok cfg = true →
  reachable cfg s L →
  xHeapHasBeenInitialised s = true →
  ∃ l A, free_list cfg s l ∧ live_blocks cfg s L = Some A
         ∧ Forall (λ c : blk, sizeof_BlockLink_t ≤ c.2) (l ++ A).
Proof.
  intros Hok Hreach Hi.
  destruct (reachable_block_sizes cfg Hok s L Hreach) as (l & A & Hinv & -> & Hal).
  assert (lazy_init cfg s = s) as Hls by (unfold lazy_init; by rewrite Hi).
  rewrite Hls in Hinv. exists l, A. split_and!; [|by eapply live_blocks_inv|done].
  by destruct Hinv as (_ & _ & ? & _).
Qed.

Lemma X25_witness :
  ∃ l A, free_list (lab_cfg 1) lab_right_first l
         ∧ live_blocks (lab_cfg 1) lab_right_first [0x20000290; 0x200001E0] = Some A
         ∧ Forall (λ c : blk, sizeof_BlockLink_t ≤ c.2) (l ++ A).
Proof.
  apply (X25_blocks_hold_a_header (lab_cfg 1) lab_right_first [0x20000290; 0x200001E0]).
  - reflexivity.
  - apply lab_right_first_reachable.
  - reflexivity.
Defined.

(** ** The functions on fields and on words

    On a state whose headers are apart, each function of the first part
    computes what the function on words computes.  [P] is a set of
    addresses that are 8 bytes apart and hold the headers. *)

#[local] Arguments Words.pxNextFreeBlock : simpl never.
#[local] Arguments Words.xBlockSize : simpl never.
#[local] Arguments Words.set_next : simpl never.
#[local] Arguments Words.set_size : simpl never.
#[local] Arguments Words.set_free : simpl never.
#[local] Arguments Words.set_init : simpl never.
#[local] Arguments to_words : simpl never.

Section Refinement.

Variable cfg : Config.
Variable P : Z → Prop.
Hypothesis HP : ∀ a b, P a → P b →
  a = b ∨ a + sizeof_BlockLink_t ≤ b ∨ b + sizeof_BlockLink_t ≤ a.

Lemma headers_in_apart s : headers_in P s → headers_apart s.
Proof. intros Hs a b Ha Hb. apply HP; auto. Qed.

Lemma to_words_next s a v :
  headers_in P s → pxNextFreeBlock s !! a = Some v →
  Words.pxNextFreeBlock (to_words s) a = Some v.
Proof.
  intros Hs Ha. unfold Words.pxNextFreeBlock, to_words. simpl.
  rewrite words_next; [done | by apply headers_in_apart | by eapply header_at_next].
Qed.

Lemma to_words_size s a v :
  headers_in P s → xBlockSize s !! a = Some v →
  Words.xBlockSize (to_words s) a = Some v.
Proof.
  intros Hs Ha. unfold Words.xBlockSize, to_words. simpl.
  rewrite words_size; [done | by apply headers_in_apart | by eapply header_at_size].
Qed.

Lemma to_words_set_next s p v :
  Words.set_next p v (to_words s) = to_words (set_next p v s).
Proof.
  unfold Words.set_next, Words.store, to_words. simpl. by rewrite words_set_next.
Qed.

Lemma to_words_set_size s p v :
  headers_in P (set_size p v s) →
  Words.set_size p v (to_words s) = to_words (set_size p v s).
Proof.
  intros Hs. unfold Words.set_size, Words.store, to_words. simpl.
  rewrite words_set_size; [done | by apply headers_in_apart].
Qed.

Lemma to_words_set_free s v : Words.set_free v (to_words s) = to_words (set_free v s).
Proof. done. Qed.

Lemma to_words_set_init s v : Words.set_init v (to_words s) = to_words (set_init v s).
Proof. done. Qed.

Lemma headers_in_set_next s p v :
  headers_in P s → header_at s p → headers_in P (set_next p v s).
Proof. intros Hs Hp a Ha. apply Hs. by eapply header_at_set_next. Qed.

Lemma headers_in_set_size s p v :
  headers_in P s → header_at s p → headers_in P (set_size p v s).
Proof. intros Hs Hp a Ha. apply Hs. by eapply header_at_set_size. Qed.

Lemma headers_in_new_next s p v : headers_in P s → P p → headers_in P (set_next p v s).
Proof. intros Hs Hp a [->|Ha]%header_at_new_next; auto. Qed.

Lemma headers_in_new_size s p v : headers_in P s → P p → headers_in P (set_size p v s).
Proof. intros Hs Hp a [->|Ha]%header_at_new_size; auto. Qed.

Lemma search_loop_words W s : ∀ fuel prev blk r,
  headers_in P s →
  search_loop fuel W s prev blk = Some r →
  Words.search_loop fuel W (to_words s) prev blk = Some r.
Proof.
  induction fuel as [|fuel IH]; intros prev blk r Hs Hrun; [done|]. simpl in *.
  destruct (xBlockSize s !! blk) as [sz|] eqn:Hsz; [|done]. simpl in Hrun.
  rewrite (to_words_size s blk sz Hs Hsz). simpl.
  case_decide; [|done].
  destruct (pxNextFreeBlock s !! blk) as [nxt|] eqn:Hnxt; [|done]. simpl in Hrun.
  rewrite (to_words_next s blk nxt Hs Hnxt). simpl.
  case_decide; [by apply IH | done].
Qed.

Lemma insert_loop_words bsz s : ∀ fuel it r,
  headers_in P s →
  insert_loop fuel bsz s it = Some r →
  Words.insert_loop fuel bsz (to_words s) it = Some r.
Proof.
  induction fuel as [|fuel IH]; intros it r Hs Hrun; [done|]. simpl in *.
  destruct (pxNextFreeBlock s !! it) as [nxt|] eqn:Hnxt; [|done]. simpl in Hrun.
  rewrite (to_words_next s it nxt Hs Hnxt). simpl.
  destruct (xBlockSize s !! nxt) as [sz|] eqn:Hsz; [|done]. simpl in Hrun.
  rewrite (to_words_size s nxt sz Hs Hsz). simpl.
  case_decide; [by apply IH | done].
Qed.

Lemma free_list_from_words s : ∀ fuel p l,
  headers_in P s →
  free_list_from cfg fuel s p = Some l →
  Words.free_list_from cfg fuel (to_words s) p = Some l.
Proof.
  induction fuel as [|fuel IH]; intros p l Hs Hrun; [done|]. simpl in *.
  case_decide; [done|].
  destruct (xBlockSize s !! p) as [sz|] eqn:Hsz; [|done]. simpl in Hrun.
  rewrite (to_words_size s p sz Hs Hsz). simpl.
  destruct (pxNextFreeBlock s !! p) as [nxt|] eqn:Hnxt; [|done]. simpl in Hrun.
  rewrite (to_words_next s p nxt Hs Hnxt). simpl.
  destruct (free_list_from cfg fuel s nxt) as [l'|] eqn:Hl; [|done].
  by rewrite (IH nxt l' Hs Hl).
Qed.

Lemma vPrintFreeList_words fuel s l :
  headers_in P s →
  vPrintFreeList cfg fuel s = Some l →
  Words.vPrintFreeList cfg fuel (to_words s) = Some l.
Proof.
  unfold vPrintFreeList, Words.vPrintFreeList. intros Hs Hrun.
  destruct (pxNextFreeBlock s !! addr_xStart cfg) as [p|] eqn:Hp; [|done]. simpl in Hrun.
  rewrite (to_words_next s _ p Hs Hp). simpl. by apply free_list_from_words.
Qed.

Lemma merge_loop_words xs xe bsz : ∀ fuel s ptr prev cur s' r,
  headers_in P s → header_at s prev →
  merge_loop cfg fuel xs xe bsz s ptr prev cur = Some (s', r) →
  Words.merge_loop cfg fuel xs xe bsz (to_words s) ptr prev cur = Some (to_words s', r).
Proof.
  induction fuel as [|fuel IH]; intros s ptr prev cur s' r Hs Hprev Hrun; [done|].
  simpl in Hrun |- *. case_decide; [by simplify_eq|].
  destruct (xBlockSize s !! cur) as [csz|] eqn:Hcsz; [|done]. simpl in Hrun.
  rewrite (to_words_size s cur csz Hs Hcsz). simpl.
  pose proof (header_at_size s cur csz Hcsz) as Hcur.
  case_decide.
  { destruct (pxNextFreeBlock s !! cur) as [nxt|] eqn:Hnxt; [|done]. simpl in Hrun.
    rewrite (to_words_next s cur nxt Hs Hnxt). simpl. by apply IH. }
  assert (∀ s1 ptr1,
    headers_in P s1 → header_at s1 prev →
    (nxt ← pxNextFreeBlock s1 !! cur;
     nxt' ← pxNextFreeBlock (set_next prev nxt s1) !! cur;
     merge_loop cfg fuel xs xe bsz (set_next prev nxt s1) ptr1 prev nxt') = Some (s', r) →
    (nxt ← Words.pxNextFreeBlock (to_words s1) cur;
     nxt' ← Words.pxNextFreeBlock (Words.set_next prev nxt (to_words s1)) cur;
     Words.merge_loop cfg fuel xs xe bsz (Words.set_next prev nxt (to_words s1)) ptr1 prev nxt')
    = Some (to_words s', r)) as Hrest.
  { intros s1 ptr1 Hs1 Hprev1 Hrun1.
    destruct (pxNextFreeBlock s1 !! cur) as [nxt|] eqn:Hnxt; [|done]. simpl in Hrun1.
    rewrite (to_words_next s1 cur nxt Hs1 Hnxt). simpl.
    assert (headers_in P (set_next prev nxt s1)) as Hs2 by (by apply headers_in_set_next).
    rewrite to_words_set_next.
    destruct (<[prev:=nxt]> (pxNextFreeBlock s1) !! cur) as [nxt'|] eqn:Hnxt'; [|done].
    simpl in Hrun1. rewrite (to_words_next (set_next prev nxt s1) cur nxt' Hs2 Hnxt'). simpl.
    apply IH; [done| |done]. left. simpl. by rewrite lookup_insert_eq. }
  case_decide.
  - simpl in Hrun |- *.
    assert (headers_in P (set_size cur (wrap (csz + bsz)) s)) as Hs1
      by (by apply headers_in_set_size).
    rewrite (to_words_set_size s cur _ Hs1). apply Hrest; [done| |exact Hrun].
    destruct Hprev as [?|?]; [by left|right]. simpl.
    destruct (decide (prev = cur)) as [->|?];
      [by rewrite lookup_insert_eq | by rewrite lookup_insert_ne].
  - case_decide.
    + destruct (xBlockSize s !! ptr) as [psz|] eqn:Hpsz; [|done]. simpl in Hrun.
      rewrite (to_words_size s ptr psz Hs Hpsz). simpl.
      pose proof (header_at_size s ptr psz Hpsz) as Hptr.
      assert (headers_in P (set_size ptr (wrap (psz + csz)) s)) as Hs1
        by (by apply headers_in_set_size).
      rewrite (to_words_set_size s ptr _ Hs1). apply Hrest; [done| |exact Hrun].
      destruct Hprev as [?|?]; [by left|right]. simpl.
      destruct (decide (prev = ptr)) as [->|?];
        [by rewrite lookup_insert_eq | by rewrite lookup_insert_ne].
    + simpl in Hrun |- *. by apply Hrest.
Qed.

(** The functions keep the headers they find. *)
Lemma merge_loop_keeps xs xe bsz : ∀ fuel s ptr prev cur s' r,
  merge_loop cfg fuel xs xe bsz s ptr prev cur = Some (s', r) →
  ∀ a, header_at s a → header_at s' a.
Proof.
  induction fuel as [|fuel IH]; intros s ptr prev cur s' r Hrun a Ha; [done|].
  simpl in Hrun. case_decide; [by simplify_eq|].
  destruct (xBlockSize s !! cur) as [csz|] eqn:Hcsz; [|done]. simpl in Hrun.
  case_decide.
  { destruct (pxNextFreeBlock s !! cur) as [nxt|] eqn:Hnxt; [|done]. simpl in Hrun.
    by eapply IH. }
  assert (∀ s1 ptr1, header_at s1 a →
    (nxt ← pxNextFreeBlock s1 !! cur;
     nxt' ← pxNextFreeBlock (set_next prev nxt s1) !! cur;
     merge_loop cfg fuel xs xe bsz (set_next prev nxt s1) ptr1 prev nxt') = Some (s', r) →
    header_at s' a) as Hrest.
  { intros s1 ptr1 Ha1 Hrun1.
    destruct (pxNextFreeBlock s1 !! cur) as [nxt|] eqn:Hnxt; [|done]. simpl in Hrun1.
    destruct (<[prev:=nxt]> (pxNextFreeBlock s1) !! cur) as [nxt'|] eqn:Hnxt'; [|done].
    simpl in Hrun1. eapply IH; [exact Hrun1|]. by apply header_at_kept. }
  case_decide.
  - simpl in Hrun. eapply Hrest; [|exact Hrun]. by apply header_at_kept.
  - case_decide.
    + destruct (xBlockSize s !! ptr) as [psz|] eqn:Hpsz; [|done]. simpl in Hrun.
      eapply Hrest; [|exact Hrun]. by apply header_at_kept.
    + simpl in Hrun. by eapply Hrest.
Qed.

Lemma prvInsertBlockIntoFreeList_keeps fuel s b s' :
  prvInsertBlockIntoFreeList cfg fuel s b = Some s' →
  ∀ a, header_at s a → header_at s' a.
Proof.
  unfold prvInsertBlockIntoFreeList. intros Hrun a Ha.
  destruct (xBlockSize s !! b) as [bsz|] eqn:Hbsz; [|done]. simpl in Hrun.
  assert (∀ s1 ptr sz, header_at s1 a →
     (it ← insert_loop fuel sz s1 (addr_xStart cfg);
      nxt ← pxNextFreeBlock s1 !! it;
      Some (set_next it ptr (set_next ptr nxt s1))) = Some s' →
     header_at s' a) as Htail.
  { intros s1 ptr sz Ha1 Hrun1.
    destruct (insert_loop fuel sz s1 _) as [it|] eqn:Hit; [|done]. simpl in Hrun1.
    destruct (pxNextFreeBlock s1 !! it) as [nxt|] eqn:Hnxt; [|done]. simpl in Hrun1.
    simplify_eq. apply header_at_kept. by apply header_at_kept. }
  case_decide.
  - destruct (pxNextFreeBlock s !! addr_xStart cfg) as [cur|] eqn:Hcur; [|done].
    simpl in Hrun.
    destruct (merge_loop cfg fuel b (wrap (b + bsz)) bsz s b (addr_xStart cfg) cur)
      as [[s1 ptr]|] eqn:Hm; [|done]. simpl in Hrun.
    destruct (xBlockSize s1 !! ptr) as [sz|] eqn:Hsz; [|done]. simpl in Hrun.
    eapply Htail; [|exact Hrun]. by eapply merge_loop_keeps.
  - simpl in Hrun. by eapply Htail.
Qed.

Lemma prvInsertBlockIntoFreeList_words fuel s b s' :
  headers_in P s →
  prvInsertBlockIntoFreeList cfg fuel s b = Some s' →
  Words.prvInsertBlockIntoFreeList cfg fuel (to_words s) b = Some (to_words s').
Proof.
  unfold prvInsertBlockIntoFreeList, Words.prvInsertBlockIntoFreeList. intros Hs Hrun.
  destruct (xBlockSize s !! b) as [bsz|] eqn:Hbsz; [|done]. simpl in Hrun.
  rewrite (to_words_size s b bsz Hs Hbsz). simpl.
  assert (∀ s1 ptr sz, headers_in P s1 →
     (it ← insert_loop fuel sz s1 (addr_xStart cfg);
      nxt ← pxNextFreeBlock s1 !! it;
      Some (set_next it ptr (set_next ptr nxt s1))) = Some s' →
     (it ← Words.insert_loop fuel sz (to_words s1) (addr_xStart cfg);
      nxt ← Words.pxNextFreeBlock (to_words s1) it;
      Some (Words.set_next it ptr (Words.set_next ptr nxt (to_words s1))))
     = Some (to_words s')) as Htail.
  { intros s1 ptr sz Hs1 Hrun1.
    destruct (insert_loop fuel sz s1 _) as [it|] eqn:Hit; [|done]. simpl in Hrun1.
    rewrite (insert_loop_words sz s1 fuel _ it Hs1 Hit). simpl.
    destruct (pxNextFreeBlock s1 !! it) as [nxt|] eqn:Hnxt; [|done]. simpl in Hrun1.
    rewrite (to_words_next s1 it nxt Hs1 Hnxt). simpl.
    rewrite !to_words_set_next. by simplify_eq. }
  case_decide.
  - destruct (pxNextFreeBlock s !! addr_xStart cfg) as [cur|] eqn:Hcur; [|done].
    simpl in Hrun. rewrite (to_words_next s _ cur Hs Hcur). simpl.
    destruct (merge_loop cfg fuel b (wrap (b + bsz)) bsz s b (addr_xStart cfg) cur)
      as [[s1 ptr]|] eqn:Hm; [|done]. simpl in Hrun.
    rewrite (merge_loop_words _ _ _ _ _ _ _ _ _ _ Hs (header_at_next s _ _ Hcur) Hm). simpl.
    assert (headers_in P s1) as Hs1.
    { intros a Ha. apply Hs. eapply merge_loop_headers; [exact Hm | | exact Ha].
      by eapply header_at_next. }
    destruct (xBlockSize s1 !! ptr) as [sz|] eqn:Hsz; [|done]. simpl in Hrun.
    rewrite (to_words_size s1 ptr sz Hs1 Hsz). simpl. by apply Htail.
  - simpl in Hrun |- *. by apply Htail.
Qed.

Lemma vPortFree_words fuel s pv s' :
  headers_in P s →
  vPortFree cfg fuel s pv = Some s' →
  Words.vPortFree cfg fuel (to_words s) pv = Some (to_words s').
Proof.
  unfold vPortFree, Words.vPortFree. intros Hs Hrun. case_decide; [|by simplify_eq].
  destruct (prvInsertBlockIntoFreeList cfg fuel s _) as [s1|] eqn:Hins; [|done].
  simpl in Hrun. rewrite (prvInsertBlockIntoFreeList_words _ _ _ _ Hs Hins). simpl.
  assert (headers_in P s1) as Hs1.
  { intros a Ha. apply Hs. by eapply prvInsertBlockIntoFreeList_headers. }
  destruct (xBlockSize s1 !! _) as [sz|] eqn:Hsz; [|done]. simpl in Hrun.
  rewrite (to_words_size s1 _ sz Hs1 Hsz). simpl. by simplify_eq.
Qed.

Hypothesis Hstart : P (addr_xStart cfg).
Hypothesis Hend : P (addr_xEnd cfg).
Hypothesis Hfirst : P (pucAlignedHeap cfg).

Lemma prvHeapInit_words s :
  headers_in P s →
  Words.prvHeapInit cfg (to_words s) = to_words (prvHeapInit cfg s)
  ∧ headers_in P (prvHeapInit cfg s).
Proof.
  intros Hs. unfold prvHeapInit, Words.prvHeapInit.
  set (s1 := set_next (addr_xStart cfg) (pucAlignedHeap cfg) s).
  set (s2 := set_size (addr_xStart cfg) 0 s1).
  set (s3 := set_size (addr_xEnd cfg) (configADJUSTED_HEAP_SIZE cfg) s2).
  set (s4 := set_next (addr_xEnd cfg) NULL s3).
  set (s5 := set_size (pucAlignedHeap cfg) (configADJUSTED_HEAP_SIZE cfg) s4).
  set (s6 := set_next (pucAlignedHeap cfg) (addr_xEnd cfg) s5).
  assert (headers_in P s1) as H1 by (by apply headers_in_new_next).
  assert (headers_in P s2) as H2 by (by apply headers_in_new_size).
  assert (headers_in P s3) as H3 by (by apply headers_in_new_size).
  assert (headers_in P s4) as H4 by (by apply headers_in_new_next).
  assert (headers_in P s5) as H5 by (by apply headers_in_new_size).
  assert (headers_in P s6) as H6 by (by apply headers_in_new_next).
  split; [|done].
  rewrite to_words_set_next. fold s1.
  rewrite (to_words_set_size s1 _ _ H2). fold s2.
  rewrite (to_words_set_size s2 _ _ H3). fold s3.
  rewrite to_words_set_next. fold s4.
  rewrite (to_words_set_size s4 _ _ H5). fold s5.
  by rewrite to_words_set_next.
Qed.

Lemma pvPortMalloc_words fuel s n s' p :
  headers_in P s → headers_in P s' →
  pvPortMalloc cfg fuel s n = Some (s', p) →
  Words.pvPortMalloc cfg fuel (to_words s) n = Some (to_words s', p).
Proof.
  intros Hs Hs' Hrun. unfold pvPortMalloc in Hrun. unfold Words.pvPortMalloc.
  change (Words.xHeapHasBeenInitialised (to_words s)) with (xHeapHasBeenInitialised s).
  set (s0 := if xHeapHasBeenInitialised s then s else set_init true (prvHeapInit cfg s)) in *.
  assert ((if xHeapHasBeenInitialised s then to_words s
           else Words.set_init true (Words.prvHeapInit cfg (to_words s))) = to_words s0
          ∧ headers_in P s0) as [-> Hs0].
  { subst s0. destruct (xHeapHasBeenInitialised s); [done|].
    destruct (prvHeapInit_words s Hs) as [-> ?]. done. }
  set (W := adjust_size cfg (wrap n)) in *.
  case_decide as HW; [|by simplify_eq].
  destruct (pxNextFreeBlock s0 !! addr_xStart cfg) as [p0|] eqn:Hp0; [|done]. simpl in Hrun.
  rewrite (to_words_next s0 _ p0 Hs0 Hp0). simpl.
  destruct (search_loop fuel W s0 (addr_xStart cfg) p0) as [[prev q]|] eqn:Hsearch; [|done].
  simpl in Hrun. rewrite (search_loop_words W s0 fuel _ _ _ Hs0 Hsearch). simpl.
  case_decide as Hq; [|by simplify_eq].
  destruct (pxNextFreeBlock s0 !! prev) as [pp|] eqn:Hpp; [|done]. simpl in Hrun.
  rewrite (to_words_next s0 prev pp Hs0 Hpp). simpl.
  destruct (pxNextFreeBlock s0 !! q) as [nx|] eqn:Hnx; [|done]. simpl in Hrun.
  rewrite (to_words_next s0 q nx Hs0 Hnx). simpl.
  rewrite to_words_set_next.
  set (s1 := set_next prev nx s0) in *.
  assert (headers_in P s1) as Hs1.
  { apply headers_in_set_next; [done | by eapply header_at_next]. }
  change (xBlockSize s1 !! q) with (xBlockSize s0 !! q) in Hrun.
  destruct (xBlockSize s0 !! q) as [sz|] eqn:Hsz; [|done]. simpl in Hrun.
  rewrite (to_words_size s1 q sz Hs1 Hsz). simpl.
  case_decide as Hsplit.
  - set (a0 := wrap (q + W)) in *.
    set (s2 := set_size a0 (wrap (sz - W)) s1) in *.
    set (s3 := set_size q W s2) in *.
    destruct (prvInsertBlockIntoFreeList cfg fuel s3 a0) as [s4|] eqn:Hins; [|done].
    simpl in Hrun.
    destruct (xBlockSize s4 !! q) as [sz'|] eqn:Hsz'; [|done]. simpl in Hrun.
    simplify_eq.
    assert (P a0) as Ha0.
    { apply Hs'. apply (prvInsertBlockIntoFreeList_keeps _ _ _ _ Hins).
      apply header_at_kept. right. simpl. by rewrite lookup_insert_eq. }
    assert (headers_in P s2) as Hs2 by (by apply headers_in_new_size).
    assert (headers_in P s3) as Hs3.
    { apply headers_in_set_size; [done|]. apply header_at_kept. by eapply header_at_size. }
    rewrite (to_words_set_size s1 a0 _ Hs2). fold s2.
    rewrite (to_words_set_size s2 q _ Hs3). fold s3.
    rewrite (prvInsertBlockIntoFreeList_words _ _ _ _ Hs3 Hins). simpl.
    assert (headers_in P s4) as Hs4.
    { intros a Ha. apply Hs3. by eapply prvInsertBlockIntoFreeList_headers. }
    rewrite (to_words_size s4 q sz' Hs4 Hsz'). simpl. done.
  - simpl in Hrun |- *. change (xBlockSize s1 !! q) with (xBlockSize s0 !! q) in Hrun.
    rewrite Hsz in Hrun. simpl in Hrun.
    rewrite (to_words_size s1 q sz Hs1 Hsz). simpl. by simplify_eq.
Qed.

End Refinement.

(** ** The calls on reachable states *)

Lemma to_words_initial cfg :
  cfg_ok cfg = true → to_words (initial_heap cfg) = Words.initial_heap cfg.
Proof.
  intros Hok. destruct (cfg_headers cfg Hok) as (_ & _ & _ & _ & Hse & _).
  unfold sizeof_BlockLink_t in Hse.
  unfold to_words, Words.initial_heap, words, initial_heap. simpl. f_equal.
  pose proof (kmap_insert (λ a : Z, a + 4) (<[addr_xEnd cfg := 0]> (∅ : gmap Z Z))
                (addr_xStart cfg) 0) as H1.
  pose proof (kmap_insert (λ a : Z, a + 4) (∅ : gmap Z Z) (addr_xEnd cfg) 0) as H2.
  simpl in H1, H2. rewrite H1, H2, kmap_empty.
  rewrite <- !insert_union_l, (left_id ∅ _).
  f_equal. apply insert_insert_ne. lia.
Qed.

Section Reachable_words.

Variable cfg : Config.
Hypothesis Hok : cfg_ok cfg = true.

Lemma pvPortMalloc_reachable_words s L fuel n s' p :
  reachable cfg s L →
  pvPortMalloc cfg fuel s n = Some (s', p) →
  Words.pvPortMalloc cfg fuel (to_words s) n = Some (to_words s', p).
Proof.
  intros Hreach Hrun.
  apply (pvPortMalloc_words cfg (header_slot cfg)); [| | | | | |done].
  - intros a b. by apply header_slots_apart.
  - by left.
  - right. by left.
  - by apply arena_start_slot.
  - exact (reachable_header_slots cfg Hok s L Hreach).
  - intros a. apply (reachable_header_slots cfg Hok s' (if decide (p = NULL) then L else p :: L)).
    by eapply reach_malloc.
Qed.

Lemma vPortFree_reachable_words s L fuel pv s' :
  reachable cfg s L →
  vPortFree cfg fuel s pv = Some s' →
  Words.vPortFree cfg fuel (to_words s) pv = Some (to_words s').
Proof.
  intros Hreach Hrun.
  apply (vPortFree_words cfg (header_slot cfg)); [| |done].
  - intros a b. by apply header_slots_apart.
  - exact (reachable_header_slots cfg Hok s L Hreach).
Qed.

Lemma vPrintFreeList_reachable_words s L fuel l :
  reachable cfg s L →
  vPrintFreeList cfg fuel s = Some l →
  Words.vPrintFreeList cfg fuel (to_words s) = Some l.
Proof.
  intros Hreach Hrun.
  apply (vPrintFreeList_words cfg (header_slot cfg)); [| |done].
  - intros a b. by apply header_slots_apart.
  - exact (reachable_header_slots cfg Hok s L Hreach).
Qed.

(** A run of calls that respects the interface is, call by call, the run
    of the program on words. *)
Lemma run_live_words fuel : ∀ cs s ptrs L s' ptrs' L',
  reachable cfg s L →
  run_live cfg fuel cs s ptrs L = Some (s', ptrs', L') →
  Words.run_calls cfg fuel cs (to_words s) ptrs = Some (to_words s', ptrs').
Proof.
  induction cs as [|[n|i] cs IH]; intros s ptrs L s' ptrs' L' Hreach Hrun; simpl in *.
  - by simplify_eq.
  - destruct (pvPortMalloc cfg fuel s n) as [[s1 p]|] eqn:Hm; [|done]. simpl in Hrun.
    rewrite (pvPortMalloc_reachable_words s L fuel n s1 p Hreach Hm). simpl.
    eapply IH; [|exact Hrun]. by eapply reach_malloc.
  - destruct (ptrs !! i) as [p|]; [|done]. simpl in Hrun |- *.
    destruct (decide (p = NULL)) as [->|Hp].
    + destruct (vPortFree cfg fuel s NULL) as [s1|] eqn:Hf; [|done]. simpl in Hrun.
      rewrite (vPortFree_reachable_words s L fuel _ s1 Hreach Hf). simpl.
      eapply IH; [|exact Hrun]. by eapply reach_free_null.
    + destruct (list_find (λ q, q = p) L) as [[j q]|] eqn:Hfind; [|done]. simpl in Hrun.
      destruct (vPortFree cfg fuel s p) as [s1|] eqn:Hf; [|done]. simpl in Hrun.
      rewrite (vPortFree_reachable_words s L fuel _ s1 Hreach Hf). simpl.
      apply list_find_Some in Hfind as (Hj & -> & _).
      eapply IH; [|exact Hrun].
      rewrite delete_take_drop. eapply reach_free; [|exact Hf].
      by rewrite take_drop_middle.
Qed.

End Reachable_words.

(** X26. With an alignment of at least the size of a header, the functions
    on the two maps compute what the program computes on its memory: in
    every state reached by calls of the interface, a call of [pvPortMalloc]
    or [vPortFree] and the walk of [vPrintFreeList] on the memory that the
    state stands for, taken word by word with [xBlockSize] in the word
    after [pxNextFreeBlock], give the same result and the memory of the
    resulting state; the counter is the same. *)
Theorem X26_calls_on_words (cfg : Config) (s : heap) (L : list Z) :
  cfg_ok cfg = true → reachable cfg s L →
  (∀ fuel n s' p, pvPortMalloc cfg fuel s n = Some (s', p) →
     Words.pvPortMalloc cfg fuel (to_words s) n = Some (to_words s', p))
  ∧ (∀ fuel pv s', vPortFree cfg fuel s pv = Some s' →
     Words.vPortFree cfg fuel (to_words s) pv = Some (to_words s'))
  ∧ (∀ fuel l, vPrintFreeList cfg fuel s = Some l →
     Words.vPrintFreeList cfg fuel (to_words s) = Some l)
  ∧ Words.xFreeBytesRemaining (to_words s) = xPortGetFreeHeapSize s.
Proof.
  intros Hok Hreach. split_and!; [| | |done].
  - intros fuel n s' p. by eapply pvPortMalloc_reachable_words.
  - intros fuel pv s'. by eapply vPortFree_reachable_words.
  - intros fuel l. by eapply vPrintFreeList_reachable_words.
Qed.

Lemma X26_witness :
  (∀ fuel n s' p, pvPortMalloc (lab_cfg 1) fuel lab_right_first n = Some (s', p) →
     Words.pvPortMalloc (lab_cfg 1) fuel (to_words lab_right_first) n
     = Some (to_words s', p))
  ∧ (∀ fuel pv s', vPortFree (lab_cfg 1) fuel lab_right_first pv = Some s' →
     Words.vPortFree (lab_cfg 1) fuel (to_words lab_right_first) pv = Some (to_words s'))
  ∧ (∀ fuel l, vPrintFreeList (lab_cfg 1) fuel lab_right_first = Some l →
     Words.vPrintFreeList (lab_cfg 1) fuel (to_words lab_right_first) = Some l)
  ∧ Words.xFreeBytesRemaining (to_words lab_right_first)
    = xPortGetFreeHeapSize lab_right_first.
Proof.
  apply (X26_calls_on_words (lab_cfg 1) lab_right_first [0x20000290; 0x200001E0]).
  - reflexivity.
  - apply lab_right_first_reachable.
Defined.

(** The run of the lab that leads to [lab_right_first], on words from the
    initial memory. *)
Example lab_right_first_on_words :
  Words.run_calls (lab_cfg 1) 8
    [Malloc 200; Malloc 100; Malloc 50; Malloc 10; Free 0; Free 2]
    (Words.initial_heap (lab_cfg 1)) []
  = Some (to_words lab_right_first, [0x20000110; 0x200001E0; 0x20000250; 0x20000290]).
Proof.
  rewrite <- to_words_initial by reflexivity.
  eapply (run_live_words (lab_cfg 1) eq_refl 8 _ _ [] [] _ _ _ (reach_init _)).
  vm_compute. reflexivity.
Qed.

(** ** An alignment below the size of a header

    With an alignment of 4 the request [2^32 - 4] wraps to a block of 4
    bytes at the start of the arena, and the header of the remainder lies
    in its second word.  On words the link written to the remainder is
    read back as the size of the block handed out, and the counter drops by
    the address of [xEnd]; on the two maps the size stays 4.  With the
    statics at low addresses, the same request followed by
    [pvPortMalloc( 100 )] and the two [vPortFree] calls leaves on words a
    list that is not in order of size.  [cfg_ok] leaves such configurations
    out. *)
Example small_alignment_shares_words :
  cfg_ok (small_cfg 0x20000000) = false
  ∧ (r ← Words.pvPortMalloc (small_cfg 0x20000000) 4
           (Words.initial_heap (small_cfg 0x20000000)) (2 ^ 32 - 4);
     sz ← Words.xBlockSize r.1 (r.2 - 8);
     Some (r.2, sz, Words.xFreeBytesRemaining r.1))
    = Some (0x2000010C, 0x20000018, 3758097384)
  ∧ (r ← pvPortMalloc (small_cfg 0x20000000) 4
           (initial_heap (small_cfg 0x20000000)) (2 ^ 32 - 4);
     sz ← recorded_size (small_cfg 0x20000000) r.1 r.2;
     Some (r.2, sz, xFreeBytesRemaining r.1))
    = Some (0x2000010C, 4, 1020)
  ∧ (r ← Words.run_calls (small_cfg 0) 8
           [Malloc (2 ^ 32 - 4); Malloc 100; Free 0; Free 1]
           (Words.initial_heap (small_cfg 0)) [];
     Words.vPrintFreeList (small_cfg 0) 8 r.1)
    = Some [(0x104, 372); (0x108, 108); (0x174, 912)].
Proof. by vm_compute. Qed.
